(** * QuizTastic: option generator, round session controller and session
      orchestrator

    A shallow embedding of the game logic of the quiz application:
    - [generateOptions] of MultiplicationGame / WordMathGame,
    - the round session state machine that the four mini-game components
      share (countdown effect, timeout effect, [handleOptionSelect],
      mount / unmount),
    - the orchestrator in [App] ([updatePlayerScore], [checkForLevelUp],
      [nextTurn], [startGame], [selectGameForPlayer]),
    - the question pools and the question generation of AnimalGame and
      OppositesGame, and [generateProblem] of MultiplicationGame,
    - the selection form (GameSelection) and the events of the user
      interface of [App],
    - the folder-name normalisation of the repository structure script.

    JavaScript numbers that hold integers are modelled as [Z]; the two
    places where a non-integer constant is multiplied in (the score factors
    0.5 and 0.3) go through an explicit model of binary64 rounding. *)

From Stdlib Require Import ZArith QArith Qround List Lia Bool Uint63 PrimFloat FloatOps.
From stdpp Require Import base decidable list numbers strings.
Import ListNotations.
Open Scope Z_scope.

(* ===================================================================== *)
(** ** Math.random *)
(* ===================================================================== *)

(** One result of [Math.random()]: a number in the half-open interval
    [0, 1).  The value of [{| rnum := a; rgap := b |}] is [a / (a + b + 1)],
    so every pair of naturals denotes a number of the interval and every
    rational of the interval is denoted by some pair. *)
Record Rand := mkRand { rnum : N; rgap : N }.

Definition rden (r : Rand) : Z := Z.of_N (rnum r) + Z.of_N (rgap r) + 1.

(** [Math.floor(Math.random() * n)] *)
Definition floorTimes (r : Rand) (n : Z) : Z := (Z.of_N (rnum r) * n) / rden r.

(** [Math.random() > 0.5] *)
Definition gtHalf (r : Rand) : bool := (rgap r + 1 <? rnum r)%N.

(** The sign of [Math.random() - 0.5], as a comparator result. *)
Definition minusHalf (r : Rand) : comparison := (2 * Z.of_N (rnum r)) ?= rden r.

(** The sequence of results that successive calls of [Math.random()]
    return; a run of the program consumes a prefix of it. *)
Definition prefix (s : nat -> Rand) (n : nat) : list Rand := map s (seq 0 n).

(* ===================================================================== *)
(** ** Option generator (MultiplicationGame, WordMathGame) *)
(* ===================================================================== *)

(** [options.includes(wrongAnswer)] *)
Definition includes (options : list Z) (x : Z) : bool := existsb (Z.eqb x) options.

(** [Math.floor(Math.random() * (7 - Math.min(difficulty, 5))) + 1] *)
Definition drawOffset (difficulty : Z) (r : Rand) : Z :=
  floorTimes r (7 - Z.min difficulty 5) + 1.

(** [Math.random() > 0.5 ? 1 : -1] *)
Definition drawSign (r : Rand) : Z := if gtHalf r then 1 else -1.

(** [correctAnswer + (offset * sign)] *)
Definition wrongAnswerOf (correctAnswer difficulty : Z) (r1 r2 : Rand) : Z :=
  correctAnswer + drawOffset difficulty r1 * drawSign r2.

(** The [while (options.length < 4)] loop.  Every iteration calls
    [Math.random()] twice.  The list of draws is what the loop is allowed
    to consume: [None] means that the loop is still running when the draws
    are used up; [Some (options, rest)] is the array at loop exit together
    with the draws that are left. *)
Fixpoint collect (correctAnswer difficulty : Z) (options : list Z) (rs : list Rand)
  {struct rs} : option (list Z * list Rand) :=
  if (length options <? 4)%nat then
    match rs with
    | r1 :: r2 :: rs' =>
        let wrongAnswer := wrongAnswerOf correctAnswer difficulty r1 r2 in
        if (0 <? wrongAnswer) && negb (includes options wrongAnswer)
        then collect correctAnswer difficulty (options ++ [wrongAnswer]) rs'
        else collect correctAnswer difficulty options rs'
    | _ => None
    end
  else Some (options, rs).

(** [options.sort(() => Math.random() - 0.5)]: the comparator ignores its
    arguments.  The engine's sort is modelled as an insertion sort that
    calls the comparator once per comparison; a negative result puts the
    element that is being inserted first. *)
Fixpoint insertRandom (x : Z) (sorted : list Z) (rs : list Rand)
  : option (list Z * list Rand) :=
  match sorted with
  | [] => Some ([x], rs)
  | y :: ys =>
      match rs with
      | [] => None
      | r :: rs' =>
          match minusHalf r with
          | Lt => Some (x :: y :: ys, rs')
          | _ => match insertRandom x ys rs' with
                 | Some (l, rs'') => Some (y :: l, rs'')
                 | None => None
                 end
          end
      end
  end.

Fixpoint sortRandom (l : list Z) (rs : list Rand) : option (list Z * list Rand) :=
  match l with
  | [] => Some ([], rs)
  | x :: l' =>
      match sortRandom l' rs with
      | Some (sorted, rs') => insertRandom x sorted rs'
      | None => None
      end
  end.

(** [generateOptions(correctAnswer, difficulty)].  [None]: the call has not
    returned within the given draws. *)
Definition generateOptions (correctAnswer difficulty : Z) (rs : list Rand)
  : option (list Z) :=
  match collect correctAnswer difficulty [correctAnswer] rs with
  | Some (options, rs') =>
      match sortRandom options rs' with
      | Some (shuffled, _) => Some shuffled
      | None => None
      end
  | None => None
  end.

(** The loop of [generateOptions] has exited within the draws [rs]. *)
Definition loopExits (correctAnswer difficulty : Z) (rs : list Rand) : Prop :=
  exists out, collect correctAnswer difficulty [correctAnswer] rs = Some out.

(** The candidate values that the loop computes from the draws, in order. *)
Fixpoint candidates (correctAnswer difficulty : Z) (rs : list Rand) : list Z :=
  match rs with
  | r1 :: r2 :: rs' =>
      wrongAnswerOf correctAnswer difficulty r1 r2
        :: candidates correctAnswer difficulty rs'
  | _ => []
  end.

(** [Math.random()] returning 0 on every call. *)
Definition zeroRand : Rand := mkRand 0 0.
(** Draws for which [Math.floor(Math.random() * n)] is [k], and for a
    positive, respectively negative, sign. *)
Definition randFor (k n : Z) : Rand := mkRand (Z.to_N k) (Z.to_N (n - k - 1)).
Definition randPlus : Rand := mkRand 3 0.
Definition randMinus : Rand := mkRand 0 0.

(** The invariant of the loop: no duplicates, positive entries, the correct
    answer is there, and the array never grows beyond four entries. *)
Definition wellFormed (correctAnswer : Z) (options : list Z) : Prop :=
  NoDup options /\ Forall (fun x => 0 < x) options /\ In correctAnswer options
  /\ (length options <= 4)%nat.

(** An entry of the array: the correct answer, or a value whose distance
    to it is an offset of the difficulty's range. *)
Definition withinOffset (correctAnswer difficulty x : Z) : Prop :=
  x = correctAnswer \/ 1 <= Z.abs (x - correctAnswer) <= 7 - Z.min difficulty 5.

(** A value that the loop accepts as a decoy (when it is not yet in the
    array): positive and different from the correct answer. *)
Definition acceptable (correctAnswer w : Z) : Prop := 0 < w /\ w <> correctAnswer.

(** Three distinct acceptable values occur among the candidates [ws]. *)
Definition threeAcceptable (correctAnswer : Z) (ws : list Z) : Prop :=
  exists w1 w2 w3,
    w1 <> w2 /\ w1 <> w3 /\ w2 <> w3
    /\ Forall (fun w => acceptable correctAnswer w /\ In w ws) [w1; w2; w3].

(* ===================================================================== *)
(** ** JavaScript numbers in the score formula *)
(* ===================================================================== *)

(** The score is [Math.floor(timeLeft * (difficulty * k))] with [k] the
    literal [0.5] or [0.3].  [0.3] is not a binary64 value and the two
    products are rounded, so the formula is evaluated on an explicit model
    of binary64 arithmetic: a finite value is a sign and a magnitude
    [mant * 2 ^ expo] with [0 <= mant <= 2 ^ 53] (not necessarily
    normalised).  Exponent overflow and underflow are out of reach of the
    products of the formula and are not modelled. *)
Module Double.

Record t := mk { neg : bool; mant : Z; expo : Z }.

(** Round the magnitude [n * 2 ^ e] to 53 significant bits, to nearest,
    ties to even. *)
Definition round53 (n e : Z) : Z * Z :=
  if n <? 2 ^ 53 then (n, e)
  else
    let k := Z.log2 n - 52 in
    let q := n / 2 ^ k in
    let r := n mod 2 ^ k in
    let half := 2 ^ (k - 1) in
    let up := (half <? r) || ((half =? r) && Z.odd q) in
    (if up then q + 1 else q, e + k).

(** The number that holds the integer [n]. *)
Definition of_Z (n : Z) : t :=
  let '(m, e) := round53 (Z.abs n) 0 in mk (n <? 0) m e.

(** [a * b] *)
Definition mul (a b : t) : t :=
  let '(m, e) := round53 (mant a * mant b) (expo a + expo b) in
  mk (xorb (neg a) (neg b)) m e.

(** [Math.floor(a)], as an integer. *)
Definition floor (a : t) : Z :=
  let m := if neg a then - mant a else mant a in
  if 0 <=? expo a then m * 2 ^ expo a else m / 2 ^ (- expo a).

(** The literals [0.5] and [0.3] (the latter is the binary64 value
    [0x1.3333333333333p-2]). *)
Definition half : t := mk false 1 (-1).
Definition three_tenths : t := mk false 5404319552844595 (-54).

(** The same computation on the primitive binary64 numbers of the
    kernel, used to check the model above. *)
Definition prim_of_Z (n : Z) : float :=
  if n <? 0 then PrimFloat.opp (PrimFloat.of_uint63 (Uint63.of_Z (- n)))
  else PrimFloat.of_uint63 (Uint63.of_Z n).

Definition prim_floor (f : float) : Z :=
  match Prim2SF f with
  | SpecFloat.S754_finite s m e =>
      let z := if s then Z.neg m else Z.pos m in
      if 0 <=? e then z * 2 ^ e else z / 2 ^ (- e)
  | _ => 0
  end.

Definition prim_half : float := 0x1p-1%float.
Definition prim_three_tenths : float := 0x1.3333333333333p-2%float.

End Double.

(** [Math.floor(timeLeft * (difficulty * k))] *)
Definition floorScaled (k : Double.t) (timeLeft difficulty : Z) : Z :=
  Double.floor (Double.mul (Double.of_Z timeLeft) (Double.mul (Double.of_Z difficulty) k)).

(** The same on primitive floats. *)
Definition floorScaledPrim (k : float) (timeLeft difficulty : Z) : Z :=
  Double.prim_floor
    (PrimFloat.mul (Double.prim_of_Z timeLeft) (PrimFloat.mul (Double.prim_of_Z difficulty) k)).

(** The spec's scoring rule, in exact rational arithmetic:
    [max(1, floor(timeLeft * difficulty * k))]. *)
Definition specPoints (k : Q) (timeLeft difficulty : Z) : Z :=
  Z.max 1 (Qfloor (inject_Z timeLeft * inject_Z difficulty * k)).

(** Exhaustive check of a predicate on [1..tmax] x [1..dmax]. *)
Definition grid (f : Z -> Z -> bool) (tmax dmax : nat) : bool :=
  forallb (fun t => forallb (fun d => f (Z.of_nat t) (Z.of_nat d)) (seq 1 dmax)) (seq 1 tmax).

(* ===================================================================== *)
(** ** Round session controller *)
(* ===================================================================== *)

(** The four mini-game components.  They share one state machine and differ
    in the score factor, in the canned options of [initializeGame]'s catch
    block, in the place where [initializeGame] sets the problem, and (for
    OppositesGame) in the guard of the countdown. *)
Inductive Variant := OppositesGame | MultiplicationGame | AnimalGame | WordMathGame.

(** An option of a question: a number (multiplication, word math) or a
    word (animals, opposites).  [===] on these is equality. *)
Inductive Value := VNum (n : Z) | VStr (s : string).

#[global] Instance Value_eq_dec : EqDecision Value.
Proof. solve_decision. Defined.

(** The question objects of the four games: [problem] of
    MultiplicationGame and WordMathGame, [currentAnimal], [currentPair]. *)
Inductive Problem :=
| MultiplicationProblem (num1 num2 : Z)
| WordProblem (num1 num2 : Z) (template : nat)
| Animal (name : string)
| OppositesPair (word opposite : string).

(** [problem.answer], [currentAnimal.name], [currentPair.opposite] *)
Definition answer (p : Problem) : Value :=
  match p with
  | MultiplicationProblem num1 num2 => VNum (num1 * num2)
  | WordProblem num1 num2 _ => VNum (num1 * num2)
  | Animal name => VStr name
  | OppositesPair _ opposite => VStr opposite
  end.

(** [generateProblem(difficulty)] of MultiplicationGame. *)
Definition generateProblem (difficulty : Z) (r1 r2 : Rand) : Problem :=
  let maxNum := Z.min 10 (3 + difficulty) in
  let num1 := floorTimes r1 maxNum + 1 in
  let num2 := floorTimes r2 maxNum + 1 in
  MultiplicationProblem num1 num2.

(** The literal that [handleOptionSelect] multiplies the difficulty with. *)
Definition scoreFactor (g : Variant) : Double.t :=
  match g with
  | MultiplicationGame | WordMathGame => Double.half
  | OppositesGame | AnimalGame => Double.three_tenths
  end.

(** [Math.max(1, Math.floor(timeLeft * (difficulty * k)))] *)
Definition pointsFor (g : Variant) (timeLeft difficulty : Z) : Z :=
  Z.max 1 (floorScaled (scoreFactor g) timeLeft difficulty).

(** The spec's factor [k] of each game. *)
Definition specFactor (g : Variant) : Q :=
  match g with
  | MultiplicationGame | WordMathGame => 1 # 2
  | OppositesGame | AnimalGame => 3 # 10
  end.

(** The options that the catch block of [initializeGame] sets. *)
Definition fallbackOptions (g : Variant) : list Value :=
  match g with
  | MultiplicationGame => [VNum 4; VNum 6; VNum 8; VNum 10]
  | WordMathGame => [VNum 6; VNum 8; VNum 10; VNum 12]
  | AnimalGame => [VStr "dog"; VStr "cat"; VStr "elephant"; VStr "lion"]
  | OppositesGame => [VStr "small"; VStr "cold"; VStr "down"; VStr "slow"]
  end.

(** A session is one mount of a game component with fixed props, from the
    first run of its effects to the unmount.  (A change of the props of a
    mounted component, which runs [initializeGame] again, is not part of
    a session.) *)
Module RoundSession.

(** [x !== null] and [!x] for a hook that holds an object or [null]. *)
Definition notNull {A} (x : option A) : bool :=
  match x with Some _ => true | None => false end.

Definition isNull {A} (x : option A) : bool := negb (notNull x).

(** The props of a game component ([player] is only displayed;
    [onComplete] is represented by the log [completed] of the state). *)
Record Props := mkProps { game : Variant; timerDuration : Z; difficulty : Z }.

(** The state hooks and refs of a game component.
    - [timerRef]: [Some t] when a 1-second timer is pending; [t] is the
      [timeLeft] that its callback closed over.
    - [completionRef]: [Some (points, correct)] when a 3-second timer is
      pending; the pair is what its callback passes to [onComplete].
    - [completed]: the calls of [onComplete] made so far, latest first. *)
Record Session := mkSession {
  gameInitialized : bool;
  problem : option Problem;
  options : list Value;
  selectedOption : option Value;
  isCorrect : option bool;
  timeLeft : Z;
  score : Z;
  showExplanation : bool;
  imageLoaded : bool;
  imageError : bool;
  isTransitioning : bool;
  mountedRef : bool;
  timerRef : option Z;
  completionRef : option (Z * bool);
  completed : list (Z * bool)
}.

Definition setTimeLeft (v : Z) (s : Session) : Session :=
  mkSession (gameInitialized s) (problem s) (options s) (selectedOption s) (isCorrect s)
    v (score s) (showExplanation s) (imageLoaded s) (imageError s) (isTransitioning s)
    (mountedRef s) (timerRef s) (completionRef s) (completed s).

Definition setTimerRef (v : option Z) (s : Session) : Session :=
  mkSession (gameInitialized s) (problem s) (options s) (selectedOption s) (isCorrect s)
    (timeLeft s) (score s) (showExplanation s) (imageLoaded s) (imageError s)
    (isTransitioning s) (mountedRef s) v (completionRef s) (completed s).

Definition setCompletionRef (v : option (Z * bool)) (s : Session) : Session :=
  mkSession (gameInitialized s) (problem s) (options s) (selectedOption s) (isCorrect s)
    (timeLeft s) (score s) (showExplanation s) (imageLoaded s) (imageError s)
    (isTransitioning s) (mountedRef s) (timerRef s) v (completed s).

Definition setProblem (v : option Problem) (s : Session) : Session :=
  mkSession (gameInitialized s) v (options s) (selectedOption s) (isCorrect s)
    (timeLeft s) (score s) (showExplanation s) (imageLoaded s) (imageError s)
    (isTransitioning s) (mountedRef s) (timerRef s) (completionRef s) (completed s).

(** [setSelectedOption(sel); setIsCorrect(correct); setIsTransitioning(true);
    setScore(newScore)] *)
Definition lockAnswer (sel : Value) (correct : bool) (newScore : Z) (s : Session) : Session :=
  mkSession (gameInitialized s) (problem s) (options s) (Some sel) (Some correct)
    (timeLeft s) newScore (showExplanation s) (imageLoaded s) (imageError s)
    true (mountedRef s) (timerRef s) (completionRef s) (completed s).

Definition logCompletion (points : Z) (correct : bool) (s : Session) : Session :=
  mkSession (gameInitialized s) (problem s) (options s) (selectedOption s) (isCorrect s)
    (timeLeft s) (score s) (showExplanation s) (imageLoaded s) (imageError s)
    (isTransitioning s) (mountedRef s) (timerRef s) (completionRef s)
    ((points, correct) :: completed s).

(** The state of a component before its first effect has run
    ([useState] and [useRef] initial values). *)
Definition initialSession (p : Props) : Session :=
  mkSession false None [] None None (timerDuration p) 0 false false false false
    true None None [].

(** What the try block of [initializeGame] does: it generates a problem
    and its options, or one of the two generation steps throws. *)
Inductive Generation :=
| Generated (newProblem : Problem) (newOptions : list Value)
| ProblemThrows
| OptionsThrow (newProblem : Problem).

(** The catch block of [initializeGame]. *)
Definition catchBlock (p : Props) (s : Session) : Session :=
  if mountedRef s then
    mkSession true (problem s) (fallbackOptions (game p)) (selectedOption s) (isCorrect s)
      (timeLeft s) (score s) (showExplanation s) (imageLoaded s) true
      (isTransitioning s) (mountedRef s) (timerRef s) (completionRef s) (completed s)
  else s.

(** [initializeGame()].  MultiplicationGame and WordMathGame call
    [setProblem] before they generate the options, so the problem is set
    when option generation throws; AnimalGame and OppositesGame build the
    options before the first setter. *)
Definition initializeGame (p : Props) (gen : Generation) (s : Session) : Session :=
  if negb (mountedRef s) then s
  else
    match gen with
    | Generated newProblem newOptions =>
        mkSession true (Some newProblem) newOptions None None (timerDuration p) (score s)
          false false false false (mountedRef s) (timerRef s) (completionRef s) (completed s)
    | ProblemThrows => catchBlock p s
    | OptionsThrow newProblem =>
        match game p with
        | MultiplicationGame | WordMathGame => catchBlock p (setProblem (Some newProblem) s)
        | AnimalGame | OppositesGame => catchBlock p s
        end
    end.

(** The countdown effect returns early when this holds. *)
Definition timerIdle (p : Props) (s : Session) : bool :=
  negb (gameInitialized s)
  || match game p with OppositesGame => false | _ => timeLeft s <=? 0 end
  || notNull (selectedOption s)
  || isTransitioning s
  || isNull (problem s).

(** One run of the countdown effect after a render in which one of its
    dependencies changed: the cleanup of the previous run clears the timer,
    then the body schedules a new one unless it returns early. *)
Definition timerEffect (p : Props) (s : Session) : Session :=
  let s := setTimerRef None s in
  if timerIdle p s then s else setTimerRef (Some (timeLeft s)) s.

(** The test in the callback of the 1-second timer: [mountedRef.current],
    and in OppositesGame also [timeLeft > 0] on the [timeLeft] of the render
    that scheduled the timer. *)
Definition timerRuns (p : Props) (closureTimeLeft : Z) (s : Session) : bool :=
  match game p with
  | OppositesGame => mountedRef s && (0 <? closureTimeLeft)
  | _ => mountedRef s
  end.

(** The callback of the 1-second timer. *)
Definition timerCallback (p : Props) (closureTimeLeft : Z) (s : Session) : Session :=
  if timerRuns p closureTimeLeft s then setTimeLeft (timeLeft s - 1) s else s.

(** The timeout effect returns early when this holds. *)
Definition timeoutIdle (s : Session) : bool :=
  negb (mountedRef s)
  || isNull (problem s)
  || (0 <? timeLeft s)
  || notNull (selectedOption s)
  || isTransitioning s.

(** The body of the timeout effect.  The boolean tells whether the run
    scheduled the completion timer and returned a cleanup. *)
Definition timeoutEffect (s : Session) : Session * bool :=
  if timeoutIdle s then (s, false)
  else
    match problem s with
    | None => (s, false)
    | Some pr =>
        (setCompletionRef (Some (score s, false))
           (lockAnswer (answer pr) false (score s) s), true)
    end.

(** The render that follows a state change, with its effects.  The
    timeout effect sets [selectedOption] and [isTransitioning], which are
    among its own dependencies: when it fires, the component renders again,
    the cleanup that the firing run returned is executed (it clears
    [completionRef.current], the timer just scheduled) and both effects run
    again.  Nothing renders after unmount. *)
Definition commit (p : Props) (s : Session) : Session :=
  if negb (mountedRef s) then s
  else
    let s1 := timerEffect p s in
    let '(s2, fired) := timeoutEffect s1 in
    if fired then
      let s3 := timerEffect p s2 in
      let s4 := setCompletionRef None s3 in
      fst (timeoutEffect s4)
    else s2.

(** The guard of [handleOptionSelect]: the call returns at once. *)
Definition selectIgnored (s : Session) : bool :=
  notNull (selectedOption s) || negb (gameInitialized s)
  || isTransitioning s || isNull (problem s).

(** [handleOptionSelect(option)] *)
Definition handleOptionSelect (p : Props) (opt : Value) (s : Session) : Session :=
  if selectIgnored s then s
  else
    match problem s with
    | None => s
    | Some pr =>
        let correct := bool_decide (opt = answer pr) in
        let pointsEarned :=
          if correct then pointsFor (game p) (timeLeft s) (difficulty p) else 0 in
        let newScore := if correct then score s + pointsEarned else score s in
        setCompletionRef (Some (newScore, correct)) (lockAnswer opt correct newScore s)
    end.

(** The callback of the 3-second timer: [if (mountedRef.current)
    onComplete(points, correct)]. *)
Definition completionCallback (points : Z) (correct : bool) (s : Session) : Session :=
  if mountedRef s then logCompletion points correct s else s.

(** The cleanup of the mount effect, together with the cleanup of the
    countdown effect that React runs at unmount. *)
Definition unmount (s : Session) : Session :=
  mkSession (gameInitialized s) (problem s) (options s) (selectedOption s) (isCorrect s)
    (timeLeft s) (score s) (showExplanation s) (imageLoaded s) (imageError s)
    (isTransitioning s) false None None (completed s).

(** What can happen to a mounted session.  [StaleTimer] and
    [StaleCompletion] are timer callbacks that run although their timer
    was cleared (a callback that was already dispatched when the cleanup
    ran). *)
Inductive Event :=
| Select (opt : Value)
| TimerFires
| CompletionFires
| Unmount
| StaleTimer (closureTimeLeft : Z)
| StaleCompletion (points : Z) (correct : bool).

(** A handler or callback that sets no state causes no render. *)
Definition step (p : Props) (s : Session) (e : Event) : Session :=
  match e with
  | Select opt => if selectIgnored s then s else commit p (handleOptionSelect p opt s)
  | TimerFires =>
      match timerRef s with
      | Some t =>
          let s' := setTimerRef None s in
          if timerRuns p t s' then commit p (timerCallback p t s') else s'
      | None => s
      end
  | CompletionFires =>
      match completionRef s with
      | Some (points, correct) => completionCallback points correct (setCompletionRef None s)
      | None => s
      end
  | Unmount => unmount s
  | StaleTimer t => if timerRuns p t s then commit p (timerCallback p t s) else s
  | StaleCompletion points correct => completionCallback points correct s
  end.

Definition run (p : Props) (s : Session) (es : list Event) : Session :=
  fold_left (step p) es s.

(** Mounting: the effects first run on the initial state (both return
    early), the mount effect calls [initializeGame], and the state it sets
    is rendered. *)
Definition mount (p : Props) (gen : Generation) : Session :=
  commit p (initializeGame p gen (initialSession p)).

(** What the component renders: the "Loading game..." placeholder, or the
    question with its options. *)
Inductive View := Loading | Question (pr : Problem) (opts : list Value).

Definition render (s : Session) : View :=
  match problem s with
  | Some pr => if gameInitialized s then Question pr (options s) else Loading
  | None => Loading
  end.

(** Active: the question [pr] is shown with [t] seconds left, nothing is
    selected, and the countdown timer is pending.  [sc] is the accumulated
    score and [lg] the calls of [onComplete] so far. *)
Definition ticking (pr : Problem) (t sc : Z) (lg : list (Z * bool)) (s : Session) : Prop :=
  gameInitialized s = true /\ problem s = Some pr /\ selectedOption s = None
  /\ isTransitioning s = false /\ mountedRef s = true
  /\ timeLeft s = t /\ 0 < t /\ timerRef s = Some t
  /\ completionRef s = None /\ score s = sc /\ completed s = lg.

(** Locked by timeout: the correct answer is filled in and marked wrong,
    the clock is at 0 and no timer is pending. *)
Definition timedOut (pr : Problem) (sc : Z) (lg : list (Z * bool)) (s : Session) : Prop :=
  gameInitialized s = true /\ problem s = Some pr
  /\ selectedOption s = Some (answer pr) /\ isCorrect s = Some false
  /\ isTransitioning s = true /\ mountedRef s = true
  /\ timeLeft s = 0 /\ timerRef s = None
  /\ completionRef s = None /\ score s = sc /\ completed s = lg.

(** The events of a live session: clicks and timers that fire. *)
Definition ordinary (e : Event) : Prop :=
  match e with Select _ | TimerFires | CompletionFires => True | _ => False end.

End RoundSession.

(* ===================================================================== *)
(** ** Session orchestrator (App, GamesContainer) *)
(* ===================================================================== *)

Module App.

Record Player := mkPlayer {
  name : string;
  age : Z;
  grade : string;
  score : Z;
  level : Z;
  correctAnswers : Z
}.

Inductive GameState :=
| selection | opposites | multiplication | animals | wordmath | results.

Record GameSettings := mkSettings { timerDuration : Z; totalRounds : Z; difficulty : Z }.

(** The state hooks of [App] that the turn logic reads or writes.  The
    entries of [players] are the player objects themselves: every updater
    copies the array ([[...prevPlayers]]) and then mutates the object at an
    index in place, so the object at index [i] is the same one in every
    array that a render or a closure holds. *)
Record State := mkState {
  gameState : GameState;
  currentPlayerIndex : nat;
  players : list Player;
  roundsPlayed : Z;
  gameSettings : GameSettings;
  showLevelUp : option nat;
  error : option string
}.

Definition defaultPlayers : list Player :=
  [ mkPlayer "Alex (Pre-K)" 5 "Pre-K" 0 1 0; mkPlayer "Player 2" 7 "1st Grade" 0 1 0 ].

Definition defaultSettings : GameSettings := mkSettings 20 10 1.

(** The initial values of the state hooks. *)
Definition initialState : State :=
  mkState selection 0 defaultPlayers 0 defaultSettings None None.

(** [selectGameForPlayer(player)]: the value it passes to [setGameState]. *)
Definition selectGameForPlayer (player : Player) (random : Rand) : GameState :=
  if age player <? 6 then (if gtHalf random then opposites else animals)
  else (if gtHalf random then multiplication else wordmath).

(** [startGame(customPlayers, settings)].  [selectGameForPlayer] is called
    on [customPlayers[currentPlayerIndex]] with the index of the render
    that created the handler; an access to a missing player throws and the
    catch block sets the error (the setters that ran before stay queued). *)
Definition startGame (customPlayers : list Player) (settings : GameSettings)
  (random : Rand) (st : State) : State :=
  match customPlayers !! 0%nat, customPlayers !! 1%nat with
  | Some p0, Some p1 =>
      let first := if age p0 <=? age p1 then 0%nat else 1%nat in
      match customPlayers !! currentPlayerIndex st with
      | Some player =>
          mkState (selectGameForPlayer player random) first customPlayers 0 settings
            (showLevelUp st) None
      | None =>
          mkState (gameState st) first customPlayers (roundsPlayed st) settings
            (showLevelUp st) (Some "Failed to start game. Please try again.")
      end
  | _, _ =>
      mkState (gameState st) (currentPlayerIndex st) customPlayers (roundsPlayed st) settings
        (showLevelUp st) (Some "Failed to start game. Please try again.")
  end.

(** The updater that [updatePlayerScore] passes to [setPlayers]. *)
Definition scoreUpdater (index : nat) (points : Z) (isCorrect : bool)
  (prevPlayers : list Player) : list Player :=
  match prevPlayers !! index with
  | Some pl =>
      <[index := mkPlayer (name pl) (age pl) (grade pl) (score pl + points) (level pl)
                   (if isCorrect then correctAnswers pl + 1 else correctAnswers pl)]>
        prevPlayers
  | None => prevPlayers
  end.

(** The updater that [checkForLevelUp] passes to [setPlayers]. *)
Definition levelUpdater (index : nat) (prevPlayers : list Player) : list Player :=
  match prevPlayers !! index with
  | Some pl =>
      <[index := mkPlayer (name pl) (age pl) (grade pl) (score pl) (level pl + 1)
                   (correctAnswers pl)]>
        prevPlayers
  | None => prevPlayers
  end.

(** The test of [checkForLevelUp(index)], on the player objects as the
    handler reads them through [players[index]]. *)
Definition checkForLevelUp (visible : list Player) (index : nat) : bool :=
  match visible !! index with
  | Some player =>
      let levelThreshold := level player * 5 in
      (levelThreshold <=? correctAnswers player) && (level player <? 10)
  | None => false
  end.

(** When React runs an updater passed to [setPlayers].  [Eager]: at once,
    inside the [setPlayers] call; React does so for the first update of a
    component that has no pending work, which is the case when the
    completion timer of a mounted game calls [onComplete] (the game has
    rendered since the last update of [App]).  The updater mutates the
    player object, so the rest of the handler reads the incremented
    counters.  [Queued]: at the next render, after the handler has
    returned; this is what happens to a call of [updatePlayerScore] that
    follows another one before [App] has rendered. *)
Inductive Scheduling := Queued | Eager.

(** [updatePlayerScore(points, isCorrect)] followed by the render that
    applies the queued updaters in order. *)
Definition updatePlayerScore (sch : Scheduling) (points : Z) (isCorrect : bool)
  (st : State) : State :=
  let index := currentPlayerIndex st in
  let updater := scoreUpdater index points isCorrect in
  let visible := match sch with Eager => updater (players st) | Queued => players st end in
  let levelUp := isCorrect && checkForLevelUp visible index in
  let updated := updater (players st) in
  mkState (gameState st) index
    (if levelUp then levelUpdater index updated else updated)
    (roundsPlayed st) (gameSettings st)
    (if levelUp then Some index else showLevelUp st) (error st).

(** [nextTurn()].  [closure] is the state of the render that created the
    handler: the test reads [roundsPlayed] and [gameSettings] from it. *)
Definition nextTurn (closure st : State) : State :=
  mkState
    (if totalRounds (gameSettings closure) <=? roundsPlayed closure + 1
     then results else gameState st)
    (if Nat.eqb (currentPlayerIndex st) 0 then 1%nat else 0%nat)
    (players st) (roundsPlayed st + 1) (gameSettings st) (showLevelUp st) (error st).

(** The [onComplete] that [App] passes to [GamesContainer]:
    [updatePlayerScore(points, isCorrect); nextTurn()]. *)
Definition onComplete (sch : Scheduling) (points : Z) (isCorrect : bool) (st : State) : State :=
  nextTurn st (updatePlayerScore sch points isCorrect st).

(** [resetGame()] *)
Definition resetGame (st : State) : State :=
  mkState selection 0 defaultPlayers 0 (gameSettings st) (showLevelUp st) None.

(** A round completion reported by a round session, with the way React
    schedules the first [setPlayers] of the handler. *)
Record Completion := mkCompletion { sched : Scheduling; points : Z; correct : bool }.

Definition complete (st : State) (c : Completion) : State :=
  onComplete (sched c) (points c) (correct c) st.

(** The state after the given round completions. *)
Definition play (st : State) (cs : list Completion) : State := fold_left complete cs st.

(** A match that has started: [startGame] succeeded. *)
Definition started (customPlayers : list Player) (settings : GameSettings)
  (random : Rand) : State :=
  startGame customPlayers settings random initialState.

(** GamesContainer: [difficulty={player.level}] with
    [player={players[currentPlayerIndex]}], for the four game states. *)
Definition difficultyProp (st : State) : option Z :=
  match gameState st with
  | opposites | multiplication | animals | wordmath =>
      match players st !! currentPlayerIndex st with
      | Some player => Some (level player)
      | None => None
      end
  | selection | results => None
  end.

(** The games of an age bracket. *)
Definition gameFitsAge (g : GameState) (a : Z) : bool :=
  if a <? 6
  then match g with opposites | animals => true | _ => false end
  else match g with multiplication | wordmath => true | _ => false end.

Definition levelsWithin (lo hi : Z) (ps : list Player) : Prop :=
  Forall (fun pl => lo <= level pl <= hi) ps.

(** The level and the number of correct answers of a player. *)
Definition levelAndCount (st : State) (index : nat) : option (Z * Z) :=
  match players st !! index with
  | Some pl => Some (level pl, correctAnswers pl)
  | None => None
  end.

(** [n] rounds that are all answered correctly for 10 points. *)
Definition correctRounds (sch : Scheduling) (n : nat) : list Completion :=
  repeat (mkCompletion sch 10 true) n.

(** The age of the player whose turn it is. *)
Definition currentAge (st : State) : option Z :=
  match players st !! currentPlayerIndex st with
  | Some pl => Some (age pl)
  | None => None
  end.

End App.

(* ===================================================================== *)
(** ** Question pools of AnimalGame and OppositesGame *)
(* ===================================================================== *)

(** [l.slice(start, end)]: a negative index counts from the end of the
    array and both indices are clamped to the array. *)
Definition sliceIndex (len i : Z) : Z := if i <? 0 then Z.max (len + i) 0 else Z.min i len.

Definition jsSlice {A} (l : list A) (start stop : Z) : list A :=
  let len := Z.of_nat (length l) in
  let from := sliceIndex len start in
  let to := sliceIndex len stop in
  take (Z.to_nat (to - from)) (drop (Z.to_nat from) l).

(** The sign of [0.5 - Math.random()], as a comparator result. *)
Definition halfMinus (r : Rand) : comparison := rden r ?= 2 * Z.of_N (rnum r).

(** [l.sort(() => 0.5 - Math.random())] on an array of any type, with the
    same model of the engine's sort as [sortRandom]: an insertion sort that
    draws one number per comparison. *)
Fixpoint insertBy {A} (cmp : Rand -> comparison) (x : A) (sorted : list A) (rs : list Rand)
  : option (list A * list Rand) :=
  match sorted with
  | [] => Some ([x], rs)
  | y :: ys =>
      match rs with
      | [] => None
      | r :: rs' =>
          match cmp r with
          | Lt => Some (x :: y :: ys, rs')
          | _ => match insertBy cmp x ys rs' with
                 | Some (l, rs'') => Some (y :: l, rs'')
                 | None => None
                 end
          end
      end
  end.

Fixpoint sortBy {A} (cmp : Rand -> comparison) (l : list A) (rs : list Rand)
  : option (list A * list Rand) :=
  match l with
  | [] => Some ([], rs)
  | x :: l' =>
      match sortBy cmp l' rs with
      | Some (sorted, rs') => insertBy cmp x sorted rs'
      | None => None
      end
  end.

(** [pool[Math.floor(Math.random() * pool.length)]]; [None] is
    [undefined]. *)
Definition pickRandom {A} (pool : list A) (r : Rand) : option A :=
  pool !! Z.to_nat (floorTimes r (Z.of_nat (length pool))).

(** What [initializeGame] of AnimalGame and OppositesGame builds from the
    keys of the other entries (already filtered and mapped) and the correct
    answer: [[...others.sort(shuffle).slice(0, 3), correctAnswer].sort(shuffle)]. *)
Definition shuffleOptions (others : list string) (correctAnswer : string) (rs : list Rand)
  : option (list string * list Rand) :=
  match sortBy halfMinus others rs with
  | Some (shuffled, rs') => sortBy halfMinus (jsSlice shuffled 0 3 ++ [correctAnswer]) rs'
  | None => None
  end.

Module AnimalPool.

Record Entry := mkEntry { name : string; prompt : string }.

(** [animals] *)
Definition animals : list Entry :=
  [ mkEntry "dog" "cute cartoon dog, friendly, simple, pre-k educational";
    mkEntry "cat" "cute cartoon cat, friendly, simple, pre-k educational";
    mkEntry "elephant" "cute cartoon elephant, friendly, simple, pre-k educational";
    mkEntry "lion" "cute cartoon lion, friendly, simple, pre-k educational";
    mkEntry "giraffe" "cute cartoon giraffe, friendly, simple, pre-k educational";
    mkEntry "monkey" "cute cartoon monkey, friendly, simple, pre-k educational";
    mkEntry "zebra" "cute cartoon zebra, friendly, simple, pre-k educational";
    mkEntry "bear" "cute cartoon bear, friendly, simple, pre-k educational";
    mkEntry "tiger" "cute cartoon tiger, friendly, simple, pre-k educational";
    mkEntry "panda" "cute cartoon panda, friendly, simple, pre-k educational";
    mkEntry "penguin" "cute cartoon penguin, friendly, simple, pre-k educational";
    mkEntry "fox" "cute cartoon fox, friendly, simple, pre-k educational";
    mkEntry "koala" "cute cartoon koala, friendly, simple, pre-k educational";
    mkEntry "kangaroo" "cute cartoon kangaroo, friendly, simple, pre-k educational";
    mkEntry "hippo" "cute cartoon hippo, friendly, simple, pre-k educational" ].

(** [getAnimalsForDifficulty(difficulty)] *)
Definition getAnimalsForDifficulty (difficulty : Z) : list Entry :=
  let baseCount := Z.min (5 + difficulty * 2) (Z.of_nat (length animals)) in
  jsSlice animals 0 baseCount.

(** [availableAnimals.filter(animal => animal.name !== correctAnswer)
      .map(animal => animal.name)] *)
Definition otherNames (available : list Entry) (correctAnswer : string) : list string :=
  map name (filter (fun animal => name animal <> correctAnswer) available).

(** The try block of [initializeGame] up to the setters: the animal that
    [getRandomAnimal] picks and the four options.  [ProblemThrows] is the
    [TypeError] of [newAnimal.name] on an empty pool; [None] means that the
    draws ran out. *)
Definition generate (difficulty : Z) (rs : list Rand) : option RoundSession.Generation :=
  match rs with
  | [] => None
  | r :: rs' =>
      let available := getAnimalsForDifficulty difficulty in
      match pickRandom available r with
      | None => Some RoundSession.ProblemThrows
      | Some newAnimal =>
          let correctAnswer := name newAnimal in
          match shuffleOptions (otherNames available correctAnswer) correctAnswer rs' with
          | Some (allOptions, _) =>
              Some (RoundSession.Generated (Animal correctAnswer) (map VStr allOptions))
          | None => None
          end
      end
  end.

(** [generatePreloadQueue()]: three calls of [getRandomAnimal]. *)
Definition generatePreloadQueue (available : list Entry) (r1 r2 r3 : Rand)
  : list (option Entry) :=
  [pickRandom available r1; pickRandom available r2; pickRandom available r3].

End AnimalPool.

Module OppositesPool.

Record Pair := mkPair { word : string; opposite : string; prompt : string }.

(** [oppositesPairs] *)
Definition oppositesPairs : list Pair :=
  [ mkPair "big" "small" "A large elephant next to a tiny mouse, cartoon style";
    mkPair "hot" "cold"
      "A steaming cup on one side and an ice cube on the other side, cartoon style";
    mkPair "up" "down" "An arrow pointing up and an arrow pointing down, cartoon style";
    mkPair "fast" "slow" "A racing car next to a slowly moving turtle, cartoon style";
    mkPair "day" "night" "Sunny day sky next to starry night sky, cartoon style";
    mkPair "happy" "sad"
      "Happy smiling face next to sad crying face, cartoon style for children";
    mkPair "old" "new" "An old worn teddy bear next to a brand new teddy bear, cartoon style";
    mkPair "clean" "dirty" "Clean sparkling plate next to dirty messy plate, cartoon style";
    mkPair "open" "closed" "Open door next to closed door, cartoon style for children";
    mkPair "on" "off" "Light switch on and off positions, cartoon style";
    mkPair "high" "low" "Bird flying high in sky and rabbit low on ground, cartoon style";
    mkPair "wet" "dry" "Wet dripping sponge and dry sponge, cartoon style";
    mkPair "light" "heavy" "Light feather and heavy rock, cartoon style";
    mkPair "empty" "full" "Empty glass and full glass of juice, cartoon style";
    mkPair "awake" "asleep" "Child wide awake and child sleeping, cartoon style" ].

(** [getPairsForDifficulty(difficulty)]; the slice starts at 0, not at
    [startIndex]. *)
Definition getPairsForDifficulty (difficulty : Z) : list Pair :=
  let len := Z.of_nat (length oppositesPairs) in
  let startIndex := Z.min ((difficulty - 1) * 3) (len - 5) in
  let endIndex := Z.min (startIndex + 10) len in
  jsSlice oppositesPairs 0 endIndex.

(** [availablePairs.filter(pair => pair.opposite !== correctAnswer)
      .map(pair => pair.opposite)] *)
Definition otherOpposites (available : list Pair) (correctAnswer : string) : list string :=
  map opposite (filter (fun pair => opposite pair <> correctAnswer) available).

(** The try block of [initializeGame] up to the setters. *)
Definition generate (difficulty : Z) (rs : list Rand) : option RoundSession.Generation :=
  match rs with
  | [] => None
  | r :: rs' =>
      let available := getPairsForDifficulty difficulty in
      match pickRandom available r with
      | None => Some RoundSession.ProblemThrows
      | Some newPair =>
          let correctAnswer := opposite newPair in
          match shuffleOptions (otherOpposites available correctAnswer) correctAnswer rs' with
          | Some (allOptions, _) =>
              Some (RoundSession.Generated (OppositesPair (word newPair) correctAnswer)
                      (map VStr allOptions))
          | None => None
          end
      end
  end.

End OppositesPool.

(** The four options of a question, as [initializeGame] of AnimalGame and
    OppositesGame leaves them: four distinct values, the correct answer
    among them. *)
Definition fourWithAnswer (pr : Problem) (opts : list Value) : Prop :=
  length opts = 4%nat /\ NoDup opts /\ answer pr ∈ opts.

(** The four game components. *)
Definition allGames : list Variant := [OppositesGame; MultiplicationGame; AnimalGame; WordMathGame].

(* ===================================================================== *)
(** ** The life of a mounted game component *)
(* ===================================================================== *)

(** The events that reach a component in the browser: clicks, pending
    timers that fire and the unmount, but no callback of a timer that was
    cleared. *)
Definition delivered (e : RoundSession.Event) : Prop :=
  match e with
  | RoundSession.StaleTimer _ | RoundSession.StaleCompletion _ _ => False
  | _ => True
  end.

(** [initializeGame] is a [useCallback] whose dependencies are
    [difficulty, timerDuration] in MultiplicationGame and WordMathGame,
    [availableAnimals, timerDuration, getRandomAnimal, generatePreloadQueue]
    in AnimalGame and [availablePairs, timerDuration] in OppositesGame.  The
    pool is the [current] of a ref that is filled in the first render, and
    the two other callbacks of AnimalGame depend on the pool only.  After a
    render with the props [p], a render with the props [p'] gets a new
    [initializeGame] exactly when this holds. *)
Definition reinitializes (p p' : RoundSession.Props) : bool :=
  negb (RoundSession.timerDuration p' =? RoundSession.timerDuration p)
  || match RoundSession.game p with
     | MultiplicationGame | WordMathGame =>
         negb (RoundSession.difficulty p' =? RoundSession.difficulty p)
     | AnimalGame | OppositesGame => false
     end.

(** The cleanup of the mount effect ([mountedRef.current = false], both
    timers cleared) followed by the first statement of its body
    ([mountedRef.current = true]). *)
Definition restartMountEffect (s : RoundSession.Session) : RoundSession.Session :=
  RoundSession.mkSession (RoundSession.gameInitialized s) (RoundSession.problem s)
    (RoundSession.options s) (RoundSession.selectedOption s) (RoundSession.isCorrect s)
    (RoundSession.timeLeft s) (RoundSession.score s) (RoundSession.showExplanation s)
    (RoundSession.imageLoaded s) (RoundSession.imageError s) (RoundSession.isTransitioning s)
    true None None (RoundSession.completed s).

(** A render of the mounted component with new props from the parent.
    [App] passes a new [onComplete] in each of its renders, so the timeout
    effect runs after every such render, on the state of that render.  The
    mount effect, whose only dependency is [initializeGame], runs when
    [reinitializes] holds: its cleanup, then [mountedRef.current = true;
    initializeGame()].  [newProblem] and [newOptions] are what the try
    block of that call generates; a call whose try block throws is not
    covered.  The state updates of both effects are applied in the next
    render, those of the timeout effect last; that render runs the effects
    of [commit], after the cleanup of a timeout effect that fired. *)
Definition rerender (p p' : RoundSession.Props) (newProblem : Problem)
  (newOptions : list Value) (s : RoundSession.Session) : RoundSession.Session :=
  if negb (RoundSession.mountedRef s) then s
  else
    let reinit := reinitializes p p' in
    let s1 := if reinit
              then RoundSession.initializeGame p'
                     (RoundSession.Generated newProblem newOptions) (restartMountEffect s)
              else s in
    if RoundSession.timeoutIdle s then (if reinit then RoundSession.commit p' s1 else s)
    else
      match RoundSession.problem s with
      | Some shown =>
          RoundSession.commit p'
            (RoundSession.setCompletionRef None
               (RoundSession.lockAnswer (answer shown) false (RoundSession.score s1) s1))
      | None => s
      end.

(** What happens to a mounted component: an event, or a render with a new
    [timerDuration] and [difficulty] from the parent. *)
Inductive LifeStep :=
| Happens (e : RoundSession.Event)
| Renders (timerDuration' difficulty' : Z) (newProblem : Problem) (newOptions : list Value).

Definition lifeStep (ps : RoundSession.Props * RoundSession.Session) (x : LifeStep)
  : RoundSession.Props * RoundSession.Session :=
  let '(p, s) := ps in
  match x with
  | Happens e => (p, RoundSession.step p s e)
  | Renders timerDuration' difficulty' newProblem newOptions =>
      let p' := RoundSession.mkProps (RoundSession.game p) timerDuration' difficulty' in
      (p', rerender p p' newProblem newOptions s)
  end.

Definition runLife (p : RoundSession.Props) (s : RoundSession.Session)
  (steps : list LifeStep) : RoundSession.Props * RoundSession.Session :=
  fold_left lifeStep steps (p, s).

(** The parent keeps the timer duration [t] in its renders (as [App] does
    during a match). *)
Definition keepsTimer (t : Z) (x : LifeStep) : Prop :=
  match x with
  | Renders timerDuration' _ _ _ => timerDuration' = t
  | Happens _ => True
  end.

(** What the component shows of the round: whether it is set up, the
    question and its options, the selection and its verdict, the score. *)
Definition board (s : RoundSession.Session)
  : bool * option Problem * list Value * option Value * option bool * Z :=
  (RoundSession.gameInitialized s, RoundSession.problem s, RoundSession.options s,
   RoundSession.selectedOption s, RoundSession.isCorrect s, RoundSession.score s).

(** As long as nothing is selected no completion timer is pending and
    nothing was reported; while a completion timer is pending nothing was
    reported; [onComplete] was called once at most. *)
Definition reportsOnce (s : RoundSession.Session) : Prop :=
  (RoundSession.selectedOption s = None ->
   RoundSession.completionRef s = None /\ RoundSession.completed s = [])
  /\ (RoundSession.completionRef s <> None -> RoundSession.completed s = [])
  /\ (length (RoundSession.completed s) <= 1)%nat.

(** The clock is between 0 and the timer duration, and a pending countdown
    timer was scheduled by the render of the current clock value (in
    OppositesGame possibly at 0, where its callback does nothing). *)
Definition clockInRange (p : RoundSession.Props) (s : RoundSession.Session) : Prop :=
  0 <= RoundSession.timeLeft s <= RoundSession.timerDuration p
  /\ forall t, RoundSession.timerRef s = Some t ->
       t = RoundSession.timeLeft s
       /\ (RoundSession.game p = OppositesGame \/ 0 < RoundSession.timeLeft s).

(* ===================================================================== *)
(** ** Bookkeeping of a match *)
(* ===================================================================== *)

(** The sum of the scores on the board, and of the points that the rounds
    reported. *)
Definition totalScore (ps : list App.Player) : Z :=
  fold_right (fun pl acc => App.score pl + acc) 0 ps.

Definition totalPoints (cs : list App.Completion) : Z :=
  fold_right (fun c acc => App.points c + acc) 0 cs.

(** The level of a player follows the count of correct answers: it is
    never ahead of one level per five correct answers, and below level 10
    it is at most one answer behind. *)
Definition levelTracksCount (pl : App.Player) : Prop :=
  1 <= App.level pl <= 10
  /\ (App.level pl - 1) * 5 <= App.correctAnswers pl
  /\ (App.level pl = 10 \/ App.correctAnswers pl <= App.level pl * 5).


(* ===================================================================== *)
(** ** Selection form (GameSelection) *)
(* ===================================================================== *)

Module GameSelection.

(** The state hooks of the form. *)
Record Form := mkForm { players : list App.Player; settings : App.GameSettings }.

(** The initial values of the hooks; [initialSettings] is the prop that
    [App] passes ([gameSettings]). *)
Definition initialForm (initialSettings : App.GameSettings) : Form :=
  mkForm [ App.mkPlayer "Alex (Pre-K)" 5 "Pre-K" 0 1 0;
           App.mkPlayer "1st Grade Player" 7 "1st Grade" 0 1 0 ]
    initialSettings.

(** [handleNameChange(index, name)]; [None] is the [TypeError] of
    [newPlayers[index].name = name] on a missing player. *)
Definition handleNameChange (index : nat) (name : string) (f : Form) : option Form :=
  match players f !! index with
  | Some pl =>
      Some (mkForm
              (<[index := App.mkPlayer name (App.age pl) (App.grade pl) (App.score pl)
                            (App.level pl) (App.correctAnswers pl)]> (players f))
              (settings f))
  | None => None
  end.

(** [handleTimerChange(seconds)] *)
Definition handleTimerChange (seconds : Z) (f : Form) : Form :=
  mkForm (players f)
    (App.mkSettings seconds (App.totalRounds (settings f)) (App.difficulty (settings f))).

(** [handleRoundsChange(rounds)] *)
Definition handleRoundsChange (rounds : Z) (f : Form) : Form :=
  mkForm (players f)
    (App.mkSettings (App.timerDuration (settings f)) rounds (App.difficulty (settings f))).

(** [handleDifficultyChange(difficulty)] *)
Definition handleDifficultyChange (difficulty : Z) (f : Form) : Form :=
  mkForm (players f)
    (App.mkSettings (App.timerDuration (settings f)) (App.totalRounds (settings f)) difficulty).

(** A change event of one of the inputs of the form. *)
Inductive Input :=
| NameField (index : nat) (text : string)
| TimerSlider (value : Z)
| RoundsSlider (value : Z)
| DifficultySlider (value : Z).

(** What the inputs deliver: there is a name field for each of the two
    players ([players.map]), and [min] and [max] of the range inputs are 5
    and 60 for the timer, 4 and 20 for the rounds, 1 and 5 for the
    difficulty. *)
Definition inRange (i : Input) : Prop :=
  match i with
  | NameField index _ => (index < 2)%nat
  | TimerSlider value => 5 <= value <= 60
  | RoundsSlider value => 4 <= value <= 20
  | DifficultySlider value => 1 <= value <= 5
  end.

(** The [onChange] handlers. *)
Definition change (f : Form) (i : Input) : option Form :=
  match i with
  | NameField index text => handleNameChange index text f
  | TimerSlider value => Some (handleTimerChange value f)
  | RoundsSlider value => Some (handleRoundsChange value f)
  | DifficultySlider value => Some (handleDifficultyChange value f)
  end.

Fixpoint edit (f : Form) (inputs : list Input) : option Form :=
  match inputs with
  | [] => Some f
  | i :: inputs' =>
      match change f i with
      | Some f' => edit f' inputs'
      | None => None
      end
  end.

(** The start button: [onStart(players, settings)], with [startGame] of
    [App] as [onStart]. *)
Definition start (f : Form) (random : Rand) (st : App.State) : App.State :=
  App.startGame (players f) (settings f) random st.

End GameSelection.

(** What every edit of the form keeps: the two players with their fixed
    ages, levels and counters, and a number of rounds that the slider (or
    the default) allows. *)
Definition formShape (f : GameSelection.Form) : Prop :=
  (exists name0 name1,
      GameSelection.players f
      = [ App.mkPlayer name0 5 "Pre-K" 0 1 0; App.mkPlayer name1 7 "1st Grade" 0 1 0 ])
  /\ 4 <= App.totalRounds (GameSelection.settings f) <= 20.

(** What the user interface of [App] lets happen: the start button of the
    form (rendered while the game state is selection; the form is mounted
    with the current [gameSettings] and has seen the given inputs), a round
    completion reported by the game component (rendered in the four game
    states), and the reset of "Play Again" and of the error boundary. *)
Module Ui.

Inductive Event :=
| StartPressed (inputs : list GameSelection.Input) (random : Rand)
| RoundCompleted (c : App.Completion)
| ResetPressed.

Definition inRange (e : Event) : Prop :=
  match e with
  | StartPressed inputs _ => Forall GameSelection.inRange inputs
  | _ => True
  end.

Definition step (st : App.State) (e : Event) : App.State :=
  match e with
  | StartPressed inputs random =>
      match App.gameState st with
      | App.selection =>
          match GameSelection.edit (GameSelection.initialForm (App.gameSettings st)) inputs with
          | Some f => GameSelection.start f random st
          | None => st
          end
      | _ => st
      end
  | RoundCompleted c =>
      match App.gameState st with
      | App.opposites | App.multiplication | App.animals | App.wordmath => App.complete st c
      | App.selection | App.results => st
      end
  | ResetPressed => App.resetGame st
  end.

Definition run (es : list Event) : App.State := fold_left step es App.initialState.

End Ui.

(** The state of a match that was started from the form: two players, the
    levels not ahead of the correct answers, and no more correct answers
    than turns played (the player whose turn it is has had half of the
    rounds played, rounded down). *)
Definition formMatch (st : App.State) : Prop :=
  exists cur oth,
    App.players st !! App.currentPlayerIndex st = Some cur
    /\ App.players st !! (1 - App.currentPlayerIndex st)%nat = Some oth
    /\ (App.currentPlayerIndex st <= 1)%nat
    /\ 0 <= App.roundsPlayed st
    /\ 1 <= App.level cur
    /\ (App.level cur - 1) * 5 <= App.correctAnswers cur
    /\ App.correctAnswers cur * 2 <= App.roundsPlayed st
    /\ 1 <= App.level oth
    /\ (App.level oth - 1) * 5 <= App.correctAnswers oth
    /\ App.correctAnswers oth * 2 <= App.roundsPlayed st + 1
    /\ (App.gameState st = App.results
        \/ App.roundsPlayed st < App.totalRounds (App.gameSettings st))
    /\ App.totalRounds (App.gameSettings st) <= 20
    /\ (App.gameState st = App.opposites \/ App.gameState st = App.animals
        \/ App.gameState st = App.results).

(** The states that the user interface reaches: the selection screen with
    the player index 0, or a match that was started from the form. *)
Definition uiReachable (st : App.State) : Prop :=
  4 <= App.totalRounds (App.gameSettings st) <= 20
  /\ ((App.gameState st = App.selection /\ App.currentPlayerIndex st = 0%nat)
      \/ formMatch st).

(* ===================================================================== *)
(** ** Folder names (repository structure script) *)
(* ===================================================================== *)

(** [tr 'A-Z' 'a-z'] and [tr ' ' '-'] on one byte. *)
Definition trLower (c : Ascii.ascii) : Ascii.ascii :=
  let n := Ascii.nat_of_ascii c in
  if ((65 <=? n) && (n <=? 90))%nat then Ascii.ascii_of_nat (n + 32) else c.

(** The bytes 32 (space) and 45 (dash). *)
Definition spaceChar : Ascii.ascii := Ascii.ascii_of_nat 32.
Definition dashChar : Ascii.ascii := Ascii.ascii_of_nat 45.

Definition trDash (c : Ascii.ascii) : Ascii.ascii :=
  if Ascii.eqb c spaceChar then dashChar else c.

Fixpoint tr (f : Ascii.ascii -> Ascii.ascii) (s : string) : string :=
  match s with
  | String.EmptyString => String.EmptyString
  | String.String c s' => String.String (f c) (tr f s')
  end.

(** [newdir=$(echo "$dir" | tr 'A-Z' 'a-z' | tr ' ' '-')] *)
Definition newdir (dir : string) : string := tr trDash (tr trLower dir).

(** The test [[ "$dir" != "$newdir" ]] that guards the [mv]. *)
Definition renames (dir : string) : bool := negb (String.eqb dir (newdir dir)).

(* ===================================================================== *)
(** * Properties of the option generator *)
(* ===================================================================== *)

Example generateOptions_run :
  generateOptions 12 1
    [randFor 0 6; randPlus; randFor 0 6; randPlus; randFor 2 6; randMinus;
     randFor 5 6; randPlus; zeroRand; randPlus; zeroRand; zeroRand; zeroRand; zeroRand]
  = Some [12; 9; 13; 18].
Proof. vm_compute. reflexivity. Qed.

Lemma includes_In (options : list Z) (x : Z) : includes options x = true <-> In x options.
Proof.
  unfold includes. rewrite existsb_exists. split.
  - intros (y & Hy & Heq). apply Z.eqb_eq in Heq. now subst.
  - intros Hx. exists x. split; [exact Hx | apply Z.eqb_refl].
Qed.

Lemma includes_false (options : list Z) (x : Z) : includes options x = false <-> ~ In x options.
Proof.
  rewrite <- includes_In. destruct (includes options x); split; intros; congruence.
Qed.

(** The loop takes its draws two at a time. *)
Lemma draws_pair_ind (P : list Rand -> Prop) :
  P [] -> (forall r, P [r]) -> (forall r1 r2 rs, P rs -> P (r1 :: r2 :: rs)) ->
  forall rs, P rs.
Proof.
  intros Hnil Hone Hstep.
  assert (H : forall rs, P rs /\ forall r, P (r :: rs)).
  { induction rs as [|r rs [IH1 IH2]]; split; auto. }
  intros rs. apply H.
Qed.

Section Collect.

Variables correctAnswer difficulty : Z.

Lemma wellFormed_push options w :
  wellFormed correctAnswer options -> (length options < 4)%nat -> 0 < w -> ~ In w options ->
  wellFormed correctAnswer (options ++ [w]).
Proof.
  intros (Hnd & Hpos & Hin & Hlen) Hlt Hw Hfresh. repeat split.
  - apply NoDup_app. repeat split; [exact Hnd | | apply NoDup_singleton].
    intros x Hx Hx'. apply list_elem_of_In in Hx. apply list_elem_of_singleton in Hx'.
    subst. contradiction.
  - apply Forall_app. split; [exact Hpos | constructor; [exact Hw | constructor]].
  - apply in_or_app. now left.
  - rewrite length_app. simpl. lia.
Qed.

Lemma collect_wellFormed rs :
  forall options out rest,
    wellFormed correctAnswer options ->
    collect correctAnswer difficulty options rs = Some (out, rest) ->
    wellFormed correctAnswer out /\ length out = 4%nat.
Proof.
  induction rs as [|r|r1 r2 rs IH] using draws_pair_ind; intros options out rest Hwf Hrun.
  - simpl in Hrun. destruct (Nat.ltb_spec (length options) 4); [discriminate |].
    injection Hrun as <- <-. split; [exact Hwf | destruct Hwf as (_ & _ & _ & ?); lia].
  - simpl in Hrun. destruct (Nat.ltb_spec (length options) 4); [discriminate |].
    injection Hrun as <- <-. split; [exact Hwf | destruct Hwf as (_ & _ & _ & ?); lia].
  - simpl in Hrun. destruct (Nat.ltb_spec (length options) 4) as [Hlt|Hge].
    + destruct (Z.ltb_spec 0 (wrongAnswerOf correctAnswer difficulty r1 r2)) as [Hpos|Hneg];
        simpl in Hrun.
      * destruct (includes options (wrongAnswerOf correctAnswer difficulty r1 r2)) eqn:Hinc;
          simpl in Hrun.
        -- eapply IH; eauto.
        -- eapply IH; [| exact Hrun]. apply wellFormed_push; auto.
           now apply includes_false.
      * eapply IH; eauto.
    + injection Hrun as <- <-. split; [exact Hwf | destruct Hwf as (_ & _ & _ & ?); lia].
Qed.

End Collect.

Lemma insertRandom_Permutation x :
  forall sorted rs out rest,
    insertRandom x sorted rs = Some (out, rest) -> Permutation (x :: sorted) out.
Proof.
  induction sorted as [|y ys IH]; intros rs out rest Hrun; simpl in Hrun.
  - injection Hrun as <- <-. reflexivity.
  - destruct rs as [|r rs']; [discriminate |].
    destruct (minusHalf r).
    + destruct (insertRandom x ys rs') as [[l rs'']|] eqn:Hins; [| discriminate].
      injection Hrun as <- <-. rewrite perm_swap. apply perm_skip. eapply IH; eauto.
    + injection Hrun as <- <-. reflexivity.
    + destruct (insertRandom x ys rs') as [[l rs'']|] eqn:Hins; [| discriminate].
      injection Hrun as <- <-. rewrite perm_swap. apply perm_skip. eapply IH; eauto.
Qed.

Lemma sortRandom_Permutation :
  forall l rs out rest, sortRandom l rs = Some (out, rest) -> Permutation l out.
Proof.
  induction l as [|x l IH]; intros rs out rest Hrun; simpl in Hrun.
  - injection Hrun as <- <-. reflexivity.
  - destruct (sortRandom l rs) as [[sorted rs']|] eqn:Hsort; [| discriminate].
    apply insertRandom_Permutation in Hrun. rewrite <- Hrun. apply perm_skip. eapply IH; eauto.
Qed.

(** What the array of options looks like when [generateOptions] returns. *)
Lemma generateOptions_wellFormed correctAnswer difficulty rs result :
  0 < correctAnswer ->
  generateOptions correctAnswer difficulty rs = Some result ->
  length result = 4%nat /\ NoDup result /\ Forall (fun x => 0 < x) result
  /\ In correctAnswer result.
Proof.
  intros Hc Hrun. unfold generateOptions in Hrun.
  destruct (collect correctAnswer difficulty [correctAnswer] rs) as [[options rs']|] eqn:Hloop;
    [| discriminate].
  destruct (sortRandom options rs') as [[shuffled rest]|] eqn:Hsort; [| discriminate].
  injection Hrun as <-.
  apply collect_wellFormed in Hloop.
  - destruct Hloop as ((Hnd & Hpos & Hin & _) & Hlen).
    apply sortRandom_Permutation in Hsort.
    repeat split.
    + rewrite <- Hsort. exact Hlen.
    + rewrite <- Hsort. exact Hnd.
    + rewrite <- Hsort. exact Hpos.
    + eapply Permutation_in; eauto.
  - repeat split.
    + apply NoDup_singleton.
    + constructor; [exact Hc | constructor].
    + now left.
    + simpl. lia.
Qed.

(** C1.  For every difficulty from 1 to 5 and every positive correct
    answer, whenever [generateOptions] returns, the result has exactly four
    entries, pairwise distinct and positive, and holds the correct answer
    exactly once: it is a rearrangement of the correct answer and three
    distinct positive decoys. *)
Theorem generateOptions_four_distinct correctAnswer difficulty rs result :
  0 < correctAnswer ->
  1 <= difficulty <= 5 ->
  generateOptions correctAnswer difficulty rs = Some result ->
  length result = 4%nat
  /\ NoDup result
  /\ Forall (fun x => 0 < x) result
  /\ count_occ Z.eq_dec result correctAnswer = 1%nat
  /\ exists decoys,
       Permutation result (correctAnswer :: decoys)
       /\ length decoys = 3%nat /\ NoDup decoys
       /\ Forall (fun x => 0 < x /\ x <> correctAnswer) decoys.
Proof.
  intros Hc _ Hrun.
  destruct (generateOptions_wellFormed _ _ _ _ Hc Hrun) as (Hlen & Hnd & Hpos & Hin).
  repeat split; try assumption.
  - apply NoDup_count_occ'; [apply NoDup_ListNoDup |]; assumption.
  - destruct (in_split _ _ Hin) as (l1 & l2 & ->).
    exists (l1 ++ l2).
    assert (Hperm : Permutation (l1 ++ correctAnswer :: l2) (correctAnswer :: l1 ++ l2))
      by (symmetry; apply Permutation_middle).
    rewrite Hperm in Hnd, Hpos.
    repeat split.
    + exact Hperm.
    + rewrite length_app in *. simpl in Hlen. lia.
    + apply NoDup_cons in Hnd. apply Hnd.
    + apply NoDup_cons in Hnd. destruct Hnd as [Hnotin _].
      apply Forall_cons in Hpos. destruct Hpos as [_ Hpos'].
      rewrite Forall_forall in *. intros x Hx. split.
      * apply Hpos'. assumption.
      * intros ->. apply Hnotin. assumption.
Qed.

Lemma generateOptions_four_distinct_witness :
  length [12; 9; 13; 18] = 4%nat
  /\ NoDup [12; 9; 13; 18]
  /\ Forall (fun x => 0 < x) [12; 9; 13; 18]
  /\ count_occ Z.eq_dec [12; 9; 13; 18] 12 = 1%nat
  /\ exists decoys,
       Permutation [12; 9; 13; 18] (12 :: decoys)
       /\ length decoys = 3%nat /\ NoDup decoys
       /\ Forall (fun x => 0 < x /\ x <> 12) decoys.
Proof.
  apply (generateOptions_four_distinct 12 1
           [randFor 0 6; randPlus; randFor 0 6; randPlus; randFor 2 6; randMinus;
            randFor 5 6; randPlus; zeroRand; randPlus; zeroRand; zeroRand; zeroRand;
            zeroRand]).
  - lia.
  - lia.
  - vm_compute. reflexivity.
Defined.

(** *** Termination of the loop *)

Lemma rden_pos (r : Rand) : 0 < rden r.
Proof. unfold rden. lia. Qed.

Lemma floorTimes_range (r : Rand) (n : Z) : 0 < n -> 0 <= floorTimes r n < n.
Proof.
  intros Hn. unfold floorTimes. pose proof (rden_pos r) as Hd. split.
  - apply Z.div_pos; [| exact Hd]. apply Z.mul_nonneg_nonneg; lia.
  - apply Z.div_lt_upper_bound; [exact Hd |]. unfold rden in *. nia.
Qed.

Lemma floorTimes_randFor (k n : Z) : 0 <= k < n -> floorTimes (randFor k n) n = k.
Proof.
  intros Hk. unfold floorTimes, rden, randFor. simpl.
  rewrite !Z2N.id by lia.
  replace (k + (n - k - 1) + 1) with n by lia.
  apply Z.div_mul. lia.
Qed.

Lemma drawOffset_range (difficulty : Z) (r : Rand) :
  1 <= drawOffset difficulty r <= 7 - Z.min difficulty 5.
Proof.
  unfold drawOffset.
  pose proof (floorTimes_range r (7 - Z.min difficulty 5)). lia.
Qed.

Lemma wrongAnswerOf_plus (c d k : Z) :
  0 <= k < 7 - Z.min d 5 ->
  wrongAnswerOf c d (randFor k (7 - Z.min d 5)) randPlus = c + (k + 1).
Proof.
  intros Hk. unfold wrongAnswerOf, drawOffset. rewrite floorTimes_randFor by exact Hk.
  change (drawSign randPlus) with 1. lia.
Qed.

Lemma wrongAnswerOf_minus (c d k : Z) :
  0 <= k < 7 - Z.min d 5 ->
  wrongAnswerOf c d (randFor k (7 - Z.min d 5)) randMinus = c - (k + 1).
Proof.
  intros Hk. unfold wrongAnswerOf, drawOffset. rewrite floorTimes_randFor by exact Hk.
  change (drawSign randMinus) with (-1). lia.
Qed.

Lemma collect_withinOffset (c d : Z) rs :
  forall options out rest,
    Forall (withinOffset c d) options ->
    collect c d options rs = Some (out, rest) ->
    Forall (withinOffset c d) out.
Proof.
  induction rs as [|r|r1 r2 rs IH] using draws_pair_ind; intros options out rest Hall Hrun;
    cbn [collect] in Hrun;
    (destruct (length options <? 4)%nat; [| injection Hrun as <- <-; exact Hall]);
    try discriminate.
  destruct ((0 <? wrongAnswerOf c d r1 r2) && negb (includes options (wrongAnswerOf c d r1 r2))).
  - eapply IH; [| exact Hrun]. apply Forall_app. split; [exact Hall |].
    constructor; [| constructor]. right.
    pose proof (drawOffset_range d r1) as Hoff.
    unfold wrongAnswerOf, drawSign. destruct (gtHalf r2); lia.
  - eapply IH; eauto.
Qed.

(** The decoys of a returned array lie within the offset range of the
    difficulty (1 to 6 at difficulty 1). *)
Lemma generateOptions_withinOffset (c d : Z) rs result :
  generateOptions c d rs = Some result -> Forall (withinOffset c d) result.
Proof.
  intros Hrun. unfold generateOptions in Hrun.
  destruct (collect c d [c] rs) as [[options rs']|] eqn:Hloop; [| discriminate].
  destruct (sortRandom options rs') as [[shuffled rest]|] eqn:Hsort; [| discriminate].
  injection Hrun as <-.
  apply sortRandom_Permutation in Hsort. rewrite <- Hsort.
  eapply collect_withinOffset; [| exact Hloop].
  constructor; [now left | constructor].
Qed.

(** [generateProblem] draws both operands from 1 to [min(10, 3 + difficulty)]:
    the correct answer is a positive integer. *)
Lemma generateProblem_answer (difficulty : Z) (r1 r2 : Rand) :
  1 <= difficulty ->
  exists num1 num2,
    generateProblem difficulty r1 r2 = MultiplicationProblem num1 num2
    /\ 1 <= num1 <= Z.min 10 (3 + difficulty)
    /\ 1 <= num2 <= Z.min 10 (3 + difficulty)
    /\ answer (generateProblem difficulty r1 r2) = VNum (num1 * num2)
    /\ 0 < num1 * num2.
Proof.
  intros Hd. unfold generateProblem.
  pose proof (floorTimes_range r1 (Z.min 10 (3 + difficulty)) ltac:(lia)) as H1.
  pose proof (floorTimes_range r2 (Z.min 10 (3 + difficulty)) ltac:(lia)) as H2.
  eexists _, _. split; [reflexivity |]. repeat split; try lia; nia.
Qed.

Lemma length_remove_NoDup (w : Z) (l : list Z) :
  List.NoDup l -> (length l <= S (length (remove Z.eq_dec w l)))%nat.
Proof.
  induction 1 as [|x l Hx Hnd IH]; simpl; [lia |].
  destruct (Z.eq_dec w x) as [->|Hne]; simpl.
  - rewrite notin_remove by exact Hx. lia.
  - lia.
Qed.

(** The loop exits as soon as the draws have produced enough distinct
    acceptable values: [pending] are values still to come that the loop
    will accept. *)
Lemma collect_exits (c d : Z) rs :
  forall options pending,
    List.NoDup pending ->
    (forall w, In w pending -> 0 < w /\ ~ In w options /\ In w (candidates c d rs)) ->
    (4 <= length options + length pending)%nat ->
    exists out, collect c d options rs = Some out.
Proof.
  induction rs as [|r|r1 r2 rs IH] using draws_pair_ind; intros options pending Hnd Hp Hlen.
  - assert (pending = []) as ->.
    { destruct pending as [|w ?]; [reflexivity |]. destruct (Hp w) as (_ & _ & []). now left. }
    simpl in *. destruct (Nat.ltb_spec (length options) 4); [lia | eauto].
  - assert (pending = []) as ->.
    { destruct pending as [|w ?]; [reflexivity |]. destruct (Hp w) as (_ & _ & []). now left. }
    simpl in *. destruct (Nat.ltb_spec (length options) 4); [lia | eauto].
  - simpl. destruct (Nat.ltb_spec (length options) 4) as [Hlt|Hge]; [| eauto].
    set (w0 := wrongAnswerOf c d r1 r2) in *.
    destruct (Z.ltb_spec 0 w0) as [Hpos|Hneg]; simpl.
    + destruct (includes options w0) eqn:Hinc; simpl.
      * apply includes_In in Hinc.
        apply (IH options pending Hnd); [| exact Hlen].
        intros w Hw. destruct (Hp w Hw) as (Hwpos & Hwfresh & Hwin).
        repeat split; try assumption.
        simpl in Hwin. fold w0 in Hwin. destruct Hwin as [<-|Hwin]; [contradiction | exact Hwin].
      * apply includes_false in Hinc.
        apply (IH (options ++ [w0]) (remove Z.eq_dec w0 pending)).
        -- clear -Hnd. induction Hnd as [|x l Hx Hnd IHl]; simpl; [constructor |].
           destruct (Z.eq_dec w0 x); [exact IHl |].
           constructor; [| exact IHl]. intros Hin. apply in_remove in Hin. tauto.
        -- intros w Hw. apply in_remove in Hw. destruct Hw as [Hw Hne].
           destruct (Hp w Hw) as (Hwpos & Hwfresh & Hwin).
           repeat split; try assumption.
           ++ intros Hin. apply in_app_or in Hin. destruct Hin as [Hin|[Heq|[]]]; congruence.
           ++ simpl in Hwin. fold w0 in Hwin. destruct Hwin as [Heq|Hwin]; congruence.
        -- pose proof (length_remove_NoDup w0 pending Hnd). rewrite length_app. simpl. lia.
    + apply (IH options pending Hnd); [| exact Hlen].
      intros w Hw. destruct (Hp w Hw) as (Hwpos & Hwfresh & Hwin).
      repeat split; try assumption.
      simpl in Hwin. fold w0 in Hwin. destruct Hwin as [Heq|Hwin]; [lia | exact Hwin].
Qed.

Lemma threeAcceptable_exits (c d : Z) rs :
  threeAcceptable c (candidates c d rs) -> loopExits c d rs.
Proof.
  intros (w1 & w2 & w3 & H12 & H13 & H23 & Hall).
  apply (collect_exits c d rs [c] [w1; w2; w3]).
  - repeat constructor; simpl; intuition congruence.
  - intros w Hw. rewrite Forall_forall in Hall.
    apply list_elem_of_In in Hw. destruct (Hall w Hw) as ((Hpos & Hne) & Hin).
    repeat split; try assumption. simpl. intros [Heq|[]]. congruence.
  - simpl. lia.
Qed.

(** Three acceptable decoys can be drawn, except for the answer 1 at
    difficulty 5. *)
Lemma threeAcceptable_exist (c d : Z) :
  0 < c -> 1 <= d <= 5 -> 2 <= c \/ d <= 4 ->
  exists rs, threeAcceptable c (candidates c d rs).
Proof.
  intros Hc Hd Hcase.
  destruct (Z_le_gt_dec d 4) as [Hd4|Hd5].
  - exists [randFor 0 (7 - Z.min d 5); randPlus; randFor 1 (7 - Z.min d 5); randPlus;
            randFor 2 (7 - Z.min d 5); randPlus].
    exists (c + 1), (c + 2), (c + 3). simpl.
    rewrite !wrongAnswerOf_plus by lia.
    repeat split; try lia.
    repeat constructor; unfold acceptable; simpl; try lia;
      (replace (c + (0 + 1)) with (c + 1) by lia; replace (c + (1 + 1)) with (c + 2) by lia;
       replace (c + (2 + 1)) with (c + 3) by lia; tauto).
  - exists [randFor 0 (7 - Z.min d 5); randPlus; randFor 1 (7 - Z.min d 5); randPlus;
            randFor 0 (7 - Z.min d 5); randMinus].
    exists (c + 1), (c + 2), (c - 1). simpl.
    rewrite !wrongAnswerOf_plus, wrongAnswerOf_minus by lia.
    repeat split; try lia.
    repeat constructor; unfold acceptable; simpl; try lia;
      (replace (c + (0 + 1)) with (c + 1) by lia; replace (c + (1 + 1)) with (c + 2) by lia;
       replace (c - (0 + 1)) with (c - 1) by lia; tauto).
Qed.

(** Draws that are left over do not change what the loop does. *)
Lemma collect_app (c d : Z) rs :
  forall options out rest more,
    collect c d options rs = Some (out, rest) ->
    collect c d options (rs ++ more) = Some (out, rest ++ more).
Proof.
  induction rs as [|r|r1 r2 rs IH] using draws_pair_ind; intros options out rest more Hrun.
  - cbn [collect] in Hrun. destruct (length options <? 4)%nat eqn:Hlen; [discriminate |].
    injection Hrun as <- <-. cbn [app]. destruct more as [|m1 [|m2 more]]; cbn [collect];
      now rewrite Hlen.
  - cbn [collect] in Hrun. destruct (length options <? 4)%nat eqn:Hlen; [discriminate |].
    injection Hrun as <- <-. cbn [app]. destruct more as [|m1 more]; cbn [collect];
      now rewrite Hlen.
  - cbn [app collect] in *. destruct (length options <? 4)%nat.
    + destruct ((0 <? wrongAnswerOf c d r1 r2)
                && negb (includes options (wrongAnswerOf c d r1 r2))); now apply IH.
    + now injection Hrun as <- <-.
Qed.

(** The shuffle returns when it has a draw for every comparison. *)
Lemma insertRandom_total (x : Z) :
  forall sorted rs,
    (length sorted <= length rs)%nat ->
    exists out rest,
      insertRandom x sorted rs = Some (out, rest)
      /\ length out = S (length sorted)
      /\ (length rs <= length rest + length sorted)%nat.
Proof.
  induction sorted as [|y ys IH]; intros rs Hlen; cbn [insertRandom].
  - exists [x], rs. repeat split. simpl. lia.
  - destruct rs as [|r rs']; [simpl in Hlen; lia |].
    destruct (IH rs' ltac:(simpl in Hlen; lia)) as (out & rest & Hins & Hout & Hrest).
    rewrite Hins.
    destruct (minusHalf r); eexists _, _; (split; [reflexivity |]); simpl; lia.
Qed.

Lemma sortRandom_total :
  forall l rs,
    (length l * length l <= length rs)%nat ->
    exists out rest,
      sortRandom l rs = Some (out, rest)
      /\ length out = length l
      /\ (length rs <= length rest + length l * length l)%nat.
Proof.
  induction l as [|x l IH]; intros rs Hlen; cbn [sortRandom].
  - exists [], rs. repeat split. simpl. lia.
  - destruct (IH rs ltac:(simpl in Hlen; lia)) as (sorted & rs' & Hsort & Hlen' & Hrest).
    rewrite Hsort.
    destruct (insertRandom_total x sorted rs' ltac:(simpl in Hlen; lia))
      as (out & rest & Hins & Hout & Hrest').
    exists out, rest. split; [exact Hins |]. simpl. lia.
Qed.

(** When the loop has exited, [generateOptions] returns, given draws for
    the comparisons of the shuffle. *)
Lemma generateOptions_returns (c d : Z) rs :
  0 < c -> loopExits c d rs ->
  exists result, generateOptions c d (rs ++ repeat zeroRand 16) = Some result.
Proof.
  intros Hc ((out & rest) & Hloop).
  assert (Hwf : wellFormed c [c]).
  { repeat split; [apply NoDup_singleton | constructor; [exact Hc | constructor]
                  | now left | simpl; lia]. }
  destruct (collect_wellFormed c d rs [c] out rest Hwf Hloop) as [_ Hlen].
  unfold generateOptions. rewrite (collect_app c d rs [c] out rest _ Hloop).
  destruct (sortRandom_total out (rest ++ repeat zeroRand 16)) as (res & rest' & Hsort & _).
  { rewrite Hlen, length_app, repeat_length. simpl. lia. }
  rewrite Hsort. eauto.
Qed.

Lemma prefix_constant (r : Rand) (n : nat) : prefix (fun _ => r) n = repeat r n.
Proof.
  unfold prefix. generalize 0%nat. induction n as [|n IH]; intros k; simpl; [reflexivity |].
  now rewrite IH.
Qed.

(** With [Math.random()] stuck at 0 the loop draws 9 over and over. *)
Lemma collect_zero_draws_second rs :
  Forall (eq zeroRand) rs -> collect 10 1 [10; 9] rs = None.
Proof.
  induction rs as [|r|r1 r2 rs IH] using draws_pair_ind; intros Hall; try reflexivity.
  apply Forall_cons in Hall. destruct Hall as [<- Hall].
  apply Forall_cons in Hall. destruct Hall as [<- Hall].
  change (collect 10 1 [10; 9] (zeroRand :: zeroRand :: rs)) with (collect 10 1 [10; 9] rs).
  now apply IH.
Qed.

Lemma collect_zero_draws (n : nat) : collect 10 1 [10] (repeat zeroRand n) = None.
Proof.
  destruct n as [|[|n]]; try reflexivity.
  change (collect 10 1 [10] (repeat zeroRand (S (S n))))
    with (collect 10 1 [10; 9] (repeat zeroRand n)).
  apply collect_zero_draws_second. apply Forall_forall. intros r Hr.
  apply list_elem_of_In, repeat_spec in Hr. now subst.
Qed.

(** For the answer 1 at difficulty 5 the only positive candidates are 2
    and 3: the array never reaches four entries, whatever is drawn. *)
Lemma collect_stuck_1_5_gen rs :
  forall options,
    List.NoDup options -> incl options [1; 2; 3] -> collect 1 5 options rs = None.
Proof.
  induction rs as [|r|r1 r2 rs IH] using draws_pair_ind; intros options Hnd Hincl;
    pose proof (NoDup_incl_length Hnd Hincl) as Hlen; simpl in Hlen; cbn [collect];
    (destruct (Nat.ltb_spec (length options) 4); [| lia]); try reflexivity.
  set (w0 := wrongAnswerOf 1 5 r1 r2).
  destruct (Z.ltb_spec 0 w0) as [Hpos|Hneg]; cbn [andb]; [| now apply IH].
  destruct (includes options w0) eqn:Hinc; cbn [negb]; [now apply IH |].
  apply includes_false in Hinc. apply IH.
  - apply NoDup_ListNoDup, NoDup_app. repeat split.
    + now apply NoDup_ListNoDup.
    + intros x Hx Hx'. apply list_elem_of_singleton in Hx'. apply list_elem_of_In in Hx.
      congruence.
    + apply NoDup_singleton.
  - intros x Hx. apply in_app_or in Hx. destruct Hx as [Hx|[<-|[]]]; [now apply Hincl |].
    pose proof (drawOffset_range 5 r1) as Hoff. simpl in Hoff.
    unfold w0, wrongAnswerOf, drawSign in *. simpl.
    destruct (gtHalf r2); lia.
Qed.

Lemma collect_stuck_1_5 rs : ~ loopExits 1 5 rs.
Proof.
  intros (out & Hout). rewrite collect_stuck_1_5_gen in Hout; [discriminate | |].
  - repeat constructor; simpl; tauto.
  - intros x [<-|[]]. now left.
Qed.

(** C2, as stated, fails: the loop does not exit on every sequence of
    draws.  For the answer 10 at difficulty 1 and [Math.random()] returning
    0 forever, every iteration computes 9; and for the answer 1 at
    difficulty 5 there are no three acceptable values, so the loop exits on
    no sequence of draws at all. *)
Lemma collect_not_total :
  (forall n, ~ loopExits 10 1 (prefix (fun _ => zeroRand) n))
  /\ (forall rs, ~ loopExits 1 5 rs)
  /\ ~ (forall c d, 0 < c -> 1 <= d <= 5 ->
          forall s : nat -> Rand, exists n, loopExits c d (prefix s n)).
Proof.
  assert (Hzero : forall n, ~ loopExits 10 1 (prefix (fun _ => zeroRand) n)).
  { intros n (out & Hout). rewrite prefix_constant, collect_zero_draws in Hout. discriminate. }
  split; [exact Hzero |]. split; [exact collect_stuck_1_5 |].
  intros Hall.
  destruct (Hall 10 1 ltac:(lia) ltac:(lia) (fun _ => zeroRand)) as (n & Hn).
  exact (Hzero n Hn).
Qed.

(** C2, amended.  For every positive correct answer and every difficulty
    from 1 to 5, except the answer 1 at difficulty 5: three distinct
    acceptable decoys can be drawn, and the loop exits on every sequence of
    draws among whose candidates three distinct acceptable values occur. *)
Theorem collect_exits_on_fair_draws (c d : Z) :
  0 < c -> 1 <= d <= 5 -> 2 <= c \/ d <= 4 ->
  (exists rs, threeAcceptable c (candidates c d rs))
  /\ (forall s : nat -> Rand,
        (exists n, threeAcceptable c (candidates c d (prefix s n))) ->
        exists n, loopExits c d (prefix s n)).
Proof.
  intros Hc Hd Hcase. split.
  - now apply threeAcceptable_exist.
  - intros s (n & Hn). exists n. now apply threeAcceptable_exits.
Qed.

Lemma collect_exits_on_fair_draws_witness :
  (exists rs, threeAcceptable 12 (candidates 12 1 rs))
  /\ (forall s : nat -> Rand,
        (exists n, threeAcceptable 12 (candidates 12 1 (prefix s n))) ->
        exists n, loopExits 12 1 (prefix s n)).
Proof.
  apply (collect_exits_on_fair_draws 12 1).
  - lia.
  - lia.
  - left. lia.
Defined.

(* ===================================================================== *)
(** * Properties of the score formula *)
(* ===================================================================== *)

Lemma grid_spec (f : Z -> Z -> bool) (tmax dmax : nat) :
  grid f tmax dmax = true ->
  forall t d, 1 <= t <= Z.of_nat tmax -> 1 <= d <= Z.of_nat dmax -> f t d = true.
Proof.
  unfold grid. intros Hgrid t d Ht Hd.
  rewrite forallb_forall in Hgrid.
  specialize (Hgrid (Z.to_nat t)). rewrite forallb_forall in Hgrid.
  specialize (Hgrid ltac:(apply in_seq; lia) (Z.to_nat d) ltac:(apply in_seq; lia)).
  now rewrite !Z2Nat.id in Hgrid by lia.
Qed.

(** The binary64 model computes what the primitive binary64 numbers
    compute, for both factors, on every clock value up to 600 seconds and
    every difficulty up to 12. *)
Lemma floorScaled_agrees_with_primitive_floats (t d : Z) :
  1 <= t <= 600 -> 1 <= d <= 12 ->
  floorScaled Double.half t d = floorScaledPrim Double.prim_half t d
  /\ floorScaled Double.three_tenths t d = floorScaledPrim Double.prim_three_tenths t d.
Proof.
  intros Ht Hd.
  assert (Hgrid : grid (fun t d =>
            (floorScaled Double.half t d =? floorScaledPrim Double.prim_half t d)
            && (floorScaled Double.three_tenths t d
                =? floorScaledPrim Double.prim_three_tenths t d)) 600 12 = true)
    by (vm_compute; reflexivity).
  pose proof (grid_spec _ _ _ Hgrid t d ltac:(simpl; lia) ltac:(simpl; lia)) as H.
  apply andb_true_iff in H. destruct H as [H1 H2].
  split; now apply Z.eqb_eq.
Qed.

Lemma round53_small (n e : Z) : n < 2 ^ 53 -> Double.round53 n e = (n, e).
Proof.
  intros Hn. unfold Double.round53. destruct (Z.ltb_spec n (2 ^ 53)); [reflexivity | lia].
Qed.

Lemma of_Z_small (n : Z) : 0 <= n < 2 ^ 53 -> Double.of_Z n = Double.mk false n 0.
Proof.
  intros Hn. unfold Double.of_Z. rewrite Z.abs_eq by lia.
  rewrite round53_small by lia. destruct (Z.ltb_spec n 0); [lia | reflexivity].
Qed.

(** Multiplying by 0.5 is exact: the factor 0.5 gives the floor of half the
    product. *)
Lemma floorScaled_half (t d : Z) :
  0 < t -> 0 < d -> t * d < 2 ^ 53 -> floorScaled Double.half t d = (t * d) / 2.
Proof.
  intros Ht Hd Hprod.
  assert (t < 2 ^ 53 /\ d < 2 ^ 53) as [Ht' Hd'] by nia.
  unfold floorScaled. rewrite !of_Z_small by lia.
  unfold Double.mul at 2. cbn [Double.mant Double.expo Double.neg Double.half].
  rewrite round53_small by lia.
  unfold Double.mul. cbn [Double.mant Double.expo Double.neg].
  rewrite round53_small by lia.
  unfold Double.floor. cbn [Double.mant Double.expo Double.neg xorb].
  replace (t * (d * 1)) with (t * d) by lia. reflexivity.
Qed.

Lemma specPoints_half (t d : Z) : specPoints (1 # 2) t d = Z.max 1 ((t * d) / 2).
Proof.
  unfold specPoints, Qfloor, Qmult, inject_Z. cbn [Qnum Qden].
  f_equal. f_equal; lia.
Qed.

Lemma specPoints_three_tenths (t d : Z) : specPoints (3 # 10) t d = Z.max 1 ((3 * t * d) / 10).
Proof.
  unfold specPoints, Qfloor, Qmult, inject_Z. cbn [Qnum Qden].
  f_equal. f_equal; lia.
Qed.

(** With the factor 0.5 the code computes the spec's rule. *)
Lemma pointsFor_half (g : Variant) (t d : Z) :
  g = MultiplicationGame \/ g = WordMathGame ->
  0 < t -> 0 < d -> t * d < 2 ^ 53 ->
  pointsFor g t d = specPoints (specFactor g) t d.
Proof.
  intros Hg Ht Hd Hprod.
  assert (scoreFactor g = Double.half /\ specFactor g = 1 # 2) as [Hk Hq]
    by (destruct Hg as [-> | ->]; split; reflexivity).
  unfold pointsFor. rewrite Hk, Hq, specPoints_half, floorScaled_half by assumption.
  reflexivity.
Qed.

(** With the factor 0.3 the two products are rounded.  Up to 600 seconds
    and difficulty 10 the result is the spec's value when [t * d] is not a
    multiple of 10, and the spec's value or one less when it is. *)
Lemma floorScaled_three_tenths_bounded (t d : Z) :
  1 <= t <= 600 -> 1 <= d <= 10 ->
  let exact := (3 * t * d) / 10 in
  let code := floorScaled Double.three_tenths t d in
  (Z.rem (t * d) 10 <> 0 -> code = exact) /\ (code = exact \/ code = exact - 1).
Proof.
  intros Ht Hd.
  assert (Hgrid : grid (fun t d =>
            let exact := (3 * t * d) / 10 in
            let code := floorScaled Double.three_tenths t d in
            ((Z.rem (t * d) 10 =? 0) || (code =? exact))
            && ((code =? exact) || (code =? exact - 1))) 600 10 = true)
    by (vm_compute; reflexivity).
  pose proof (grid_spec _ _ _ Hgrid t d ltac:(simpl; lia) ltac:(simpl; lia)) as H.
  cbv zeta in H. apply andb_true_iff in H. destruct H as [H1 H2].
  apply orb_true_iff in H1, H2. rewrite !Z.eqb_eq in H1, H2.
  cbv zeta. split; [| exact H2]. intros Hrem. destruct H1; [contradiction | assumption].
Qed.

(** The points of the games with the factor 0.3 are the spec's, or one
    less when [t * d] is a multiple of 10 and the rounded product falls
    just below the integer. *)
Lemma pointsFor_three_tenths_bounded (g : Variant) (t d : Z) :
  g = OppositesGame \/ g = AnimalGame ->
  1 <= t <= 600 -> 1 <= d <= 10 ->
  (Z.rem (t * d) 10 <> 0 -> pointsFor g t d = specPoints (specFactor g) t d)
  /\ (pointsFor g t d = specPoints (specFactor g) t d
      \/ pointsFor g t d = specPoints (specFactor g) t d - 1).
Proof.
  intros Hg Ht Hd.
  assert (scoreFactor g = Double.three_tenths /\ specFactor g = 3 # 10) as [Hk Hq]
    by (destruct Hg as [-> | ->]; split; reflexivity).
  unfold pointsFor. rewrite Hk, Hq, specPoints_three_tenths.
  destruct (floorScaled_three_tenths_bounded t d Ht Hd) as [Hexact Hnear].
  cbv zeta in Hexact, Hnear. split.
  - intros Hrem. now rewrite Hexact.
  - destruct Hnear as [-> | ->]; [now left |].
    assert (0 <= 3 * t * d / 10) by (apply Z.div_pos; nia). lia.
Qed.

Example pointsFor_15_2 : pointsFor MultiplicationGame 15 2 = 15.
Proof. vm_compute. reflexivity. Qed.

(** On the primitive binary64 numbers: [3 * 0.3] is below 0.9, and
    [30 * (3 * 0.3)] is below 27. *)
Example primitive_30_3 :
  PrimFloat.ltb (3 * Double.prim_three_tenths) 0x1.ccccccccccccdp-1 = true
  /\ PrimFloat.ltb (30 * (3 * Double.prim_three_tenths)) 27 = true
  /\ floorScaledPrim Double.prim_three_tenths 30 3 = 26.
Proof. repeat split; vm_compute; reflexivity. Qed.

Example pointsFor_animals_30_3 :
  pointsFor AnimalGame 30 3 = 26 /\ specPoints (specFactor AnimalGame) 30 3 = 27.
Proof. split; vm_compute; reflexivity. Qed.

(* ===================================================================== *)
(** * Properties of the round session *)
(* ===================================================================== *)

Module RoundSessionFacts.
Import RoundSession.

(** Reduce the projections of a state that is written with setters. *)
Ltac fields :=
  cbn [gameInitialized problem options selectedOption isCorrect timeLeft score
       showExplanation imageLoaded imageError isTransitioning mountedRef timerRef
       completionRef completed setTimeLeft setTimerRef setCompletionRef setProblem
       lockAnswer logCompletion unmount notNull isNull negb andb orb fst snd] in *.

Lemma timerEffect_idle (p : Props) (s : Session) :
  timerIdle p s = true -> timerEffect p s = setTimerRef None s.
Proof.
  intros Hidle. unfold timerEffect.
  change (timerIdle p (setTimerRef None s)) with (timerIdle p s). now rewrite Hidle.
Qed.

Lemma timerEffect_busy (p : Props) (s : Session) :
  timerIdle p s = false ->
  timerEffect p s = setTimerRef (Some (timeLeft s)) (setTimerRef None s).
Proof.
  intros Hidle. unfold timerEffect.
  change (timerIdle p (setTimerRef None s)) with (timerIdle p s). now rewrite Hidle.
Qed.

Lemma timeoutIdle_timerEffect (p : Props) (s : Session) :
  timeoutIdle (timerEffect p s) = timeoutIdle s.
Proof.
  unfold timerEffect.
  change (timerIdle p (setTimerRef None s)) with (timerIdle p s).
  destruct (timerIdle p s); reflexivity.
Qed.

Lemma problem_timerEffect (p : Props) (s : Session) : problem (timerEffect p s) = problem s.
Proof.
  unfold timerEffect.
  change (timerIdle p (setTimerRef None s)) with (timerIdle p s).
  destruct (timerIdle p s); reflexivity.
Qed.

Lemma score_timerEffect (p : Props) (s : Session) : score (timerEffect p s) = score s.
Proof.
  unfold timerEffect.
  change (timerIdle p (setTimerRef None s)) with (timerIdle p s).
  destruct (timerIdle p s); reflexivity.
Qed.

(** A render after which the timeout effect returns early. *)
Lemma commit_no_timeout (p : Props) (s : Session) :
  mountedRef s = true -> timeoutIdle s = true -> commit p s = timerEffect p s.
Proof.
  intros Hm Hidle. unfold commit, timeoutEffect.
  rewrite Hm, timeoutIdle_timerEffect, Hidle. reflexivity.
Qed.

(** A state with a selection keeps both effects idle. *)
Lemma timerIdle_selected (p : Props) (s : Session) :
  notNull (selectedOption s) = true -> timerIdle p s = true.
Proof.
  intros Hsel. unfold timerIdle. rewrite Hsel. now rewrite orb_true_r.
Qed.

Lemma timeoutIdle_selected (s : Session) :
  notNull (selectedOption s) = true -> timeoutIdle s = true.
Proof.
  intros Hsel. unfold timeoutIdle. rewrite Hsel. now rewrite orb_true_r.
Qed.

(** A render in which the timeout effect fires: the second render runs the
    cleanup of the firing run, which clears the completion timer. *)
Lemma commit_timeout (p : Props) (s : Session) (pr : Problem) :
  mountedRef s = true -> timeoutIdle s = false -> problem s = Some pr ->
  commit p s
  = setCompletionRef None
      (setTimerRef None
         (setCompletionRef (Some (score s, false))
            (lockAnswer (answer pr) false (score s) s))).
Proof.
  intros Hm Hidle Hpr. unfold commit, timeoutEffect.
  rewrite Hm, timeoutIdle_timerEffect, Hidle, problem_timerEffect, Hpr, score_timerEffect.
  cbn [negb].
  rewrite timerEffect_idle by (apply timerIdle_selected; reflexivity).
  rewrite timeoutIdle_selected by reflexivity.
  unfold timerEffect. change (timerIdle p (setTimerRef None s)) with (timerIdle p s).
  destruct (timerIdle p s); reflexivity.
Qed.

(** The guards of an active session with [t > 0] seconds left. *)
Lemma active_guards (p : Props) (s : Session) (pr : Problem) :
  gameInitialized s = true -> problem s = Some pr -> selectedOption s = None ->
  isTransitioning s = false -> mountedRef s = true -> 0 < timeLeft s ->
  timerIdle p s = false /\ timeoutIdle s = true /\ selectIgnored s = false.
Proof.
  intros Hinit Hpr Hsel Htr Hm Hpos.
  unfold timerIdle, timeoutIdle, selectIgnored.
  rewrite Hinit, Hpr, Hsel, Htr, Hm. fields.
  assert (E1 : (timeLeft s <=? 0) = false) by (apply Z.leb_gt; lia).
  assert (E2 : (0 <? timeLeft s) = true) by (apply Z.ltb_lt; lia).
  rewrite E1, E2. destruct (game p); repeat split; reflexivity.
Qed.

Lemma mount_ticking (p : Props) (pr : Problem) (opts : list Value) :
  1 <= timerDuration p ->
  ticking pr (timerDuration p) 0 [] (mount p (Generated pr opts)).
Proof.
  intros HT. unfold mount.
  change (initializeGame p (Generated pr opts) (initialSession p))
    with (mkSession true (Some pr) opts None None (timerDuration p) 0
            false false false false true None None []).
  set (s := mkSession _ _ _ _ _ _ _ _ _ _ _ _ _ _ _).
  destruct (active_guards p s pr) as (Htimer & Htimeout & _);
    try reflexivity; [subst s; fields; lia |].
  rewrite commit_no_timeout, timerEffect_busy by (assumption || reflexivity).
  subst s. unfold ticking. fields. repeat split; try reflexivity; lia.
Qed.

Lemma timerRuns_mounted (p : Props) (t : Z) (s : Session) :
  mountedRef s = true -> 0 < t -> timerRuns p t s = true.
Proof.
  intros Hm Ht. unfold timerRuns. rewrite Hm.
  destruct (game p); try reflexivity. cbn [andb]. apply Z.ltb_lt. exact Ht.
Qed.

(** One tick of an active session that has more than a second left. *)
Lemma tick_ticking (p : Props) pr t sc lg s :
  ticking pr t sc lg s -> 1 < t -> ticking pr (t - 1) sc lg (step p s TimerFires).
Proof.
  intros (Hinit & Hpr & Hsel & Htr & Hm & Ht & Hpos & Href & Hc & Hsc & Hlg) Hlt.
  cbn [step]. rewrite Href, timerRuns_mounted by assumption.
  unfold timerCallback. rewrite timerRuns_mounted by assumption.
  set (s1 := setTimeLeft _ _).
  destruct (active_guards p s1 pr) as (Htimer & Htimeout & _);
    try (subst s1; fields; assumption); [subst s1; fields; lia |].
  rewrite commit_no_timeout, timerEffect_busy by (assumption || (subst s1; assumption)).
  subst s1. unfold ticking. fields. rewrite Ht. repeat split; try assumption; lia.
Qed.

(** The last tick: the timeout effect locks the session, and the render
    that its own state change causes clears the completion timer. *)
Lemma tick_timedOut (p : Props) pr sc lg s :
  ticking pr 1 sc lg s -> timedOut pr sc lg (step p s TimerFires).
Proof.
  intros (Hinit & Hpr & Hsel & Htr & Hm & Ht & Hpos & Href & Hc & Hsc & Hlg).
  cbn [step]. rewrite Href, timerRuns_mounted by assumption.
  unfold timerCallback. rewrite timerRuns_mounted by assumption.
  set (s1 := setTimeLeft _ _).
  assert (Hidle : timeoutIdle s1 = false).
  { unfold timeoutIdle. subst s1. fields. rewrite Hm, Hpr, Hsel, Htr, Ht. reflexivity. }
  rewrite (commit_timeout p s1 pr) by (assumption || (subst s1; assumption)).
  subst s1. unfold timedOut. fields. rewrite Ht. repeat split; try assumption; reflexivity.
Qed.

Lemma run_app (p : Props) (s : Session) (es1 es2 : list Event) :
  run p s (es1 ++ es2) = run p (run p s es1) es2.
Proof. unfold run. apply fold_left_app. Qed.

Lemma ticks_ticking (p : Props) pr sc lg (k : nat) :
  forall t s,
    ticking pr t sc lg s -> Z.of_nat k < t ->
    ticking pr (t - Z.of_nat k) sc lg (run p s (repeat TimerFires k)).
Proof.
  induction k as [|k IH]; intros t s Hs Hk.
  - cbn [repeat run fold_left Z.of_nat]. rewrite Z.sub_0_r. exact Hs.
  - cbn [repeat run fold_left].
    replace (t - Z.of_nat (S k)) with ((t - 1) - Z.of_nat k) by lia.
    apply IH; [| lia]. apply tick_ticking; [exact Hs | lia].
Qed.

(** A session that timed out ignores clicks, and none of its timers is
    pending. *)
Lemma timedOut_step (p : Props) pr sc lg s e :
  timedOut pr sc lg s -> ordinary e -> step p s e = s.
Proof.
  intros (Hinit & Hpr & Hsel & Hcor & Htr & Hm & Ht & Href & Hc & Hsc & Hlg) He.
  destruct e; try contradiction; cbn [step].
  - unfold selectIgnored. now rewrite Hsel.
  - now rewrite Href.
  - now rewrite Hc.
Qed.

Lemma timedOut_run (p : Props) pr sc lg s es :
  timedOut pr sc lg s -> Forall ordinary es -> run p s es = s.
Proof.
  intros Hs Hes. induction Hes as [|e es He _ IH]; [reflexivity |].
  cbn [run fold_left]. rewrite (timedOut_step p pr sc lg s e Hs He). exact IH.
Qed.

Lemma timeout_after_ticks (p : Props) pr sc lg t s :
  ticking pr t sc lg s -> timedOut pr sc lg (run p s (repeat TimerFires (Z.to_nat t))).
Proof.
  intros Hs. assert (Hpos : 0 < t) by (destruct Hs as (_ & _ & _ & _ & _ & _ & ? & _); assumption).
  replace (Z.to_nat t) with (Z.to_nat (t - 1) + 1)%nat by lia.
  rewrite repeat_app, run_app. cbn [repeat run fold_left].
  apply tick_timedOut.
  replace 1 with (t - Z.of_nat (Z.to_nat (t - 1))) at 1 by lia.
  apply ticks_ticking; [exact Hs | lia].
Qed.

(** A click on an active session, followed by the 3-second timer. *)
Lemma select_then_complete (p : Props) pr t sc lg s opt :
  ticking pr t sc lg s ->
  let correct := bool_decide (opt = answer pr) in
  let newScore := if correct then sc + pointsFor (game p) t (difficulty p) else sc in
  let s' := run p s [Select opt; CompletionFires] in
  completed s' = (newScore, correct) :: lg
  /\ selectedOption s' = Some opt /\ isCorrect s' = Some correct
  /\ timerRef s' = None /\ completionRef s' = None.
Proof.
  intros (Hinit & Hpr & Hsel & Htr & Hm & Ht & Hpos & Href & Hc & Hsc & Hlg).
  intros correct newScore.
  assert (Hpos' : 0 < timeLeft s) by lia.
  destruct (active_guards p s pr Hinit Hpr Hsel Htr Hm Hpos') as (_ & Htimeout & Hguard).
  unfold run. cbn [fold_left step]. rewrite Hguard.
  unfold handleOptionSelect. rewrite Hguard, Hpr, Ht, Hsc.
  fold correct.
  set (s1 := setCompletionRef _ _).
  assert (Hm1 : mountedRef s1 = true) by exact Hm.
  rewrite commit_no_timeout
    by (try exact Hm1; apply timeoutIdle_selected; reflexivity).
  rewrite timerEffect_idle by (apply timerIdle_selected; reflexivity).
  subst s1. fields. unfold completionCallback. fields. rewrite Hm. fields.
  rewrite Hlg. subst newScore. destruct correct; repeat split; reflexivity.
Qed.

(** The completion timer of a timeout is cleared by the cleanup of the run
    that scheduled it: after a timeout [onComplete] is not called. *)
Lemma timeout_reports_nothing (p : Props) (pr : Problem) (opts : list Value) (es : list Event) :
  1 <= timerDuration p -> Forall ordinary es ->
  completed (run p (mount p (Generated pr opts))
               (repeat TimerFires (Z.to_nat (timerDuration p)) ++ es)) = [].
Proof.
  intros HT Hes. rewrite run_app.
  pose proof (timeout_after_ticks p pr 0 [] _ _ (mount_ticking p pr opts HT)) as Hout.
  rewrite (timedOut_run p pr 0 [] _ es Hout Hes).
  destruct Hout as (_ & _ & _ & _ & _ & _ & _ & _ & _ & _ & Hlg). exact Hlg.
Qed.

(** *** Scoring (C3) *)

(** C3, as stated, fails for the factor 0.3: an animal round with
    difficulty 3 that is answered correctly with 30 seconds left reports 26
    points, and the spec's rule gives 27. *)
Lemma animal_points_differ_from_spec :
  let p := mkProps AnimalGame 30 3 in
  let s := run p (mount p (Generated (Animal "dog")
                             [VStr "cat"; VStr "dog"; VStr "lion"; VStr "bear"]))
             [Select (VStr "dog"); CompletionFires] in
  completed s = [(26, true)] /\ specPoints (specFactor AnimalGame) 30 3 = 27.
Proof. split; vm_compute; reflexivity. Qed.

(** C3, amended.  In a session that is mounted with [timerDuration >= 1]
    and in which the player picks an option after [k] ticks, with
    [t = timerDuration - k] seconds left, the completion callback reports
    [Math.max(1, Math.floor(t * (difficulty * factor)))] points, evaluated
    in double precision, for the correct option and 0 for a wrong one.  With
    the factor 0.5 (multiplication, word math) this is the spec's
    [max(1, floor(t * difficulty * 0.5))]; with the factor 0.3 (opposites,
    animals) the two products are rounded, and (up to 600 seconds and
    difficulty 10) the result is the spec's value when [t * difficulty] is
    not a multiple of 10 and the spec's value or one less when it is.  A
    round that times out awards no points, and difficulty 2 with 15 seconds
    left gives 15 points in the multiplication game. *)
Theorem points_reported (p : Props) (pr : Problem) (opts : list Value) (k : nat) (opt : Value) :
  1 <= timerDuration p ->
  Z.of_nat k < timerDuration p ->
  let t := timerDuration p - Z.of_nat k in
  let d := difficulty p in
  let correct := bool_decide (opt = answer pr) in
  let s0 := mount p (Generated pr opts) in
  completed (run p s0 (repeat TimerFires k ++ [Select opt; CompletionFires]))
  = [(if correct then pointsFor (game p) t d else 0, correct)]
  /\ (game p = MultiplicationGame \/ game p = WordMathGame ->
      0 < d -> t * d < 2 ^ 53 ->
      pointsFor (game p) t d = specPoints (specFactor (game p)) t d)
  /\ (game p = OppositesGame \/ game p = AnimalGame ->
      pointsFor (game p) t d = Z.max 1 (floorScaled Double.three_tenths t d)
      /\ (t <= 600 -> 1 <= d <= 10 ->
          (Z.rem (t * d) 10 <> 0 ->
           pointsFor (game p) t d = specPoints (specFactor (game p)) t d)
          /\ (pointsFor (game p) t d = specPoints (specFactor (game p)) t d
              \/ pointsFor (game p) t d = specPoints (specFactor (game p)) t d - 1)))
  /\ (forall es, Forall ordinary es ->
      completed (run p s0 (repeat TimerFires (Z.to_nat (timerDuration p)) ++ es)) = [])
  /\ pointsFor MultiplicationGame 15 2 = 15.
Proof.
  intros HT Hk t d correct s0. split; [| split; [| split; [| split]]].
  - rewrite run_app.
    pose proof (ticks_ticking p pr 0 [] k _ _ (mount_ticking p pr opts HT) Hk) as Htick.
    destruct (select_then_complete p pr _ 0 [] _ opt Htick) as (Hlog & _).
    subst s0. rewrite Hlog. fold t d correct.
    destruct correct; reflexivity.
  - intros Hg Hd Hprod. apply pointsFor_half; try assumption. unfold t. lia.
  - intros Hg. split.
    + destruct Hg as [Hg | Hg]; unfold pointsFor; rewrite Hg; reflexivity.
    + intros Ht Hd. apply pointsFor_three_tenths_bounded; try assumption. unfold t. lia.
  - intros es Hes. now apply timeout_reports_nothing.
  - vm_compute. reflexivity.
Qed.

Lemma points_reported_witness :
  let p := mkProps MultiplicationGame 20 2 in
  let s0 := mount p (Generated (MultiplicationProblem 3 4) [VNum 12; VNum 9; VNum 13; VNum 18]) in
  completed (run p s0 (repeat TimerFires 5 ++ [Select (VNum 12); CompletionFires]))
  = [(15, true)].
Proof.
  exact (proj1 (points_reported (mkProps MultiplicationGame 20 2) (MultiplicationProblem 3 4)
                  [VNum 12; VNum 9; VNum 13; VNum 18] 5 (VNum 12)
                  ltac:(simpl; lia) ltac:(simpl; lia))).
Defined.

(** *** First selection wins (C4) *)

(** C4.  Once [selectedOption] is set, [handleOptionSelect] returns the
    state it was called on: problem, options, selection, correctness,
    clock, score, transitioning flag and both timer refs are unchanged, and
    the click causes no render. *)
Theorem select_after_lock_is_noop (p : Props) (s : Session) (opt : Value) :
  selectedOption s <> None ->
  handleOptionSelect p opt s = s /\ step p s (Select opt) = s.
Proof.
  intros Hsel. unfold step, handleOptionSelect, selectIgnored, notNull.
  destruct (selectedOption s); [split; reflexivity | contradiction].
Qed.

Lemma select_after_lock_is_noop_witness :
  let p := mkProps OppositesGame 20 1 in
  let s := run p (mount p (Generated (OppositesPair "big" "small")
                             [VStr "cold"; VStr "small"; VStr "down"; VStr "slow"]))
             [Select (VStr "cold")] in
  handleOptionSelect p (VStr "small") s = s /\ step p s (Select (VStr "small")) = s.
Proof.
  apply select_after_lock_is_noop. vm_compute. discriminate.
Defined.

(** *** Timeout (C5) *)

(** C5.  An active session with [T >= 1] seconds left in which nothing is
    selected: before the [T]-th tick nothing is selected and the clock
    shows the seconds that are left; after exactly [T] ticks the correct
    answer is selected, [isCorrect] is false, the transitioning flag is
    set, the clock is at 0, no tick timer is pending and further ticks
    change nothing. *)
Theorem timeout_locks (p : Props) (pr : Problem) (T sc : Z) (lg : list (Z * bool)) (s : Session) :
  ticking pr T sc lg s ->
  1 <= T ->
  let s' := run p s (repeat TimerFires (Z.to_nat T)) in
  selectedOption s' = Some (answer pr)
  /\ isCorrect s' = Some false
  /\ isTransitioning s' = true
  /\ timeLeft s' = 0
  /\ timerRef s' = None
  /\ (forall n, run p s' (repeat TimerFires n) = s')
  /\ (forall k, Z.of_nat k < T ->
        let sk := run p s (repeat TimerFires k) in
        selectedOption sk = None /\ timeLeft sk = T - Z.of_nat k).
Proof.
  intros Hs HT s'.
  pose proof (timeout_after_ticks p pr sc lg T s Hs) as Hout. fold s' in Hout.
  assert (Hlocked := Hout).
  destruct Hout as (_ & _ & Hsel & Hcor & Htr & _ & Ht & Href & _).
  repeat split; try assumption.
  - intros n. apply (timedOut_run p pr sc lg s' _ Hlocked).
    apply Forall_forall. intros e He. apply list_elem_of_In, repeat_spec in He. now subst.
  - destruct (ticks_ticking p pr sc lg k T s Hs H) as (_ & _ & Hsel' & _). exact Hsel'.
  - destruct (ticks_ticking p pr sc lg k T s Hs H) as (_ & _ & _ & _ & _ & Ht' & _). exact Ht'.
Qed.

Lemma timeout_locks_witness :
  let p := mkProps MultiplicationGame 3 1 in
  let s := mount p (Generated (MultiplicationProblem 3 4) [VNum 12; VNum 9; VNum 13; VNum 18]) in
  let s' := run p s (repeat TimerFires 3) in
  selectedOption s' = Some (VNum 12)
  /\ isCorrect s' = Some false
  /\ isTransitioning s' = true
  /\ timeLeft s' = 0
  /\ timerRef s' = None
  /\ (forall n, run p s' (repeat TimerFires n) = s')
  /\ (forall k, Z.of_nat k < 3 ->
        let sk := run p s (repeat TimerFires k) in
        selectedOption sk = None /\ timeLeft sk = 3 - Z.of_nat k).
Proof.
  apply (timeout_locks (mkProps MultiplicationGame 3 1) (MultiplicationProblem 3 4) 3 0 []).
  - vm_compute. repeat split; reflexivity.
  - lia.
Defined.

(** *** Teardown (C6) *)

Lemma commit_unmounted (p : Props) (s : Session) : mountedRef s = false -> commit p s = s.
Proof. intros Hm. unfold commit. now rewrite Hm. Qed.

(** Nothing that happens to an unmounted session mounts it again or calls
    [onComplete]. *)
Lemma step_unmounted (p : Props) (s : Session) (e : Event) :
  mountedRef s = false ->
  mountedRef (step p s e) = false /\ completed (step p s e) = completed s.
Proof.
  intros Hm. destruct e as [opt| | | |t|points correct]; cbn [step].
  - destruct (selectIgnored s) eqn:Hguard; [now split |].
    unfold handleOptionSelect. rewrite Hguard.
    destruct (problem s) as [pr|]; [| rewrite commit_unmounted by exact Hm; now split].
    rewrite commit_unmounted by exact Hm. now split.
  - destruct (timerRef s) as [t|]; [| now split].
    unfold timerRuns. cbn [setTimerRef mountedRef]. rewrite Hm.
    destruct (game p); cbn; now split.
  - destruct (completionRef s) as [[points correct]|]; [| now split].
    unfold completionCallback. cbn [setCompletionRef mountedRef]. rewrite Hm. now split.
  - now split.
  - unfold timerRuns. rewrite Hm. destruct (game p); cbn; now split.
  - unfold completionCallback. rewrite Hm. now split.
Qed.

Lemma run_unmounted (p : Props) (es : list Event) :
  forall s, mountedRef s = false ->
    mountedRef (run p s es) = false /\ completed (run p s es) = completed s.
Proof.
  induction es as [|e es IH]; intros s Hm; [now split |].
  change (run p s (e :: es)) with (run p (step p s e) es).
  destruct (step_unmounted p s e Hm) as [Hm' Hlog].
  destruct (IH _ Hm') as [Hm'' Hlog']. split; [exact Hm'' | now rewrite Hlog'].
Qed.

(** C6.  For every session, whatever happened before the unmount and
    whatever happens after it (clicks, timers that fire, timer callbacks
    that run although their timer was cleared): unmounting clears the
    pending 1-second timer and the pending 3-second timer, the callbacks of
    both timers do nothing on the unmounted session, and [onComplete] is
    not called after the unmount. *)
Theorem no_completion_after_unmount (p : Props) (s : Session) (before after : list Event) :
  let live := run p s before in
  let s' := step p live Unmount in
  timerRef s' = None
  /\ completionRef s' = None
  /\ (forall t, timerCallback p t s' = s')
  /\ (forall points correct, completionCallback points correct s' = s')
  /\ completed (run p s (before ++ Unmount :: after)) = completed live.
Proof.
  cbn [step]. repeat split.
  - intros t. unfold timerCallback, timerRuns. cbn. now destruct (game p).
  - rewrite run_app.
    change (run p (run p s before) (Unmount :: after))
      with (run p (unmount (run p s before)) after).
    apply (run_unmounted p after (unmount (run p s before))). reflexivity.
Qed.

(** Scheduling a completion timer and then unmounting: [onComplete] is
    never called. *)
Example unmount_during_completion_delay :
  let p := mkProps MultiplicationGame 20 2 in
  let s := run p (mount p (Generated (MultiplicationProblem 3 4)
                             [VNum 12; VNum 9; VNum 13; VNum 18]))
             [Select (VNum 12)] in
  completionRef s = Some (20, true)
  /\ forall es, completed (run p s (Unmount :: es)) = [].
Proof.
  intros p s. split; [vm_compute; reflexivity |]. intros es.
  change (run p s (Unmount :: es)) with (run p (unmount s) es).
  rewrite (proj2 (run_unmounted p es (unmount s) eq_refl)). vm_compute. reflexivity.
Qed.

(** *** Generation failures (C8) *)

(** A session without a problem stays without one, and its countdown is
    never scheduled. *)
(** Without a problem both effects return early. *)
Lemma commit_without_problem (p : Props) (s : Session) :
  problem s = None -> commit p s = if mountedRef s then setTimerRef None s else s.
Proof.
  intros Hpr. unfold commit. destruct (mountedRef s) eqn:Hm; [| reflexivity].
  cbn [negb]. unfold timeoutEffect. rewrite timeoutIdle_timerEffect.
  assert (Hidle : timeoutIdle s = true)
    by (unfold timeoutIdle; rewrite Hpr; cbn [isNull notNull negb]; now rewrite orb_true_r).
  rewrite Hidle. apply timerEffect_idle.
  unfold timerIdle. rewrite Hpr. cbn [isNull notNull negb]. now rewrite orb_true_r.
Qed.

Lemma step_without_problem (p : Props) (s : Session) (e : Event) :
  problem s = None -> timerRef s = None ->
  problem (step p s e) = None /\ timerRef (step p s e) = None.
Proof.
  intros Hpr Href.
  assert (Hcommit : forall s1, problem s1 = None -> timerRef s1 = None ->
            problem (commit p s1) = None /\ timerRef (commit p s1) = None).
  { intros s1 Hpr1 Href1. rewrite commit_without_problem by exact Hpr1.
    destruct (mountedRef s1); now split. }
  destruct e as [opt| | | |t|points correct]; cbn [step].
  - unfold selectIgnored. rewrite Hpr. cbn [isNull notNull negb].
    rewrite orb_true_r. now split.
  - rewrite Href. now split.
  - destruct (completionRef s) as [[points correct]|]; [| now split].
    unfold completionCallback. destruct (mountedRef _); now split.
  - now split.
  - destruct (timerRuns p t s); [| now split].
    apply Hcommit; unfold timerCallback; destruct (timerRuns p t s); assumption.
  - unfold completionCallback. destruct (mountedRef s); now split.
Qed.

Lemma run_without_problem (p : Props) (es : list Event) :
  forall s, problem s = None -> timerRef s = None ->
    problem (run p s es) = None /\ timerRef (run p s es) = None.
Proof.
  induction es as [|e es IH]; intros s Hpr Href; [now split |].
  cbn [run fold_left]. destruct (step_without_problem p s e Hpr Href) as [Hpr' Href'].
  now apply IH.
Qed.

(** C8 on the code.  When problem generation throws, the catch block sets
    the canned options, the image-error flag and [gameInitialized], but no
    problem: the component keeps rendering the loading placeholder and the
    countdown never starts, whatever happens next. *)
Theorem problem_failure_stays_loading (p : Props) (es : list Event) :
  let s0 := mount p ProblemThrows in
  options s0 = fallbackOptions (game p)
  /\ imageError s0 = true
  /\ gameInitialized s0 = true
  /\ render (run p s0 es) = Loading
  /\ timerRef (run p s0 es) = None.
Proof.
  assert (Hs0 : problem (mount p ProblemThrows) = None /\ timerRef (mount p ProblemThrows) = None
                /\ options (mount p ProblemThrows) = fallbackOptions (game p)
                /\ imageError (mount p ProblemThrows) = true
                /\ gameInitialized (mount p ProblemThrows) = true).
  { unfold mount. rewrite commit_without_problem by reflexivity.
    repeat split; reflexivity. }
  destruct Hs0 as (Hpr & Href & Hopts & Himg & Hinit).
  destruct (run_without_problem p es _ Hpr Href) as [Hpr' Href'].
  cbv zeta. repeat split; try assumption.
  unfold render. now rewrite Hpr'.
Qed.

(** When option generation throws in MultiplicationGame or WordMathGame,
    [setProblem] has already run: the session becomes active with the
    canned options and the image-error flag. *)
Lemma options_failure_reaches_active (p : Props) (pr : Problem) :
  game p = MultiplicationGame \/ game p = WordMathGame ->
  1 <= timerDuration p ->
  let s0 := mount p (OptionsThrow pr) in
  ticking pr (timerDuration p) 0 [] s0
  /\ options s0 = fallbackOptions (game p) /\ imageError s0 = true
  /\ render s0 = Question pr (fallbackOptions (game p)).
Proof.
  intros Hg HT. cbv zeta. unfold mount.
  assert (Hinit : initializeGame p (OptionsThrow pr) (initialSession p)
                  = mkSession true (Some pr) (fallbackOptions (game p)) None None
                      (timerDuration p) 0 false false true false true None None [])
    by (unfold initializeGame, catchBlock; destruct Hg as [-> | ->]; reflexivity).
  rewrite Hinit. set (s := mkSession _ _ _ _ _ _ _ _ _ _ _ _ _ _ _).
  destruct (active_guards p s pr) as (Htimer & Htimeout & _);
    try reflexivity; [subst s; fields; lia |].
  rewrite commit_no_timeout, timerEffect_busy by (assumption || reflexivity).
  subst s. unfold ticking, render. fields. repeat split; try reflexivity; lia.
Qed.

(** In AnimalGame and OppositesGame the options are built before the first
    setter, so a failure there leaves the session without a problem too. *)
Lemma options_failure_stays_loading (p : Props) (pr : Problem) (es : list Event) :
  game p = AnimalGame \/ game p = OppositesGame ->
  render (run p (mount p (OptionsThrow pr)) es) = Loading.
Proof.
  intros Hg.
  assert (Hs0 : problem (mount p (OptionsThrow pr)) = None
                /\ timerRef (mount p (OptionsThrow pr)) = None).
  { unfold mount.
    assert (Hinit : problem (initializeGame p (OptionsThrow pr) (initialSession p)) = None)
      by (unfold initializeGame, catchBlock; destruct Hg as [-> | ->]; reflexivity).
    rewrite commit_without_problem by exact Hinit.
    unfold initializeGame, catchBlock. destruct Hg as [-> | ->]; split; reflexivity. }
  destruct Hs0 as [Hpr Href].
  destruct (run_without_problem p es _ Hpr Href) as [Hpr' _].
  unfold render. now rewrite Hpr'.
Qed.

End RoundSessionFacts.

(* ===================================================================== *)
(** * Properties of the orchestrator *)
(* ===================================================================== *)

Module AppFacts.
Import App.

Lemma scoreUpdater_lookup index pts isCorrect ps pl :
  ps !! index = Some pl ->
  scoreUpdater index pts isCorrect ps !! index
  = Some (mkPlayer (name pl) (age pl) (grade pl) (score pl + pts) (level pl)
            (if isCorrect then correctAnswers pl + 1 else correctAnswers pl)).
Proof.
  intros Hpl. unfold scoreUpdater. rewrite Hpl.
  apply list_lookup_insert_eq. eapply lookup_lt_Some; eauto.
Qed.

Lemma levelUpdater_lookup index ps pl :
  ps !! index = Some pl ->
  levelUpdater index ps !! index
  = Some (mkPlayer (name pl) (age pl) (grade pl) (score pl) (level pl + 1)
            (correctAnswers pl)).
Proof.
  intros Hpl. unfold levelUpdater. rewrite Hpl.
  apply list_lookup_insert_eq. eapply lookup_lt_Some; eauto.
Qed.

(** What a round completion does to the player whose turn it is.  The
    level-up test reads the counter before the increment when the updater
    is queued, and after it when React runs the updater at once. *)
Lemma complete_player (st : State) (c : Completion) (pl : Player) :
  players st !! currentPlayerIndex st = Some pl ->
  let counted := if correct c then correctAnswers pl + 1 else correctAnswers pl in
  let seen := match sched c with Queued => correctAnswers pl | Eager => counted end in
  let up := correct c && ((level pl * 5 <=? seen) && (level pl <? 10)) in
  players (complete st c) !! currentPlayerIndex st
  = Some (mkPlayer (name pl) (age pl) (grade pl) (score pl + points c)
            (if up then level pl + 1 else level pl) counted).
Proof.
  intros Hpl counted seen up.
  set (index := currentPlayerIndex st).
  set (updated := scoreUpdater index (points c) (correct c) (players st)).
  pose proof (scoreUpdater_lookup index (points c) (correct c) _ _ Hpl) as Hupd.
  fold updated in Hupd. fold counted in Hupd.
  set (visible := match sched c with Eager => updated | Queued => players st end).
  change (players (complete st c))
    with (if correct c && checkForLevelUp visible index
          then levelUpdater index updated else updated).
  assert (Hcheck : checkForLevelUp visible index
                   = (level pl * 5 <=? seen) && (level pl <? 10)).
  { unfold checkForLevelUp, visible, seen.
    destruct (sched c); [fold index in Hpl; rewrite Hpl | rewrite Hupd]; reflexivity. }
  rewrite Hcheck. fold up. destruct up.
  - rewrite (levelUpdater_lookup _ _ _ Hupd). reflexivity.
  - exact Hupd.
Qed.

(** The turn bookkeeping of a round completion: the index is swapped, the
    round counter is incremented, and the game state only changes to
    [results]. *)
Lemma complete_turn (st : State) (c : Completion) :
  currentPlayerIndex (complete st c) = (if Nat.eqb (currentPlayerIndex st) 0 then 1 else 0)%nat
  /\ roundsPlayed (complete st c) = roundsPlayed st + 1
  /\ gameState (complete st c)
     = (if totalRounds (gameSettings st) <=? roundsPlayed st + 1
        then results else gameState st)
  /\ gameSettings (complete st c) = gameSettings st.
Proof. repeat split; reflexivity. Qed.

Lemma scoreUpdater_levels lo hi index pts isCorrect ps :
  levelsWithin lo hi ps -> levelsWithin lo hi (scoreUpdater index pts isCorrect ps).
Proof.
  intros Hps. unfold scoreUpdater. destruct (ps !! index) as [pl|] eqn:Hpl; [| exact Hps].
  apply Forall_insert; [exact Hps |]. cbn.
  exact (proj1 (Forall_lookup _ _) Hps _ _ Hpl).
Qed.

Lemma scoreUpdater_level index pts isCorrect ps pl' :
  scoreUpdater index pts isCorrect ps !! index = Some pl' ->
  exists pl, ps !! index = Some pl /\ level pl' = level pl.
Proof.
  unfold scoreUpdater. destruct (ps !! index) as [pl|] eqn:Hpl; [| congruence].
  rewrite list_lookup_insert_eq by (eapply lookup_lt_Some; eauto).
  intros [= <-]. eauto.
Qed.

Lemma levelUpdater_levels index ps :
  levelsWithin 1 10 ps ->
  (forall pl, ps !! index = Some pl -> level pl < 10) ->
  levelsWithin 1 10 (levelUpdater index ps).
Proof.
  intros Hps Hlt. unfold levelUpdater. destruct (ps !! index) as [pl|] eqn:Hpl; [| exact Hps].
  apply Forall_insert; [exact Hps |]. cbn.
  pose proof (proj1 (Forall_lookup _ _) Hps _ _ Hpl) as Hrange. cbn in Hrange.
  specialize (Hlt pl eq_refl). lia.
Qed.

(** Levels stay between 1 and 10. *)
Lemma complete_levels (st : State) (c : Completion) :
  levelsWithin 1 10 (players st) -> levelsWithin 1 10 (players (complete st c)).
Proof.
  intros Hps. unfold complete, onComplete, nextTurn, updatePlayerScore. cbn.
  set (index := currentPlayerIndex st).
  set (updated := scoreUpdater index (points c) (correct c) (players st)).
  assert (Hupd : levelsWithin 1 10 updated) by now apply scoreUpdater_levels.
  destruct (correct c && checkForLevelUp _ index) eqn:Hup; [| exact Hupd].
  apply andb_true_iff in Hup. destruct Hup as [_ Hup].
  apply levelUpdater_levels; [exact Hupd |].
  intros pl' Hpl'. apply scoreUpdater_level in Hpl'. destruct Hpl' as (pl & Hpl & Hlev').
  unfold checkForLevelUp in Hup.
  destruct (sched c).
  - rewrite Hpl in Hup. apply andb_true_iff in Hup. destruct Hup as [_ Hup]. lia.
  - fold updated in Hup.
    destruct (updated !! index) as [seen|] eqn:Hseen; [| discriminate].
    apply scoreUpdater_level in Hseen. destruct Hseen as (pl0 & Hpl0 & Hlev).
    assert (pl0 = pl) as -> by congruence.
    apply andb_true_iff in Hup. destruct Hup as [_ Hup]. lia.
Qed.

Lemma play_levels (cs : list Completion) :
  forall st, levelsWithin 1 10 (players st) -> levelsWithin 1 10 (players (play st cs)).
Proof.
  induction cs as [|c cs IH]; intros st Hst; [exact Hst |].
  cbn [play fold_left]. apply IH. now apply complete_levels.
Qed.

Lemma started_players customPlayers settings random :
  players (started customPlayers settings random) = customPlayers.
Proof.
  unfold started, startGame.
  destruct (customPlayers !! 0%nat), (customPlayers !! 1%nat); try reflexivity.
  destruct (customPlayers !! currentPlayerIndex initialState); reflexivity.
Qed.

(** *** Level-up *)

(** When the [setPlayers] updaters are queued (calls of [onComplete] that
    follow each other before [App] has rendered), [checkForLevelUp] reads
    [players[index]] before the increment of [updatePlayerScore] is
    applied: a fifth correct answer that arrives in this way leaves the
    level at 1, and the level becomes 2 with the sixth. *)
Example level_up_one_answer_late (random : Rand) :
  let st0 := started defaultPlayers (mkSettings 20 40 1) random in
  levelAndCount (play st0 (correctRounds Queued 8)) 0 = Some (1, 4)
  /\ levelAndCount (play st0 (correctRounds Queued 9)) 0 = Some (1, 5)
  /\ levelAndCount (play st0 (correctRounds Queued 10)) 0 = Some (1, 5)
  /\ levelAndCount (play st0 (correctRounds Queued 11)) 0 = Some (2, 6).
Proof.
  cbv zeta. unfold started, startGame, initialState, defaultPlayers. cbn.
  destruct (gtHalf random); repeat split; vm_compute; reflexivity.
Qed.

(** When React runs the updater at once, the in-place mutation is visible
    to [checkForLevelUp] and the fifth correct answer raises the level. *)
Example level_up_when_eager (random : Rand) :
  let st0 := started defaultPlayers (mkSettings 20 40 1) random in
  levelAndCount (play st0 (correctRounds Eager 8)) 0 = Some (1, 4)
  /\ levelAndCount (play st0 (correctRounds Eager 9)) 0 = Some (2, 5).
Proof.
  cbv zeta. unfold started, startGame, initialState, defaultPlayers. cbn.
  destruct (gtHalf random); repeat split; vm_compute; reflexivity.
Qed.

(** One level at most per completion, only on a correct answer, and never
    beyond level 10. *)
Lemma complete_level_step (st : State) (c : Completion) (pl : Player) :
  players st !! currentPlayerIndex st = Some pl ->
  exists pl', players (complete st c) !! currentPlayerIndex st = Some pl'
    /\ (level pl' = level pl \/ (level pl' = level pl + 1 /\ correct c = true /\ level pl < 10)).
Proof.
  intros Hpl. eexists. split; [apply complete_player; exact Hpl |]. cbn.
  destruct (correct c); cbn; [| now left].
  destruct (level pl * 5 <=? _); cbn; [| now left].
  destruct (Z.ltb_spec (level pl) 10); [right; repeat split; lia | now left].
Qed.

(** *** Difficulty passed to the games *)

(** In every state that a match reaches from players whose levels are
    between 1 and 10, the difficulty that GamesContainer passes to the game
    component is the level of the player whose turn it is, an integer
    between 1 and 10. *)
Lemma difficulty_is_level (customPlayers : list Player) (settings : GameSettings)
  (random : Rand) (cs : list Completion) (d : Z) :
  levelsWithin 1 10 customPlayers ->
  let st := play (started customPlayers settings random) cs in
  difficultyProp st = Some d ->
  1 <= d <= 10
  /\ exists pl, players st !! currentPlayerIndex st = Some pl /\ d = level pl.
Proof.
  intros Hlevels st Hd.
  assert (Hst : levelsWithin 1 10 (players st)).
  { apply play_levels. now rewrite started_players. }
  unfold difficultyProp in Hd.
  destruct (players st !! currentPlayerIndex st) as [pl|] eqn:Hpl;
    [| destruct (gameState st); discriminate].
  assert (d = level pl) as -> by (destruct (gameState st); congruence).
  split; [| eauto].
  exact (proj1 (Forall_lookup _ _) Hst _ _ Hpl).
Qed.

Lemma difficulty_is_level_witness :
  let st := play (started defaultPlayers defaultSettings randPlus) (correctRounds Eager 2) in
  1 <= 1 <= 10
  /\ exists pl, players st !! currentPlayerIndex st = Some pl /\ 1 = level pl.
Proof.
  apply (difficulty_is_level defaultPlayers defaultSettings randPlus (correctRounds Eager 2) 1).
  - repeat constructor; simpl; lia.
  - vm_compute. reflexivity.
Defined.

(** *** Turn routing (C10) *)

(** C10 on the code.  A match of the default players (aged 5 and 7): the
    first game is chosen for the five-year-old.  After the first round the
    index is swapped and the round counter incremented, but [nextTurn]
    does not call [selectGameForPlayer]: the seven-year-old plays the same
    opposites or animals game, for every random choice and every outcome
    of the round. *)
Theorem next_turn_keeps_the_game (random : Rand) (c : Completion) :
  let st0 := started defaultPlayers defaultSettings random in
  let st1 := complete st0 c in
  currentPlayerIndex st0 = 0%nat
  /\ gameFitsAge (gameState st0) 5 = true
  /\ currentPlayerIndex st1 = 1%nat
  /\ roundsPlayed st1 = roundsPlayed st0 + 1
  /\ currentAge st1 = Some 7
  /\ gameState st1 = gameState st0
  /\ gameFitsAge (gameState st1) 7 = false.
Proof.
  cbv zeta. unfold started, startGame, initialState, defaultPlayers, defaultSettings. cbn.
  unfold selectGameForPlayer. cbn.
  destruct c as [sch pts isCorrect].
  destruct (gtHalf random), sch, isCorrect; repeat split; reflexivity.
Qed.

(** [startGame] chooses the first game for [customPlayers[0]] even when the
    younger player at index 1 starts. *)
Example first_game_for_the_wrong_player (random : Rand) :
  let older := mkPlayer "Player 1" 7 "1st Grade" 0 1 0 in
  let younger := mkPlayer "Player 2" 5 "Pre-K" 0 1 0 in
  let st0 := started [older; younger] defaultSettings random in
  currentPlayerIndex st0 = 1%nat /\ currentAge st0 = Some 5
  /\ gameFitsAge (gameState st0) 5 = false.
Proof.
  cbv zeta. unfold started, startGame, initialState. cbn. unfold selectGameForPlayer. cbn.
  destruct (gtHalf random); repeat split; reflexivity.
Qed.

End AppFacts.

(* ===================================================================== *)
(** * Properties of the question pools *)
(* ===================================================================== *)

Module PoolFacts.

Lemma insertBy_Permutation {A} (cmp : Rand -> comparison) (x : A) :
  forall sorted rs out rest,
    insertBy cmp x sorted rs = Some (out, rest) -> Permutation (x :: sorted) out.
Proof.
  induction sorted as [|y ys IH]; intros rs out rest Hrun; cbn [insertBy] in Hrun.
  - injection Hrun as <- <-. reflexivity.
  - destruct rs as [|r rs']; [discriminate |].
    destruct (cmp r);
      try (injection Hrun as <- <-; reflexivity);
      (destruct (insertBy cmp x ys rs') as [[l rs'']|] eqn:Hins; [| discriminate];
       injection Hrun as <- <-; rewrite perm_swap; apply perm_skip; eapply IH; eauto).
Qed.

Lemma sortBy_Permutation {A} (cmp : Rand -> comparison) :
  forall (l : list A) rs out rest, sortBy cmp l rs = Some (out, rest) -> Permutation l out.
Proof.
  induction l as [|x l IH]; intros rs out rest Hrun; cbn [sortBy] in Hrun.
  - injection Hrun as <- <-. reflexivity.
  - destruct (sortBy cmp l rs) as [[sorted rs']|] eqn:Hsort; [| discriminate].
    apply insertBy_Permutation in Hrun. rewrite <- Hrun. apply perm_skip. eapply IH; eauto.
Qed.

Lemma insertBy_total {A} (cmp : Rand -> comparison) (x : A) :
  forall sorted rs,
    (length sorted <= length rs)%nat ->
    exists out rest,
      insertBy cmp x sorted rs = Some (out, rest)
      /\ (length rs <= length rest + length sorted)%nat.
Proof.
  induction sorted as [|y ys IH]; intros rs Hlen; cbn [insertBy].
  - exists [x], rs. split; [reflexivity | simpl; lia].
  - destruct rs as [|r rs']; [simpl in Hlen; lia |].
    destruct (IH rs' ltac:(simpl in Hlen; lia)) as (out & rest & Hins & Hrest).
    rewrite Hins.
    destruct (cmp r); eexists _, _; (split; [reflexivity |]); simpl; lia.
Qed.

Lemma sortBy_total {A} (cmp : Rand -> comparison) :
  forall (l : list A) rs,
    (length l * length l <= length rs)%nat ->
    exists out rest,
      sortBy cmp l rs = Some (out, rest)
      /\ (length rs <= length rest + length l * length l)%nat.
Proof.
  induction l as [|x l IH]; intros rs Hlen; cbn [sortBy].
  - exists [], rs. split; [reflexivity | simpl; lia].
  - destruct (IH rs ltac:(simpl in Hlen; lia)) as (sorted & rs' & Hsort & Hrest).
    rewrite Hsort.
    pose proof (Permutation_length (sortBy_Permutation cmp l rs sorted rs' Hsort)) as Hperm.
    destruct (insertBy_total cmp x sorted rs' ltac:(simpl in Hlen; lia))
      as (out & rest & Hins & Hrest').
    exists out, rest. split; [exact Hins |]. simpl. lia.
Qed.

(** A slice from 0 is a prefix of the array. *)
Lemma jsSlice_from_0 {A} (l : list A) (stop : Z) :
  jsSlice l 0 stop = take (Z.to_nat (sliceIndex (Z.of_nat (length l)) stop)) l.
Proof.
  unfold jsSlice.
  assert (Hfrom : sliceIndex (Z.of_nat (length l)) 0 = 0)
    by (unfold sliceIndex; cbn; lia).
  rewrite Hfrom. cbn [Z.to_nat drop]. now rewrite Z.sub_0_r.
Qed.

Lemma length_jsSlice_from_0 {A} (l : list A) (stop : Z) :
  Z.of_nat (length (jsSlice l 0 stop)) = sliceIndex (Z.of_nat (length l)) stop.
Proof.
  rewrite jsSlice_from_0, length_take. unfold sliceIndex.
  destruct (Z.ltb_spec stop 0); lia.
Qed.

(** The options that [shuffleOptions] returns: the correct answer and three
    of the others. *)
Lemma shuffleOptions_spec (others : list string) (c : string) rs opts rest :
  NoDup others -> c ∉ others -> (3 <= length others)%nat ->
  shuffleOptions others c rs = Some (opts, rest) ->
  length opts = 4%nat /\ NoDup opts /\ c ∈ opts /\ (forall x, x ∈ opts -> x = c \/ x ∈ others).
Proof.
  intros Hnd Hc Hlen Hrun. unfold shuffleOptions in Hrun.
  destruct (sortBy halfMinus others rs) as [[shuffled rs']|] eqn:Hsort; [| discriminate].
  apply sortBy_Permutation in Hsort. apply sortBy_Permutation in Hrun.
  rewrite jsSlice_from_0 in Hrun.
  assert (Hthree : Z.to_nat (sliceIndex (Z.of_nat (length shuffled)) 3) = 3%nat).
  { unfold sliceIndex. cbn. rewrite <- (Permutation_length Hsort). lia. }
  rewrite Hthree in Hrun.
  assert (Hsub : forall x, x ∈ take 3 shuffled -> x ∈ others).
  { intros x Hx. rewrite Hsort. now apply (subseteq_take 3 shuffled). }
  repeat split.
  - rewrite <- Hrun, length_app, length_take. pose proof (Permutation_length Hsort).
    cbn [length]. lia.
  - rewrite <- Hrun. apply NoDup_app. repeat split.
    + apply (sublist_NoDup _ shuffled); [now rewrite <- Hsort | apply sublist_take].
    + intros x Hx Hx'. apply list_elem_of_singleton in Hx'. subst. auto.
    + apply NoDup_singleton.
  - rewrite <- Hrun. apply elem_of_app. right. now apply list_elem_of_singleton.
  - intros x Hx. rewrite <- Hrun in Hx. apply elem_of_app in Hx.
    destruct Hx as [Hx | Hx]; [right; auto | left; now apply list_elem_of_singleton].
Qed.

Lemma shuffleOptions_total (others : list string) (c : string) rs :
  (length others * length others + 16 <= length rs)%nat ->
  exists out, shuffleOptions others c rs = Some out.
Proof.
  intros Hlen. unfold shuffleOptions.
  destruct (sortBy_total halfMinus others rs ltac:(lia)) as (shuffled & rs' & Hsort & Hrest).
  rewrite Hsort.
  destruct (sortBy_total halfMinus (jsSlice shuffled 0 3 ++ [c]) rs') as (out & rest & Hout & _).
  { rewrite length_app, jsSlice_from_0, length_take. cbn [length].
    assert (Hle : (Z.to_nat (sliceIndex (Z.of_nat (length shuffled)) 3) <= 3)%nat)
      by (unfold sliceIndex; cbn; lia).
    nia. }
  rewrite Hout. eauto.
Qed.

(** The keys of the entries left by [filter(e => key(e) !== c)]: no key
    twice, never [c], at most one entry fewer than before. *)
Lemma other_keys {A} (key : A -> string) (c : string) (l : list A) :
  NoDup (map key l) ->
  let others := map key (filter (fun e => key e <> c) l) in
  NoDup others /\ (c ∉ others) /\ (length l <= S (length others))%nat
  /\ (length others <= length l)%nat
  /\ (forall x, x ∈ others -> exists e, e ∈ l /\ x = key e).
Proof.
  induction l as [|e l IH]; intros Hnd; cbn [map] in Hnd.
  - cbn. repeat split; try constructor; try lia.
    + intros H; inversion H.
    + intros x H; inversion H.
  - apply NoDup_cons in Hnd as [Hnotin Hnd].
    destruct (IH Hnd) as (IHnd & IHc & IHlen & IHlen' & IHsub). clear IH.
    destruct (decide (key e = c)) as [Heq | Hne].
    + rewrite filter_cons_False by (intros H; now apply H).
      assert (Hall : filter (fun e0 => key e0 <> c) l = l).
      { clear -Hnotin Heq. induction l as [|y l IH]; [reflexivity |].
        cbn [map] in Hnotin. apply not_elem_of_cons in Hnotin as [Hy Hl].
        rewrite filter_cons_True by congruence. f_equal. now apply IH. }
      cbv zeta in *. rewrite Hall in *. repeat split; auto.
      * rewrite length_map. cbn [length]. lia.
      * rewrite length_map. cbn [length]. lia.
      * intros x Hx. destruct (IHsub x Hx) as (e' & He' & ->).
        exists e'. split; [now apply elem_of_cons; right | reflexivity].
    + rewrite filter_cons_True by exact Hne. cbn [map length]. cbv zeta in *.
      repeat split.
      * apply NoDup_cons. split; [| exact IHnd].
        intros Hin. apply Hnotin. destruct (IHsub _ Hin) as (e' & He' & Hk).
        rewrite Hk. apply list_elem_of_In, in_map, list_elem_of_In, He'.
      * apply not_elem_of_cons. split; [congruence | exact IHc].
      * lia.
      * lia.
      * intros x Hx. apply elem_of_cons in Hx as [-> | Hx].
        -- exists e. split; [apply elem_of_cons; now left | reflexivity].
        -- destruct (IHsub x Hx) as (e' & He' & ->).
           exists e'. split; [now apply elem_of_cons; right | reflexivity].
Qed.

Lemma pickRandom_elem {A} (pool : list A) (r : Rand) (x : A) :
  pickRandom pool r = Some x -> x ∈ pool.
Proof. unfold pickRandom. apply list_elem_of_lookup_2. Qed.

Lemma pickRandom_nonempty {A} (pool : list A) (r : Rand) :
  (0 < length pool)%nat -> exists x, pickRandom pool r = Some x.
Proof.
  intros Hlen. unfold pickRandom.
  pose proof (floorTimes_range r (Z.of_nat (length pool)) ltac:(lia)) as Hr.
  apply lookup_lt_is_Some_2. lia.
Qed.

Lemma NoDup_map_take {A} (key : A -> string) (n : nat) (l : list A) :
  NoDup (map key l) -> NoDup (map key (take n l)).
Proof.
  revert n. induction l as [|e l IH]; intros [|n] Hnd; cbn [take map]; try constructor.
  - cbn [map] in Hnd. apply NoDup_cons in Hnd as [Hnotin Hnd].
    intros Hin. apply Hnotin. apply list_elem_of_In in Hin. apply in_map_iff in Hin.
    destruct Hin as (e' & Hk & He'). rewrite <- Hk.
    apply list_elem_of_In, in_map. apply list_elem_of_In.
    apply (subseteq_take n l). now apply list_elem_of_In.
  - cbn [map] in Hnd. apply NoDup_cons in Hnd as [_ Hnd]. now apply IH.
Qed.

(** What [shuffleOptions] makes of a pool with distinct keys, for the key
    of one of its entries. *)
Lemma pool_options {A} (key : A -> string) (pool : list A) (e : A) rs opts rest :
  NoDup (map key pool) -> (4 <= length pool)%nat ->
  shuffleOptions (map key (filter (fun e' => key e' <> key e) pool)) (key e) rs
  = Some (opts, rest) ->
  length (map VStr opts) = 4%nat /\ NoDup (map VStr opts) /\ VStr (key e) ∈ map VStr opts
  /\ (forall o, o ∈ map VStr opts -> o = VStr (key e) \/ exists e', e' ∈ pool /\ o = VStr (key e')).
Proof.
  intros Hnd Hlen Hrun.
  destruct (other_keys key (key e) pool Hnd) as (Hnd' & Hc & Hlen' & _ & Hsub).
  cbv zeta in *.
  destruct (shuffleOptions_spec _ _ _ _ _ Hnd' Hc ltac:(lia) Hrun) as (H4 & Hnd4 & Hin & Hall).
  split; [now rewrite length_map |]. split; [| split].
  - apply NoDup_ListNoDup. apply Finite.Injective_map_NoDup.
    + intros x y Hxy. now inversion Hxy.
    + now apply NoDup_ListNoDup.
  - apply list_elem_of_In, in_map, list_elem_of_In, Hin.
  - intros o Ho. apply list_elem_of_In, in_map_iff in Ho. destruct Ho as (x & <- & Hx).
    apply list_elem_of_In in Hx. destruct (Hall x Hx) as [-> | Hx']; [now left | right].
    destruct (Hsub x Hx') as (e' & He' & ->). eauto.
Qed.

Lemma pool_options_total {A} (key : A -> string) (pool : list A) (c : string) rs :
  NoDup (map key pool) -> (length pool <= 15)%nat -> (241 <= length rs)%nat ->
  exists out, shuffleOptions (map key (filter (fun e' => key e' <> c) pool)) c rs = Some out.
Proof.
  intros Hnd Hlen Hrs.
  destruct (other_keys key c pool Hnd) as (_ & _ & _ & Hle & _). cbv zeta in Hle.
  apply shuffleOptions_total. nia.
Qed.

Lemma animals_names_distinct : NoDup (map AnimalPool.name AnimalPool.animals).
Proof. apply NoDup_ListNoDup. repeat constructor; cbn; intuition discriminate. Qed.

Lemma opposites_distinct : NoDup (map OppositesPool.opposite OppositesPool.oppositesPairs).
Proof. apply NoDup_ListNoDup. repeat constructor; cbn; intuition discriminate. Qed.

Lemma getAnimalsForDifficulty_take (d : Z) :
  -2 <= d ->
  AnimalPool.getAnimalsForDifficulty d
  = take (Z.to_nat (Z.min (5 + d * 2) 15)) AnimalPool.animals.
Proof.
  intros Hd. unfold AnimalPool.getAnimalsForDifficulty. rewrite jsSlice_from_0.
  f_equal. f_equal. change (Z.of_nat (length AnimalPool.animals)) with 15.
  unfold sliceIndex. destruct (Z.ltb_spec (Z.min (5 + d * 2) 15) 0); lia.
Qed.

Lemma getPairsForDifficulty_take (d : Z) :
  1 <= d ->
  OppositesPool.getPairsForDifficulty d
  = take (Z.to_nat (Z.min (3 * d + 7) 15)) OppositesPool.oppositesPairs.
Proof.
  intros Hd. unfold OppositesPool.getPairsForDifficulty. rewrite jsSlice_from_0.
  f_equal. f_equal. change (Z.of_nat (length OppositesPool.oppositesPairs)) with 15.
  unfold sliceIndex.
  destruct (Z.ltb_spec (Z.min (Z.min ((d - 1) * 3) (15 - 5) + 10) 15) 0); lia.
Qed.


Lemma animal_pool_facts (d : Z) :
  1 <= d ->
  let pool := AnimalPool.getAnimalsForDifficulty d in
  NoDup (map AnimalPool.name pool) /\ (7 <= length pool <= 15)%nat.
Proof.
  intros Hd. cbv zeta. rewrite getAnimalsForDifficulty_take by lia. split.
  - apply NoDup_map_take, animals_names_distinct.
  - rewrite length_take. change (length AnimalPool.animals) with 15%nat. lia.
Qed.

Lemma opposites_pool_facts (d : Z) :
  1 <= d ->
  let pool := OppositesPool.getPairsForDifficulty d in
  NoDup (map OppositesPool.opposite pool) /\ (10 <= length pool <= 15)%nat.
Proof.
  intros Hd. cbv zeta. rewrite getPairsForDifficulty_take by lia. split.
  - apply NoDup_map_take, opposites_distinct.
  - rewrite length_take. change (length OppositesPool.oppositesPairs) with 15%nat. lia.
Qed.

Lemma animal_generate_returns (d : Z) rs :
  1 <= d -> (242 <= length rs)%nat -> exists g, AnimalPool.generate d rs = Some g.
Proof.
  intros Hd Hrs. destruct (animal_pool_facts d Hd) as [Hnd Hlen]. cbv zeta in *.
  unfold AnimalPool.generate. destruct rs as [|r rs]; [simpl in Hrs; lia |].
  cbv zeta.
  destruct (pickRandom_nonempty (AnimalPool.getAnimalsForDifficulty d) r ltac:(lia))
    as [animal ->].
  unfold AnimalPool.otherNames.
  destruct (pool_options_total AnimalPool.name (AnimalPool.getAnimalsForDifficulty d)
              (AnimalPool.name animal) rs Hnd ltac:(lia) ltac:(simpl in Hrs; lia))
    as [[opts rest] ->].
  eauto.
Qed.

Lemma animal_generate_wf (d : Z) rs g :
  1 <= d -> AnimalPool.generate d rs = Some g ->
  exists animal opts,
    g = RoundSession.Generated (Animal (AnimalPool.name animal)) opts
    /\ animal ∈ AnimalPool.getAnimalsForDifficulty d
    /\ fourWithAnswer (Animal (AnimalPool.name animal)) opts
    /\ (forall o, o ∈ opts ->
          exists a, a ∈ AnimalPool.getAnimalsForDifficulty d /\ o = VStr (AnimalPool.name a)).
Proof.
  intros Hd Hrun. destruct (animal_pool_facts d Hd) as [Hnd Hlen]. cbv zeta in *.
  unfold AnimalPool.generate in Hrun. destruct rs as [|r rs]; [discriminate |].
  cbv zeta in Hrun.
  destruct (pickRandom (AnimalPool.getAnimalsForDifficulty d) r) as [animal|] eqn:Hpick.
  2: { destruct (pickRandom_nonempty (AnimalPool.getAnimalsForDifficulty d) r ltac:(lia))
         as [x Hx]. congruence. }
  apply pickRandom_elem in Hpick. unfold AnimalPool.otherNames in Hrun.
  destruct (shuffleOptions _ _ rs) as [[opts rest]|] eqn:Hopts; [| discriminate].
  injection Hrun as <-.
  destruct (pool_options AnimalPool.name _ animal rs opts rest Hnd ltac:(lia) Hopts)
    as (H4 & Hnd4 & Hin & Hall).
  exists animal, (map VStr opts). split; [reflexivity |]. split; [exact Hpick |].
  split; [split; [exact H4 | split; [exact Hnd4 | exact Hin]] |].
  intros o Ho. destruct (Hall o Ho) as [-> | Hex]; [eauto | exact Hex].
Qed.

Lemma opposites_generate_returns (d : Z) rs :
  1 <= d -> (242 <= length rs)%nat -> exists g, OppositesPool.generate d rs = Some g.
Proof.
  intros Hd Hrs. destruct (opposites_pool_facts d Hd) as [Hnd Hlen]. cbv zeta in *.
  unfold OppositesPool.generate. destruct rs as [|r rs]; [simpl in Hrs; lia |].
  cbv zeta.
  destruct (pickRandom_nonempty (OppositesPool.getPairsForDifficulty d) r ltac:(lia))
    as [pair ->].
  unfold OppositesPool.otherOpposites.
  destruct (pool_options_total OppositesPool.opposite (OppositesPool.getPairsForDifficulty d)
              (OppositesPool.opposite pair) rs Hnd ltac:(lia) ltac:(simpl in Hrs; lia))
    as [[opts rest] ->].
  eauto.
Qed.

Lemma opposites_generate_wf (d : Z) rs g :
  1 <= d -> OppositesPool.generate d rs = Some g ->
  exists pair opts,
    g = RoundSession.Generated
          (OppositesPair (OppositesPool.word pair) (OppositesPool.opposite pair)) opts
    /\ pair ∈ OppositesPool.getPairsForDifficulty d
    /\ fourWithAnswer (OppositesPair (OppositesPool.word pair) (OppositesPool.opposite pair)) opts
    /\ (forall o, o ∈ opts ->
          exists q, q ∈ OppositesPool.getPairsForDifficulty d
                    /\ o = VStr (OppositesPool.opposite q)).
Proof.
  intros Hd Hrun. destruct (opposites_pool_facts d Hd) as [Hnd Hlen]. cbv zeta in *.
  unfold OppositesPool.generate in Hrun. destruct rs as [|r rs]; [discriminate |].
  cbv zeta in Hrun.
  destruct (pickRandom (OppositesPool.getPairsForDifficulty d) r) as [pair|] eqn:Hpick.
  2: { destruct (pickRandom_nonempty (OppositesPool.getPairsForDifficulty d) r ltac:(lia))
         as [x Hx]. congruence. }
  apply pickRandom_elem in Hpick. unfold OppositesPool.otherOpposites in Hrun.
  destruct (shuffleOptions _ _ rs) as [[opts rest]|] eqn:Hopts; [| discriminate].
  injection Hrun as <-.
  destruct (pool_options OppositesPool.opposite _ pair rs opts rest Hnd ltac:(lia) Hopts)
    as (H4 & Hnd4 & Hin & Hall).
  exists pair, (map VStr opts). split; [reflexivity |]. split; [exact Hpick |].
  split; [split; [exact H4 | split; [exact Hnd4 | exact Hin]] |].
  intros o Ho. destruct (Hall o Ho) as [-> | Hex]; [eauto | exact Hex].
Qed.

(** The animal pool grows with the difficulty: it is the first
    [min(5 + 2 * difficulty, 15)] animals, so every animal of a difficulty
    is still asked at every higher one. *)
Theorem animal_pool_grows (d d' : Z) :
  1 <= d <= d' ->
  AnimalPool.getAnimalsForDifficulty d `prefix_of` AnimalPool.getAnimalsForDifficulty d'
  /\ AnimalPool.getAnimalsForDifficulty d' `prefix_of` AnimalPool.animals
  /\ Z.of_nat (length (AnimalPool.getAnimalsForDifficulty d)) = Z.min (5 + 2 * d) 15.
Proof.
  intros Hd. rewrite !getAnimalsForDifficulty_take by lia. split; [| split].
  - replace (take (Z.to_nat (Z.min (5 + d * 2) 15)) AnimalPool.animals)
      with (take (Z.to_nat (Z.min (5 + d * 2) 15))
              (take (Z.to_nat (Z.min (5 + d' * 2) 15)) AnimalPool.animals)).
    + apply prefix_take.
    + rewrite take_take. f_equal. lia.
  - apply prefix_take.
  - rewrite length_take. change (length AnimalPool.animals) with 15%nat. lia.
Qed.

Lemma animal_pool_grows_witness :
  AnimalPool.getAnimalsForDifficulty 1 `prefix_of` AnimalPool.getAnimalsForDifficulty 2
  /\ AnimalPool.getAnimalsForDifficulty 2 `prefix_of` AnimalPool.animals
  /\ Z.of_nat (length (AnimalPool.getAnimalsForDifficulty 1)) = Z.min (5 + 2 * 1) 15.
Proof. apply (animal_pool_grows 1 2). lia. Defined.

(** The pool of opposites always starts at the first pair: [startIndex]
    only moves the end of the slice, so the pool is the first
    [min(3 * difficulty + 7, 15)] pairs and the ten easiest pairs are asked
    at every difficulty. *)
Theorem opposites_pool_keeps_first_pairs (d : Z) :
  1 <= d ->
  take 10 OppositesPool.oppositesPairs `prefix_of` OppositesPool.getPairsForDifficulty d
  /\ OppositesPool.getPairsForDifficulty d `prefix_of` OppositesPool.oppositesPairs
  /\ Z.of_nat (length (OppositesPool.getPairsForDifficulty d)) = Z.min (3 * d + 7) 15.
Proof.
  intros Hd. rewrite !getPairsForDifficulty_take by lia. split; [| split].
  - replace (take 10 OppositesPool.oppositesPairs)
      with (take 10 (take (Z.to_nat (Z.min (3 * d + 7) 15)) OppositesPool.oppositesPairs)).
    + apply prefix_take.
    + rewrite take_take. f_equal. lia.
  - apply prefix_take.
  - rewrite length_take. change (length OppositesPool.oppositesPairs) with 15%nat. lia.
Qed.

Lemma opposites_pool_keeps_first_pairs_witness :
  take 10 OppositesPool.oppositesPairs `prefix_of` OppositesPool.getPairsForDifficulty 2
  /\ OppositesPool.getPairsForDifficulty 2 `prefix_of` OppositesPool.oppositesPairs
  /\ Z.of_nat (length (OppositesPool.getPairsForDifficulty 2)) = Z.min (3 * 2 + 7) 15.
Proof. apply (opposites_pool_keeps_first_pairs 2). lia. Defined.

(** AnimalGame, difficulty at least 1: the question generation of
    [initializeGame] never throws, it returns once the shuffles have their
    random numbers, and it yields an animal of the pool with four distinct
    options, all names of animals of the pool, the animal's own name among
    them. *)
Theorem animal_question (d : Z) :
  1 <= d ->
  (forall rs, (242 <= length rs)%nat -> exists g, AnimalPool.generate d rs = Some g)
  /\ (forall rs g, AnimalPool.generate d rs = Some g ->
        exists animal opts,
          g = RoundSession.Generated (Animal (AnimalPool.name animal)) opts
          /\ animal ∈ AnimalPool.getAnimalsForDifficulty d
          /\ fourWithAnswer (Animal (AnimalPool.name animal)) opts
          /\ (forall o, o ∈ opts ->
                exists a, a ∈ AnimalPool.getAnimalsForDifficulty d
                          /\ o = VStr (AnimalPool.name a))).
Proof.
  intros Hd. split.
  - intros rs Hrs. now apply animal_generate_returns.
  - intros rs g Hrun. now apply (animal_generate_wf d rs).
Qed.

Lemma animal_question_witness :
  exists g, AnimalPool.generate 1 (repeat zeroRand 242) = Some g.
Proof.
  apply (proj1 (animal_question 1 ltac:(lia))). rewrite repeat_length. lia.
Defined.

(** OppositesGame, difficulty at least 1: the same for the pairs; the
    options are opposites of pairs of the pool, the pair's own opposite
    among them. *)
Theorem opposites_question (d : Z) :
  1 <= d ->
  (forall rs, (242 <= length rs)%nat -> exists g, OppositesPool.generate d rs = Some g)
  /\ (forall rs g, OppositesPool.generate d rs = Some g ->
        exists pair opts,
          g = RoundSession.Generated
                (OppositesPair (OppositesPool.word pair) (OppositesPool.opposite pair)) opts
          /\ pair ∈ OppositesPool.getPairsForDifficulty d
          /\ fourWithAnswer
               (OppositesPair (OppositesPool.word pair) (OppositesPool.opposite pair)) opts
          /\ (forall o, o ∈ opts ->
                exists q, q ∈ OppositesPool.getPairsForDifficulty d
                          /\ o = VStr (OppositesPool.opposite q))).
Proof.
  intros Hd. split.
  - intros rs Hrs. now apply opposites_generate_returns.
  - intros rs g Hrun. now apply (opposites_generate_wf d rs).
Qed.

Lemma opposites_question_witness :
  exists g, OppositesPool.generate 1 (repeat zeroRand 242) = Some g.
Proof.
  apply (proj1 (opposites_question 1 ltac:(lia))). rewrite repeat_length. lia.
Defined.


End PoolFacts.

(* ===================================================================== *)
(** * Further properties of the option generator *)
(* ===================================================================== *)

Module GeneratorFacts.

(** The difficulty enters the generator only through [Math.min(difficulty, 5)]. *)
Lemma wrongAnswerOf_clamp (c d : Z) (r1 r2 : Rand) :
  wrongAnswerOf c d r1 r2 = wrongAnswerOf c (Z.min d 5) r1 r2.
Proof.
  unfold wrongAnswerOf, drawOffset.
  replace (Z.min (Z.min d 5) 5) with (Z.min d 5) by lia. reflexivity.
Qed.

Lemma collect_clamp (c d : Z) rs :
  forall options, collect c d options rs = collect c (Z.min d 5) options rs.
Proof.
  induction rs as [|r|r1 r2 rs IH] using draws_pair_ind; intros options; cbn [collect];
    try reflexivity.
  rewrite <- wrongAnswerOf_clamp. now rewrite !IH.
Qed.

Lemma generateOptions_clamp (c d : Z) rs :
  generateOptions c d rs = generateOptions c (Z.min d 5) rs.
Proof. unfold generateOptions. now rewrite collect_clamp. Qed.

Lemma generateOptions_stuck (d : Z) rs : 5 <= d -> generateOptions 1 d rs = None.
Proof.
  intros Hd. rewrite generateOptions_clamp, Z.min_r by lia. unfold generateOptions.
  destruct (collect 1 5 [1] rs) as [out|] eqn:Hloop; [| reflexivity].
  exfalso. apply (collect_stuck_1_5 rs). now exists out.
Qed.

(** Which questions get options at all.  For a positive answer and a
    difficulty of at least 1, [generateOptions] can return (there are
    random draws with which it does) unless the answer is 1 and the
    difficulty is 5 or more; in that case only the decoys 2 and 3 are
    positive and the call returns on no sequence of draws. *)
Theorem generateOptions_returns_iff (c d : Z) :
  0 < c -> 1 <= d ->
  (exists rs result, generateOptions c d rs = Some result) <-> ~ (c = 1 /\ 5 <= d).
Proof.
  intros Hc Hd. split.
  - intros (rs & result & Hrun) [-> Hd5]. rewrite generateOptions_stuck in Hrun by exact Hd5.
    discriminate.
  - intros Hcase.
    destruct (threeAcceptable_exist c (Z.min d 5) Hc ltac:(lia) ltac:(lia)) as [rs Hthree].
    apply threeAcceptable_exits in Hthree.
    destruct (generateOptions_returns c (Z.min d 5) rs Hc Hthree) as [result Hrun].
    exists (rs ++ repeat zeroRand 16), result. now rewrite generateOptions_clamp.
Qed.

Lemma generateOptions_returns_iff_witness :
  (exists rs result, generateOptions 12 7 rs = Some result) <-> ~ (12 = 1 /\ 5 <= 7).
Proof. apply (generateOptions_returns_iff 12 7); lia. Defined.

(** Every decoy of a returned array differs from the correct answer by at
    least 1 and at most [7 - min(difficulty, 5)]: by up to 6 at difficulty
    1 and by up to 2 from difficulty 5 on. *)
Theorem decoys_within_offset (c d : Z) rs result :
  generateOptions c d rs = Some result ->
  Forall (fun x => x = c \/ 1 <= Z.abs (x - c) <= 7 - Z.min d 5) result
  /\ (1 <= d -> Forall (fun x => c - 6 <= x <= c + 6) result)
  /\ (5 <= d -> Forall (fun x => c - 2 <= x <= c + 2) result).
Proof.
  intros Hrun. pose proof (generateOptions_withinOffset c d rs result Hrun) as Hall.
  split; [exact Hall |]. unfold withinOffset in Hall.
  split; intros Hd; (eapply Forall_impl; [exact Hall |]); intros x Hx; cbv beta in *; lia.
Qed.

Lemma decoys_within_offset_witness :
  Forall (fun x => x = 12 \/ 1 <= Z.abs (x - 12) <= 7 - Z.min 1 5) [12; 9; 13; 18]
  /\ (1 <= 1 -> Forall (fun x => 12 - 6 <= x <= 12 + 6) [12; 9; 13; 18])
  /\ (5 <= 1 -> Forall (fun x => 12 - 2 <= x <= 12 + 2) [12; 9; 13; 18]).
Proof.
  apply (decoys_within_offset 12 1
           [randFor 0 6; randPlus; randFor 0 6; randPlus; randFor 2 6; randMinus;
            randFor 5 6; randPlus; zeroRand; randPlus; zeroRand; zeroRand; zeroRand; zeroRand]).
  vm_compute. reflexivity.
Defined.

(** MultiplicationGame: the operands that [generateProblem] draws are
    between 1 and [min(10, 3 + difficulty)], so the answer passed to
    [generateOptions] is positive, and what [generateOptions] returns for
    it are four distinct positive numbers, the product among them. *)
Theorem multiplication_question (d : Z) (r1 r2 : Rand) (rs : list Rand) (result : list Z) :
  1 <= d ->
  exists num1 num2,
    generateProblem d r1 r2 = MultiplicationProblem num1 num2
    /\ 1 <= num1 <= Z.min 10 (3 + d)
    /\ 1 <= num2 <= Z.min 10 (3 + d)
    /\ (generateOptions (num1 * num2) d rs = Some result ->
        fourWithAnswer (generateProblem d r1 r2) (map VNum result)
        /\ Forall (fun x => 1 <= x <= 106) result).
Proof.
  intros Hd.
  destruct (generateProblem_answer d r1 r2 Hd) as (num1 & num2 & Hpr & H1 & H2 & Hans & Hpos).
  exists num1, num2. repeat split; try lia; try exact Hpr.
  - now rewrite length_map; destruct (generateOptions_wellFormed _ _ _ _ Hpos H).
  - destruct (generateOptions_wellFormed _ _ _ _ Hpos H) as (_ & Hnd & _).
    apply NoDup_ListNoDup. apply Finite.Injective_map_NoDup.
    + intros x y Hxy. now inversion Hxy.
    + now apply NoDup_ListNoDup.
  - destruct (generateOptions_wellFormed _ _ _ _ Hpos H) as (_ & _ & _ & Hin).
    rewrite Hans. apply list_elem_of_In, in_map, Hin.
  - destruct (generateOptions_wellFormed _ _ _ _ Hpos H) as (_ & _ & Hall & _).
    pose proof (generateOptions_withinOffset _ _ _ _ H) as Hoff.
    rewrite Forall_forall in *. intros x Hx.
    specialize (Hall x Hx). specialize (Hoff x Hx). unfold withinOffset in Hoff.
    cbv beta in Hall. nia.
Qed.

Lemma multiplication_question_witness :
  exists num1 num2,
    generateProblem 1 (randFor 2 4) (randFor 3 4) = MultiplicationProblem num1 num2
    /\ 1 <= num1 <= Z.min 10 (3 + 1)
    /\ 1 <= num2 <= Z.min 10 (3 + 1)
    /\ (generateOptions (num1 * num2) 1
          [randFor 0 6; randPlus; randFor 0 6; randPlus; randFor 2 6; randMinus;
           randFor 5 6; randPlus; zeroRand; randPlus; zeroRand; zeroRand; zeroRand; zeroRand]
        = Some [12; 9; 13; 18] ->
        fourWithAnswer (generateProblem 1 (randFor 2 4) (randFor 3 4))
          (map VNum [12; 9; 13; 18])
        /\ Forall (fun x => 1 <= x <= 106) [12; 9; 13; 18]).
Proof. apply (multiplication_question 1). lia. Defined.

(** MultiplicationGame from difficulty 5 on: when both draws of
    [generateProblem] fall below [1 / maxNum] the problem is 1 x 1, and
    [generateOptions] then returns on no sequence of draws, so the call
    of [initializeGame] never returns and no question is rendered. *)
Theorem one_times_one_gets_no_options (d : Z) (r1 r2 : Rand) :
  5 <= d ->
  floorTimes r1 (Z.min 10 (3 + d)) = 0 ->
  floorTimes r2 (Z.min 10 (3 + d)) = 0 ->
  generateProblem d r1 r2 = MultiplicationProblem 1 1
  /\ answer (generateProblem d r1 r2) = VNum 1
  /\ forall rs, generateOptions (1 * 1) d rs = None.
Proof.
  intros Hd Hr1 Hr2. unfold generateProblem. cbv zeta. rewrite Hr1, Hr2.
  repeat split. intros rs. now apply generateOptions_stuck.
Qed.

Lemma one_times_one_gets_no_options_witness :
  generateProblem 5 zeroRand zeroRand = MultiplicationProblem 1 1
  /\ answer (generateProblem 5 zeroRand zeroRand) = VNum 1
  /\ forall rs, generateOptions (1 * 1) 5 rs = None.
Proof. apply (one_times_one_gets_no_options 5 zeroRand zeroRand); [lia | |]; reflexivity. Defined.

End GeneratorFacts.

(* ===================================================================== *)
(** * Further properties of the score formula *)
(* ===================================================================== *)

Module ScoreFacts.

Lemma allGames_complete (g : Variant) : In g allGames.
Proof. destruct g; simpl; tauto. Qed.

Lemma pointsFor_step (g : Variant) (t d : Z) :
  1 <= t <= 600 -> 1 <= d <= 10 ->
  pointsFor g t d <= pointsFor g (t + 1) d /\ pointsFor g t d <= pointsFor g t (d + 1).
Proof.
  intros Ht Hd.
  assert (Hgrid : grid (fun t d =>
            forallb (fun g => (pointsFor g t d <=? pointsFor g (t + 1) d)
                              && (pointsFor g t d <=? pointsFor g t (d + 1))) allGames)
            600 10 = true)
    by (vm_compute; reflexivity).
  pose proof (grid_spec _ _ _ Hgrid t d ltac:(simpl; lia) ltac:(simpl; lia)) as H.
  cbv beta in H. rewrite forallb_forall in H. specialize (H g (allGames_complete g)).
  apply andb_true_iff in H. destruct H as [H1 H2]. split; now apply Z.leb_le.
Qed.

Lemma pointsFor_mono_t (g : Variant) (d : Z) (n : nat) :
  forall t, 1 <= t -> t + Z.of_nat n <= 601 -> 1 <= d <= 10 ->
    pointsFor g t d <= pointsFor g (t + Z.of_nat n) d.
Proof.
  induction n as [|n IH]; intros t Ht Hn Hd.
  - rewrite Z.add_0_r. lia.
  - specialize (IH t Ht ltac:(lia) Hd).
    destruct (pointsFor_step g (t + Z.of_nat n) d ltac:(lia) Hd) as [Hstep _].
    replace (t + Z.of_nat (S n)) with (t + Z.of_nat n + 1) by lia. lia.
Qed.

Lemma pointsFor_mono_d (g : Variant) (t : Z) (n : nat) :
  forall d, 1 <= d -> d + Z.of_nat n <= 11 -> 1 <= t <= 600 ->
    pointsFor g t d <= pointsFor g t (d + Z.of_nat n).
Proof.
  induction n as [|n IH]; intros d Hd Hn Ht.
  - rewrite Z.add_0_r. lia.
  - specialize (IH d Hd ltac:(lia) Ht).
    destruct (pointsFor_step g t (d + Z.of_nat n) Ht ltac:(lia)) as [_ Hstep].
    replace (d + Z.of_nat (S n)) with (d + Z.of_nat n + 1) by lia. lia.
Qed.

(** The points of a correct answer never go down when more time is left
    or the difficulty is higher, in all four games, on clocks up to 600
    seconds and difficulties up to 10: the rounding of [0.3] never makes a
    faster answer worth less. *)
Theorem points_monotone (g : Variant) (t t' d d' : Z) :
  1 <= t <= t' -> t' <= 600 -> 1 <= d <= d' -> d' <= 10 ->
  1 <= pointsFor g t d <= pointsFor g t' d'.
Proof.
  intros Ht Ht' Hd Hd'. split; [unfold pointsFor; lia |].
  pose proof (pointsFor_mono_t g d (Z.to_nat (t' - t)) t ltac:(lia) ltac:(lia) ltac:(lia)) as H1.
  pose proof (pointsFor_mono_d g t' (Z.to_nat (d' - d)) d ltac:(lia) ltac:(lia) ltac:(lia)) as H2.
  replace (t + Z.of_nat (Z.to_nat (t' - t))) with t' in H1 by lia.
  replace (d + Z.of_nat (Z.to_nat (d' - d))) with d' in H2 by lia.
  lia.
Qed.

Lemma points_monotone_witness :
  1 <= pointsFor AnimalGame 10 3 <= pointsFor AnimalGame 30 3.
Proof. apply (points_monotone AnimalGame 10 30 3 3); lia. Defined.

(** At difficulty 1 and 2 the rounding of [0.3] never shows: on every
    clock up to 600 seconds all four games award exactly
    [max(1, floor(t * d / 2))], respectively [max(1, floor(3 * t * d / 10))]. *)
Theorem points_exact_at_low_difficulty (g : Variant) (t d : Z) :
  1 <= t <= 600 -> 1 <= d <= 2 ->
  pointsFor g t d
  = match g with
    | MultiplicationGame | WordMathGame => Z.max 1 (t * d / 2)
    | OppositesGame | AnimalGame => Z.max 1 (3 * t * d / 10)
    end.
Proof.
  intros Ht Hd.
  assert (Hgrid : grid (fun t d =>
            forallb (fun g => pointsFor g t d
                              =? match g with
                                 | MultiplicationGame | WordMathGame => Z.max 1 (t * d / 2)
                                 | OppositesGame | AnimalGame => Z.max 1 (3 * t * d / 10)
                                 end) allGames)
            600 2 = true)
    by (vm_compute; reflexivity).
  pose proof (grid_spec _ _ _ Hgrid t d ltac:(simpl; lia) ltac:(simpl; lia)) as H.
  cbv beta in H. rewrite forallb_forall in H. specialize (H g (allGames_complete g)).
  now apply Z.eqb_eq.
Qed.

Lemma points_exact_at_low_difficulty_witness :
  pointsFor OppositesGame 20 2 = Z.max 1 (3 * 20 * 2 / 10).
Proof. apply (points_exact_at_low_difficulty OppositesGame 20 2); lia. Defined.

End ScoreFacts.

(* ===================================================================== *)
(** * The life of a mounted game component *)
(* ===================================================================== *)

Module SessionLifeFacts.
Import RoundSession RoundSessionFacts.

Lemma timerEffect_frame (p : Props) (s : Session) :
  exists v, timerEffect p s = setTimerRef v s.
Proof.
  destruct (timerIdle p s) eqn:Hidle.
  - exists None. now apply timerEffect_idle.
  - exists (Some (timeLeft s)). now rewrite timerEffect_busy.
Qed.

Lemma reportsOnce_same (s s' : Session) :
  selectedOption s' = selectedOption s -> completionRef s' = completionRef s ->
  completed s' = completed s -> reportsOnce s -> reportsOnce s'.
Proof. unfold reportsOnce. intros -> -> ->. tauto. Qed.

Lemma reportsOnce_cleared (s s' : Session) :
  selectedOption s' = selectedOption s -> completionRef s' = None ->
  completed s' = completed s -> reportsOnce s -> reportsOnce s'.
Proof.
  unfold reportsOnce. intros -> -> -> (H1 & H2 & H3). split; [| split].
  - intros Hsel. split; [reflexivity | apply H1, Hsel].
  - intros Hn. now contradiction Hn.
  - exact H3.
Qed.

Lemma timeoutIdle_problem (s : Session) :
  mountedRef s = true -> timeoutIdle s = false -> exists pr, problem s = Some pr.
Proof.
  intros Hm Hidle. destruct (problem s) as [pr|] eqn:Hpr; [eauto |].
  unfold timeoutIdle in Hidle. rewrite Hpr, Hm in Hidle. cbn in Hidle. discriminate.
Qed.

Lemma commit_reportsOnce (p : Props) (s : Session) :
  reportsOnce s -> reportsOnce (commit p s).
Proof.
  intros Hs. destruct (mountedRef s) eqn:Hm; [| now rewrite commit_unmounted].
  destruct (timeoutIdle s) eqn:Hidle.
  - rewrite commit_no_timeout by assumption. destruct (timerEffect_frame p s) as [v ->].
    revert Hs. apply reportsOnce_same; reflexivity.
  - destruct (timeoutIdle_problem s Hm Hidle) as [pr Hpr].
    rewrite (commit_timeout p s pr) by assumption.
    destruct Hs as (H1 & H2 & H3). unfold reportsOnce. fields.
    split; [intros Hsel; discriminate Hsel |].
    split; [intros Hn; now contradiction Hn | exact H3].
Qed.

Lemma selectIgnored_unselected (s : Session) :
  selectIgnored s = false -> selectedOption s = None.
Proof.
  unfold selectIgnored. destruct (selectedOption s); [cbn; discriminate | reflexivity].
Qed.

Lemma handleOptionSelect_reportsOnce (p : Props) (opt : Value) (s : Session) :
  selectIgnored s = false -> reportsOnce s -> reportsOnce (handleOptionSelect p opt s).
Proof.
  intros Hign Hs. unfold handleOptionSelect. rewrite Hign.
  destruct (problem s) as [pr|]; [| exact Hs].
  destruct Hs as (H1 & _ & _).
  destruct (H1 (selectIgnored_unselected s Hign)) as [_ Hlog].
  cbv zeta. unfold reportsOnce. fields. rewrite Hlog.
  split; [intros Hsel; discriminate Hsel |].
  split; [intros _; reflexivity | cbn; lia].
Qed.

Lemma step_reportsOnce (p : Props) (s : Session) (e : Event) :
  delivered e -> reportsOnce s -> reportsOnce (step p s e).
Proof.
  intros He Hs. destruct e as [opt | | | | t | pts c]; cbn [step]; cbv zeta;
    try contradiction.
  - destruct (selectIgnored s) eqn:Hign; [exact Hs |].
    now apply commit_reportsOnce, handleOptionSelect_reportsOnce.
  - destruct (timerRef s) as [t|]; [| exact Hs].
    assert (Hs' : reportsOnce (setTimerRef None s))
      by (revert Hs; apply reportsOnce_same; reflexivity).
    destruct (timerRuns p t (setTimerRef None s)) eqn:Hruns; [| exact Hs'].
    apply commit_reportsOnce. unfold timerCallback. rewrite Hruns.
    revert Hs'. apply reportsOnce_same; reflexivity.
  - destruct (completionRef s) as [[pts c]|] eqn:Hc; [| exact Hs].
    unfold completionCallback. fields. destruct (mountedRef s).
    + destruct Hs as (H1 & H2 & H3).
      assert (Hlog : completed s = []) by (apply H2; congruence).
      unfold reportsOnce. fields. rewrite Hlog.
      split; [intros Hsel; destruct (H1 Hsel); congruence |].
      split; [intros Hn; now contradiction Hn | cbn; lia].
    + revert Hs. apply reportsOnce_cleared; reflexivity.
  - revert Hs. apply reportsOnce_cleared; reflexivity.
Qed.

Lemma run_reportsOnce (p : Props) (es : list Event) :
  forall s, Forall delivered es -> reportsOnce s -> reportsOnce (run p s es).
Proof.
  induction es as [|e es IH]; intros s Hes Hs; [exact Hs |].
  apply Forall_cons in Hes as [He Hes]. cbn [run fold_left]. apply IH; [exact Hes |].
  now apply step_reportsOnce.
Qed.

Lemma initializeGame_fresh (p : Props) (gen : Generation) :
  let s := initializeGame p gen (initialSession p) in
  selectedOption s = None /\ completionRef s = None /\ completed s = []
  /\ mountedRef s = true /\ timeLeft s = timerDuration p /\ timerRef s = None.
Proof.
  destruct gen as [pr opts | | pr]; unfold initializeGame, catchBlock, initialSession; cbn.
  - repeat split.
  - repeat split.
  - destruct (game p); cbn; repeat split.
Qed.

Lemma mount_reportsOnce (p : Props) (gen : Generation) : reportsOnce (mount p gen).
Proof.
  unfold mount. apply commit_reportsOnce.
  destruct (initializeGame_fresh p gen) as (Hsel & Hc & Hlog & _). cbv zeta in *.
  unfold reportsOnce. rewrite Hc, Hlog.
  split; [intros _; split; reflexivity |]. split; [intros _; reflexivity | cbn; lia].
Qed.

(** A mounted game component calls [onComplete] once at most, whatever
    was generated at mount and in whatever order clicks, timers and the
    unmount follow. *)
Theorem at_most_one_completion (p : Props) (gen : Generation) (es : list Event) :
  Forall delivered es ->
  (length (completed (run p (mount p gen) es)) <= 1)%nat.
Proof.
  intros Hes. apply (run_reportsOnce p es (mount p gen) Hes (mount_reportsOnce p gen)).
Qed.

Lemma at_most_one_completion_witness :
  let p := mkProps OppositesGame 3 1 in
  (length (completed
             (run p (mount p (Generated (OppositesPair "big" "small")
                                [VStr "cold"; VStr "small"; VStr "down"; VStr "slow"]))
                [TimerFires; Select (VStr "small"); Select (VStr "cold"); CompletionFires;
                 TimerFires; CompletionFires; Select (VStr "down"); Unmount])) <= 1)%nat.
Proof.
  apply (at_most_one_completion (mkProps OppositesGame 3 1)).
  repeat constructor.
Defined.

Lemma commit_locked (p : Props) (s : Session) :
  selectedOption s <> None -> board (commit p s) = board s.
Proof.
  intros Hsel. destruct (mountedRef s) eqn:Hm; [| now rewrite commit_unmounted].
  assert (Hnn : notNull (selectedOption s) = true)
    by (destruct (selectedOption s); [reflexivity | congruence]).
  rewrite commit_no_timeout by (try apply timeoutIdle_selected; assumption).
  now destruct (timerEffect_frame p s) as [v ->].
Qed.

Lemma step_locked (p : Props) (s : Session) (e : Event) :
  selectedOption s <> None -> board (step p s e) = board s.
Proof.
  intros Hsel.
  assert (Hign : selectIgnored s = true).
  { unfold selectIgnored. destruct (selectedOption s); [reflexivity | congruence]. }
  destruct e as [opt | | | | t | pts c]; cbn [step]; cbv zeta.
  - now rewrite Hign.
  - destruct (timerRef s) as [t|]; [| reflexivity].
    destruct (timerRuns p t (setTimerRef None s)) eqn:Hruns; [| reflexivity].
    unfold timerCallback. rewrite Hruns. now rewrite commit_locked.
  - destruct (completionRef s) as [[pts c]|]; [| reflexivity].
    unfold completionCallback. fields. now destruct (mountedRef s).
  - reflexivity.
  - destruct (timerRuns p t s) eqn:Hruns; [| reflexivity].
    unfold timerCallback. rewrite Hruns. now rewrite commit_locked.
  - unfold completionCallback. now destruct (mountedRef s).
Qed.

Lemma board_selectedOption (s s' : Session) :
  board s' = board s -> selectedOption s' = selectedOption s.
Proof. unfold board. congruence. Qed.

Lemma board_render (s s' : Session) : board s' = board s -> render s' = render s.
Proof. unfold board, render. intros [= -> -> -> _ _ _]. reflexivity. Qed.

Lemma commit_idle_board (p : Props) (s : Session) :
  timeoutIdle s = true -> board (commit p s) = board s.
Proof.
  intros Hidle. destruct (mountedRef s) eqn:Hm; [| now rewrite commit_unmounted].
  rewrite commit_no_timeout by assumption.
  now destruct (timerEffect_frame p s) as [v ->].
Qed.

Lemma selected_timeoutIdle (s : Session) : selectedOption s <> None -> timeoutIdle s = true.
Proof.
  intros Hsel. apply timeoutIdle_selected.
  destruct (selectedOption s); [reflexivity | congruence].
Qed.

Lemma rerender_same_question (p p' : Props) (pr : Problem) (opts : list Value) (s : Session) :
  reinitializes p p' = false -> selectedOption s <> None -> rerender p p' pr opts s = s.
Proof.
  intros Hre Hsel. unfold rerender. rewrite Hre, (selected_timeoutIdle s Hsel).
  now destruct (mountedRef s).
Qed.

Lemma rerender_new_question (p p' : Props) (pr : Problem) (opts : list Value) (s : Session) :
  reinitializes p p' = true -> mountedRef s = true -> selectedOption s <> None ->
  1 <= timerDuration p' ->
  board (rerender p p' pr opts s) = (true, Some pr, opts, None, None, score s).
Proof.
  intros Hre Hm Hsel HD. unfold rerender. rewrite Hre, Hm, (selected_timeoutIdle s Hsel).
  cbn [negb]. unfold initializeGame, restartMountEffect. fields.
  rewrite commit_idle_board; [reflexivity |].
  unfold timeoutIdle. fields. destruct (Z.ltb_spec 0 (timerDuration p')); [reflexivity | lia].
Qed.

Lemma pool_games_keep_the_question (p : Props) (s : Session) (steps : list LifeStep) :
  game p = AnimalGame \/ game p = OppositesGame ->
  selectedOption s <> None ->
  Forall (keepsTimer (timerDuration p)) steps ->
  board (snd (runLife p s steps)) = board s.
Proof.
  intros Hg Hsel Hsteps. unfold runLife.
  assert (Hgen : forall p0 s0,
             game p0 = game p -> timerDuration p0 = timerDuration p -> board s0 = board s ->
             board (snd (fold_left lifeStep steps (p0, s0))) = board s).
  { induction Hsteps as [|x steps Hx Hsteps IH]; intros p0 s0 Hg0 Ht0 Hb0; [exact Hb0 |].
    assert (Hsel0 : selectedOption s0 <> None)
      by (rewrite (board_selectedOption _ _ Hb0); exact Hsel).
    cbn [fold_left lifeStep]. destruct x as [e | t d pr opts].
    - apply IH; [exact Hg0 | exact Ht0 |].
      now rewrite (step_locked p0 s0 e Hsel0).
    - cbn in Hx. subst t.
      rewrite rerender_same_question; [apply IH; [exact Hg0 | reflexivity | exact Hb0] | |
                                       exact Hsel0].
      unfold reinitializes. cbn [timerDuration difficulty game]. rewrite Ht0, Z.eqb_refl.
      rewrite Hg0. now destruct Hg as [-> | ->]. }
  now apply Hgen.
Qed.

(** A mounted game sets up a second question only when [initializeGame]
    changes.  AnimalGame and OppositesGame: once an option is selected (by
    a click or by the timeout), the question, the options, the selection,
    its verdict and the score stay as they are under every later event and
    every render in which the parent passes another [difficulty] with the
    same [timerDuration]; the pool games do not set up a new round for the
    next player's turn.  MultiplicationGame and WordMathGame get a new
    [initializeGame] with every other [difficulty], every game with another
    [timerDuration], and the render then shows the newly generated
    question with nothing selected. *)
Theorem second_question_needs_reinitialisation (p : Props) (s : Session) :
  mountedRef s = true ->
  selectedOption s <> None ->
  (game p = AnimalGame \/ game p = OppositesGame ->
   forall steps, Forall (keepsTimer (timerDuration p)) steps ->
     board (snd (runLife p s steps)) = board s
     /\ render (snd (runLife p s steps)) = render s)
  /\ (game p = MultiplicationGame \/ game p = WordMathGame ->
      forall d, d <> difficulty p ->
        reinitializes p (mkProps (game p) (timerDuration p) d) = true)
  /\ (forall t d, t <> timerDuration p -> reinitializes p (mkProps (game p) t d) = true)
  /\ (forall p' pr opts,
        reinitializes p p' = true -> 1 <= timerDuration p' ->
        board (rerender p p' pr opts s) = (true, Some pr, opts, None, None, score s)
        /\ render (rerender p p' pr opts s) = Question pr opts).
Proof.
  intros Hm Hsel. split; [| split; [| split]].
  - intros Hg steps Hsteps.
    pose proof (pool_games_keep_the_question p s steps Hg Hsel Hsteps) as Hb.
    split; [exact Hb | now apply board_render].
  - intros Hg d Hd. unfold reinitializes. cbn [timerDuration difficulty].
    rewrite Z.eqb_refl. cbn [negb orb].
    destruct (Z.eqb_spec d (difficulty p)) as [-> | _]; [now contradiction Hd |].
    now destruct Hg as [-> | ->].
  - intros t d Ht. unfold reinitializes. cbn [timerDuration].
    destruct (Z.eqb_spec t (timerDuration p)) as [-> | _]; [now contradiction Ht | reflexivity].
  - intros p' pr opts Hre HD.
    pose proof (rerender_new_question p p' pr opts s Hre Hm Hsel HD) as Hb.
    split; [exact Hb |]. unfold board in Hb. unfold render.
    injection Hb as -> -> -> _ _ _. reflexivity.
Qed.

Lemma second_question_needs_reinitialisation_witness :
  let p := mkProps AnimalGame 20 1 in
  let s := run p (mount p (Generated (Animal "dog")
                             [VStr "cat"; VStr "dog"; VStr "lion"; VStr "bear"]))
             [Select (VStr "dog"); CompletionFires] in
  (game p = AnimalGame \/ game p = OppositesGame ->
   forall steps, Forall (keepsTimer (timerDuration p)) steps ->
     board (snd (runLife p s steps)) = board s
     /\ render (snd (runLife p s steps)) = render s)
  /\ (game p = MultiplicationGame \/ game p = WordMathGame ->
      forall d, d <> difficulty p ->
        reinitializes p (mkProps (game p) (timerDuration p) d) = true)
  /\ (forall t d, t <> timerDuration p -> reinitializes p (mkProps (game p) t d) = true)
  /\ (forall p' pr opts,
        reinitializes p p' = true -> 1 <= timerDuration p' ->
        board (rerender p p' pr opts s) = (true, Some pr, opts, None, None, score s)
        /\ render (rerender p p' pr opts s) = Question pr opts).
Proof.
  apply (second_question_needs_reinitialisation (mkProps AnimalGame 20 1)).
  - vm_compute. reflexivity.
  - vm_compute. discriminate.
Defined.

Lemma clockInRange_same (p : Props) (s s' : Session) :
  timeLeft s' = timeLeft s -> timerRef s' = timerRef s ->
  clockInRange p s -> clockInRange p s'.
Proof. unfold clockInRange. intros -> ->. tauto. Qed.

Lemma clockInRange_cleared (p : Props) (s s' : Session) :
  timeLeft s' = timeLeft s -> timerRef s' = None ->
  clockInRange p s -> clockInRange p s'.
Proof.
  unfold clockInRange. intros -> -> [Hr _]. split; [exact Hr |]. intros t Ht. discriminate Ht.
Qed.

Lemma timerIdle_positive (p : Props) (s : Session) :
  timerIdle p s = false -> game p = OppositesGame \/ 0 < timeLeft s.
Proof.
  unfold timerIdle. intros Hidle.
  destruct (game p); [now left | right ..];
    (destruct (Z.leb_spec (timeLeft s) 0) as [Hle | Hlt]; [| exact Hlt]);
    rewrite orb_true_r in Hidle; cbn in Hidle; discriminate.
Qed.

Lemma commit_clock (p : Props) (s : Session) :
  mountedRef s = true -> 0 <= timeLeft s <= timerDuration p -> clockInRange p (commit p s).
Proof.
  intros Hm Hr. destruct (timeoutIdle s) eqn:Hidle.
  - rewrite commit_no_timeout by assumption.
    destruct (timerIdle p s) eqn:Hbusy.
    + rewrite timerEffect_idle by exact Hbusy. unfold clockInRange. fields.
      split; [exact Hr |]. intros t Ht. discriminate Ht.
    + rewrite timerEffect_busy by exact Hbusy. unfold clockInRange. fields.
      split; [exact Hr |]. intros t [= <-]. split; [reflexivity |].
      now apply (timerIdle_positive p).
  - destruct (timeoutIdle_problem s Hm Hidle) as [pr Hpr].
    rewrite (commit_timeout p s pr) by assumption. unfold clockInRange. fields.
    split; [exact Hr |]. intros t Ht. discriminate Ht.
Qed.

Lemma timerRuns_positive (p : Props) (t : Z) (s : Session) :
  timerRuns p t s = true ->
  mountedRef s = true /\ (game p = OppositesGame -> 0 < t).
Proof.
  unfold timerRuns. destruct (game p); intros Hruns;
    try (split; [exact Hruns | discriminate]).
  apply andb_true_iff in Hruns. destruct Hruns as [Hm Ht]. split; [exact Hm |].
  intros _. now apply Z.ltb_lt.
Qed.

Lemma step_clock (p : Props) (s : Session) (e : Event) :
  delivered e -> clockInRange p s -> clockInRange p (step p s e).
Proof.
  intros He Hs. destruct e as [opt | | | | t | pts c]; cbn [step]; cbv zeta;
    try contradiction.
  - destruct (selectIgnored s) eqn:Hign; [exact Hs |].
    assert (Hframe : timeLeft (handleOptionSelect p opt s) = timeLeft s
                     /\ timerRef (handleOptionSelect p opt s) = timerRef s
                     /\ mountedRef (handleOptionSelect p opt s) = mountedRef s).
    { unfold handleOptionSelect. rewrite Hign. destruct (problem s); repeat split. }
    destruct Hframe as (Ht & Hr & Hm).
    destruct (mountedRef s) eqn:Hmounted.
    + apply commit_clock; [congruence |]. rewrite Ht. exact (proj1 Hs).
    + rewrite commit_unmounted by congruence. revert Hs. now apply clockInRange_same.
  - destruct (timerRef s) as [t|] eqn:Ht; [| exact Hs].
    destruct (proj2 Hs t Ht) as [-> Hpos].
    assert (Hs' : clockInRange p (setTimerRef None s))
      by (revert Hs; apply clockInRange_cleared; reflexivity).
    destruct (timerRuns p (timeLeft s) (setTimerRef None s)) eqn:Hruns; [| exact Hs'].
    unfold timerCallback. rewrite Hruns.
    apply timerRuns_positive in Hruns. destruct Hruns as [Hm Hopp].
    assert (0 < timeLeft s) by (destruct Hpos as [Hg | Hpos]; auto).
    destruct Hs as [Hr _].
    apply commit_clock; [exact Hm |]. fields. lia.
  - destruct (completionRef s) as [[pts c]|]; [| exact Hs].
    unfold completionCallback. fields.
    destruct (mountedRef s); revert Hs; now apply clockInRange_same.
  - revert Hs. apply clockInRange_cleared; reflexivity.
Qed.

(** The clock of a session never leaves the range from 0 to the timer
    duration, in all four games (OppositesGame schedules its countdown
    timer without looking at the clock, but the callback tests it). *)
Theorem clock_stays_in_range (p : Props) (gen : Generation) (es : list Event) :
  0 <= timerDuration p ->
  Forall delivered es ->
  0 <= timeLeft (run p (mount p gen) es) <= timerDuration p.
Proof.
  intros HD Hes.
  assert (Hmount : clockInRange p (mount p gen)).
  { unfold mount. destruct (initializeGame_fresh p gen) as (_ & _ & _ & Hm & Ht & _).
    cbv zeta in *. apply commit_clock; [exact Hm | lia]. }
  assert (Hrun : forall s, clockInRange p s -> clockInRange p (run p s es)).
  { induction Hes as [|e es He Hes IH]; intros s Hs; [exact Hs |].
    cbn [run fold_left]. apply IH. now apply step_clock. }
  exact (proj1 (Hrun _ Hmount)).
Qed.

Lemma clock_stays_in_range_witness :
  let p := mkProps OppositesGame 2 1 in
  0 <= timeLeft (run p (mount p (Generated (OppositesPair "big" "small")
                                   [VStr "cold"; VStr "small"; VStr "down"; VStr "slow"]))
                   [TimerFires; TimerFires; TimerFires; CompletionFires; TimerFires])
  <= 2.
Proof.
  apply (clock_stays_in_range (mkProps OppositesGame 2 1)).
  - cbn. lia.
  - repeat constructor.
Defined.

End SessionLifeFacts.

(* ===================================================================== *)
(** * A round of AnimalGame or OppositesGame, from the pool to the report *)
(* ===================================================================== *)

Module PoolRoundFacts.
Import RoundSession RoundSessionFacts.

Lemma commit_options (p : Props) (s : Session) : options (commit p s) = options s.
Proof.
  destruct (mountedRef s) eqn:Hm; [| now rewrite commit_unmounted].
  destruct (timeoutIdle s) eqn:Hidle.
  - rewrite commit_no_timeout by assumption.
    now destruct (SessionLifeFacts.timerEffect_frame p s) as [v ->].
  - destruct (SessionLifeFacts.timeoutIdle_problem s Hm Hidle) as [pr Hpr].
    now rewrite (commit_timeout p s pr) by assumption.
Qed.

Lemma mount_render (p : Props) (pr : Problem) (opts : list Value) :
  1 <= timerDuration p -> render (mount p (Generated pr opts)) = Question pr opts.
Proof.
  intros HD. destruct (mount_ticking p pr opts HD) as (Hgi & Hpr & _).
  unfold render. rewrite Hpr, Hgi. f_equal. unfold mount. now rewrite commit_options.
Qed.

(** AnimalGame and OppositesGame at a difficulty of at least 1: the
    mounted component shows the generated question with four distinct
    options, exactly one of which is the right one; a click on it reports
    the points of the full clock, a click on any other reports 0 points. *)
Theorem pool_round_has_one_right_option (p : Props) (rs : list Rand) (g : Generation) :
  (game p = AnimalGame /\ AnimalPool.generate (difficulty p) rs = Some g)
  \/ (game p = OppositesGame /\ OppositesPool.generate (difficulty p) rs = Some g) ->
  1 <= difficulty p -> 1 <= timerDuration p ->
  exists pr opts,
    render (mount p g) = Question pr opts
    /\ fourWithAnswer pr opts
    /\ forall opt,
         completed (run p (mount p g) [Select opt; CompletionFires])
         = [(if bool_decide (opt = answer pr)
             then pointsFor (game p) (timerDuration p) (difficulty p) else 0,
             bool_decide (opt = answer pr))].
Proof.
  intros Hgen Hd HD.
  assert (Hq : exists pr opts, g = Generated pr opts /\ fourWithAnswer pr opts).
  { destruct Hgen as [[_ Hrun] | [_ Hrun]].
    - destruct (PoolFacts.animal_generate_wf _ _ _ Hd Hrun) as (a & opts & -> & _ & H4 & _).
      eauto.
    - destruct (PoolFacts.opposites_generate_wf _ _ _ Hd Hrun) as (q & opts & -> & _ & H4 & _).
      eauto. }
  destruct Hq as (pr & opts & -> & H4). exists pr, opts.
  split; [now apply mount_render |]. split; [exact H4 |].
  intros opt.
  destruct (select_then_complete p pr (timerDuration p) 0 [] _ opt (mount_ticking p pr opts HD))
    as (Hlog & _).
  cbv zeta in Hlog. rewrite Hlog. now destruct (bool_decide (opt = answer pr)).
Qed.

Lemma pool_round_has_one_right_option_witness :
  let p := mkProps AnimalGame 20 1 in
  let g := Generated (Animal "monkey") [VStr "dog"; VStr "cat"; VStr "elephant"; VStr "monkey"] in
  exists pr opts,
    render (mount p g) = Question pr opts
    /\ fourWithAnswer pr opts
    /\ forall opt,
         completed (run p (mount p g) [Select opt; CompletionFires])
         = [(if bool_decide (opt = answer pr) then pointsFor AnimalGame 20 1 else 0,
             bool_decide (opt = answer pr))].
Proof.
  apply (pool_round_has_one_right_option (mkProps AnimalGame 20 1) (repeat randPlus 30)).
  - left. split; [reflexivity | vm_compute; reflexivity].
  - cbn. lia.
  - cbn. lia.
Defined.

End PoolRoundFacts.

(* ===================================================================== *)
(** * Bookkeeping of a match *)
(* ===================================================================== *)

Module MatchFacts.
Import App AppFacts.

(** The player array after a round completion: the entry of the player
    whose turn it was is replaced, nothing else. *)
Lemma complete_players (st : State) (c : Completion) (pl : Player) :
  players st !! currentPlayerIndex st = Some pl ->
  let counted := if correct c then correctAnswers pl + 1 else correctAnswers pl in
  let seen := match sched c with Queued => correctAnswers pl | Eager => counted end in
  let up := correct c && ((level pl * 5 <=? seen) && (level pl <? 10)) in
  players (complete st c)
  = <[currentPlayerIndex st :=
        mkPlayer (name pl) (age pl) (grade pl) (score pl + points c)
          (if up then level pl + 1 else level pl) counted]> (players st).
Proof.
  intros Hpl counted seen up.
  set (index := currentPlayerIndex st) in *.
  set (updated := scoreUpdater index (points c) (correct c) (players st)).
  pose proof (scoreUpdater_lookup index (points c) (correct c) _ _ Hpl) as Hupd.
  fold updated in Hupd. fold counted in Hupd.
  set (visible := match sched c with Eager => updated | Queued => players st end).
  change (players (complete st c))
    with (if correct c && checkForLevelUp visible index
          then levelUpdater index updated else updated).
  assert (Hcheck : checkForLevelUp visible index
                   = (level pl * 5 <=? seen) && (level pl <? 10)).
  { unfold checkForLevelUp, visible, seen.
    destruct (sched c); [rewrite Hpl | rewrite Hupd]; reflexivity. }
  rewrite Hcheck. fold up.
  assert (Hupdated : updated
                     = <[index := mkPlayer (name pl) (age pl) (grade pl) (score pl + points c)
                                    (level pl) counted]> (players st)).
  { unfold updated, scoreUpdater. now rewrite Hpl. }
  destruct up.
  - unfold levelUpdater. rewrite Hupd. rewrite Hupdated.
    now rewrite list_insert_insert_eq.
  - exact Hupdated.
Qed.

Lemma complete_players_missing (st : State) (c : Completion) :
  players st !! currentPlayerIndex st = None -> players (complete st c) = players st.
Proof.
  intros Hpl.
  set (index := currentPlayerIndex st) in *.
  set (updated := scoreUpdater index (points c) (correct c) (players st)).
  assert (Hupdated : updated = players st) by (unfold updated, scoreUpdater; now rewrite Hpl).
  set (visible := match sched c with Eager => updated | Queued => players st end).
  change (players (complete st c))
    with (if correct c && checkForLevelUp visible index
          then levelUpdater index updated else updated).
  assert (Hcheck : checkForLevelUp visible index = false).
  { unfold checkForLevelUp, visible. destruct (sched c); rewrite ?Hupdated, Hpl; reflexivity. }
  rewrite Hcheck, andb_false_r. exact Hupdated.
Qed.






Lemma play_cons (st : State) (c : Completion) (cs : list Completion) :
  play st (c :: cs) = play (complete st c) cs.
Proof. reflexivity. Qed.

Lemma results_stay (cs : list Completion) :
  forall st, gameState st = results -> gameState (play st cs) = results.
Proof.
  induction cs as [|c cs IH]; intros st Hst; [exact Hst |].
  rewrite play_cons. apply IH.
  destruct (complete_turn st c) as (_ & _ & -> & _). rewrite Hst. now destruct (_ <=? _).
Qed.

Lemma play_turns (cs : list Completion) :
  forall st, (currentPlayerIndex st <= 1)%nat ->
    roundsPlayed (play st cs) = roundsPlayed st + Z.of_nat (length cs)
    /\ currentPlayerIndex (play st cs)
       = (if Nat.even (length cs) then currentPlayerIndex st else 1 - currentPlayerIndex st)%nat
    /\ gameSettings (play st cs) = gameSettings st.
Proof.
  induction cs as [|c cs IH]; intros st Hidx.
  - cbn. rewrite Z.add_0_r. repeat split.
  - rewrite play_cons.
    destruct (complete_turn st c) as (Hi & Hr & _ & Hset).
    assert (Hswap : currentPlayerIndex (complete st c) = (1 - currentPlayerIndex st)%nat).
    { rewrite Hi. destruct (currentPlayerIndex st) as [|[|n]]; cbn; lia. }
    destruct (IH (complete st c) ltac:(lia)) as (IHr & IHi & IHset).
    rewrite IHr, IHi, IHset, Hr, Hset, Hswap. split; [| split; [| reflexivity]].
    + cbn [length]. lia.
    + change (length (c :: cs)) with (S (length cs)).
      rewrite Nat.even_succ, <- Nat.negb_even.
      destruct (Nat.even (length cs)); cbn [negb]; [reflexivity |].
      destruct (currentPlayerIndex st) as [|[|n]]; cbn; lia.
Qed.

Lemma play_results (cs : list Completion) :
  forall st, gameState st <> results ->
    (gameState (play st cs) = results
     <-> cs <> [] /\ totalRounds (gameSettings st) <= roundsPlayed st + Z.of_nat (length cs))
    /\ (gameState (play st cs) <> results -> gameState (play st cs) = gameState st).
Proof.
  induction cs as [|c cs IH]; intros st Hgs.
  - cbn. split; [| reflexivity]. split; [intros H; now contradiction Hgs |].
    intros [H _]. now contradiction H.
  - rewrite play_cons.
    destruct (complete_turn st c) as (_ & Hr & Hg & Hset).
    destruct (Z.leb_spec (totalRounds (gameSettings st)) (roundsPlayed st + 1)) as [Hend | Hgo].
    + pose proof (results_stay cs _ Hg) as Hres. split.
      * split; [intros _; split; [discriminate | cbn [length]; lia] | intros _; exact Hres].
      * intros Hn. now contradiction Hn.
    + assert (Hgs' : gameState (complete st c) <> results) by (rewrite Hg; exact Hgs).
      destruct (IH (complete st c) Hgs') as (IHg & IHsame).
      rewrite Hr, Hset in IHg. rewrite Hg in IHsame. split; [| exact IHsame].
      rewrite IHg. split.
      * intros [Hne Hle]. split; [discriminate | cbn [length]; lia].
      * intros [_ Hle]. split; [| cbn [length] in Hle; lia].
        intros ->. cbn [length] in Hle. lia.
Qed.

(** The round counter counts the completions, the turn passes to the other
    player with every completion, and the match is over exactly from the
    completion on with which the counter reaches [totalRounds] (with the
    first completion when [totalRounds] is 1 or less); until then the game
    stays the one that was chosen at the start. *)
Theorem match_ends_at_total_rounds (st : State) (cs : list Completion) :
  gameState st <> results ->
  (currentPlayerIndex st <= 1)%nat ->
  let st' := play st cs in
  roundsPlayed st' = roundsPlayed st + Z.of_nat (length cs)
  /\ currentPlayerIndex st'
     = (if Nat.even (length cs) then currentPlayerIndex st else 1 - currentPlayerIndex st)%nat
  /\ (gameState st' = results
      <-> cs <> [] /\ totalRounds (gameSettings st) <= roundsPlayed st + Z.of_nat (length cs))
  /\ (gameState st' <> results -> gameState st' = gameState st).
Proof.
  intros Hgs Hidx. cbv zeta.
  destruct (play_turns cs st Hidx) as (Hr & Hi & _).
  destruct (play_results cs st Hgs) as (Hg & Hsame).
  repeat split; try assumption; now apply Hg.
Qed.

Lemma match_ends_at_total_rounds_witness :
  let st := started defaultPlayers (mkSettings 20 4 1) randPlus in
  let cs := correctRounds Queued 4 in
  let st' := play st cs in
  roundsPlayed st' = roundsPlayed st + Z.of_nat (length cs)
  /\ currentPlayerIndex st'
     = (if Nat.even (length cs) then currentPlayerIndex st else 1 - currentPlayerIndex st)%nat
  /\ (gameState st' = results
      <-> cs <> [] /\ totalRounds (gameSettings st) <= roundsPlayed st + Z.of_nat (length cs))
  /\ (gameState st' <> results -> gameState st' = gameState st).
Proof.
  apply (match_ends_at_total_rounds (started defaultPlayers (mkSettings 20 4 1) randPlus)).
  - vm_compute. discriminate.
  - vm_compute. lia.
Defined.

Lemma totalScore_insert (ps : list Player) :
  forall (i : nat) (pl pl' : Player),
    ps !! i = Some pl ->
    totalScore (<[i := pl']> ps) = totalScore ps - score pl + score pl'.
Proof.
  induction ps as [|q ps IH]; intros [|i] pl pl' Hpl; try discriminate.
  - injection Hpl as ->. cbn. lia.
  - cbn in Hpl. cbn [totalScore fold_right]. change (<[S i := pl']> (q :: ps))
      with (q :: <[i := pl']> ps). cbn [totalScore fold_right].
    fold (totalScore (<[i := pl']> ps)). fold (totalScore ps).
    rewrite (IH i pl pl' Hpl). lia.
Qed.

Lemma complete_totalScore (st : State) (c : Completion) :
  (currentPlayerIndex st < length (players st))%nat ->
  totalScore (players (complete st c)) = totalScore (players st) + points c
  /\ length (players (complete st c)) = length (players st).
Proof.
  intros Hidx. destruct (lookup_lt_is_Some_2 _ _ Hidx) as [pl Hpl].
  rewrite (complete_players st c pl Hpl). cbv zeta. split.
  - rewrite (totalScore_insert _ _ pl _ Hpl). cbn. lia.
  - apply length_insert.
Qed.

(** The points that the rounds report are all booked: in a match of two
    players the scores on the board add up to what they were at the start
    plus the points of every completion, whoever's turn it was. *)
Theorem scores_add_up (st : State) (cs : list Completion) :
  (2 <= length (players st))%nat ->
  (currentPlayerIndex st <= 1)%nat ->
  totalScore (players (play st cs)) = totalScore (players st) + totalPoints cs.
Proof.
  revert st. induction cs as [|c cs IH]; intros st Hlen Hidx.
  - cbn. lia.
  - rewrite play_cons.
    destruct (complete_totalScore st c ltac:(lia)) as [Hsum Hlen'].
    destruct (complete_turn st c) as (Hi & _).
    rewrite IH.
    + rewrite Hsum. cbn [totalPoints fold_right]. fold (totalPoints cs). lia.
    + lia.
    + rewrite Hi. destruct (Nat.eqb _ 0); lia.
Qed.

Lemma scores_add_up_witness :
  let st := started defaultPlayers defaultSettings randPlus in
  let cs := [mkCompletion Queued 6 true; mkCompletion Queued 0 false; mkCompletion Eager 3 true] in
  totalScore (players (play st cs)) = totalScore (players st) + totalPoints cs.
Proof.
  apply (scores_add_up (started defaultPlayers defaultSettings randPlus)).
  - vm_compute. lia.
  - vm_compute. lia.
Defined.

Lemma complete_levelTracksCount (st : State) (c : Completion) :
  Forall levelTracksCount (players st) ->
  Forall levelTracksCount (players (complete st c)).
Proof.
  intros Hps.
  destruct (players st !! currentPlayerIndex st) as [pl|] eqn:Hpl.
  2: { now rewrite complete_players_missing. }
  rewrite (complete_players st c pl Hpl). cbv zeta.
  apply Forall_insert; [exact Hps |].
  pose proof (proj1 (Forall_lookup _ _) Hps _ _ Hpl) as (Hlev & Hlow & Hhigh).
  unfold levelTracksCount. cbn [level correctAnswers].
  destruct (correct c); cbn [andb]; [| lia].
  destruct (sched c).
  - destruct (Z.leb_spec (level pl * 5) (correctAnswers pl));
      destruct (Z.ltb_spec (level pl) 10); cbn [andb]; lia.
  - destruct (Z.leb_spec (level pl * 5) (correctAnswers pl + 1));
      destruct (Z.ltb_spec (level pl) 10); cbn [andb]; lia.
Qed.

(** The level follows the correct answers under every scheduling of the
    state updates: from players whose level fits their count (the default
    players do), every player's level stays between 1 and 10, is never
    above one level per five correct answers, and below level 10 is never
    more than one answer behind. *)
Theorem level_tracks_correct_answers (st : State) (cs : list Completion) :
  Forall levelTracksCount (players st) ->
  Forall levelTracksCount (players (play st cs)).
Proof.
  revert st. induction cs as [|c cs IH]; intros st Hst; [exact Hst |].
  rewrite play_cons. apply IH. now apply complete_levelTracksCount.
Qed.

Lemma level_tracks_correct_answers_witness :
  Forall levelTracksCount
    (players (play (started defaultPlayers defaultSettings randPlus) (correctRounds Queued 9))).
Proof.
  apply (level_tracks_correct_answers (started defaultPlayers defaultSettings randPlus)).
  repeat constructor; cbn; lia.
Defined.

End MatchFacts.

(* ===================================================================== *)
(** * Matches started from the selection form *)
(* ===================================================================== *)

Module FormFacts.
Import App AppFacts.

Lemma initialForm_formShape (initialSettings : GameSettings) :
  4 <= totalRounds initialSettings <= 20 ->
  formShape (GameSelection.initialForm initialSettings).
Proof. intros Hr. split; [eexists _, _; reflexivity | exact Hr]. Qed.

Lemma change_formShape (f f' : GameSelection.Form) (i : GameSelection.Input) :
  GameSelection.inRange i -> GameSelection.change f i = Some f' ->
  formShape f -> formShape f'.
Proof.
  intros Hi Hch [(name0 & name1 & Hps) Hr].
  destruct i as [index text | value | value | value]; cbn in Hi, Hch.
  - unfold GameSelection.handleNameChange in Hch. rewrite Hps in Hch.
    destruct index as [|[|index]]; cbn in Hch; [| | discriminate];
      injection Hch as <-; (split; [eexists _, _; reflexivity | exact Hr]).
  - injection Hch as <-. split; [eauto | exact Hr].
  - injection Hch as <-. split; [eauto | exact Hi].
  - injection Hch as <-. split; [eauto | exact Hr].
Qed.

Lemma edit_formShape (inputs : list GameSelection.Input) :
  forall f f', Forall GameSelection.inRange inputs ->
    GameSelection.edit f inputs = Some f' -> formShape f -> formShape f'.
Proof.
  induction inputs as [|i inputs IH]; intros f f' Hin Hed Hf; cbn in Hed.
  - now injection Hed as <-.
  - apply Forall_cons in Hin as [Hi Hin].
    destruct (GameSelection.change f i) as [f1|] eqn:Hch; [| discriminate].
    apply (IH f1 f' Hin Hed). now apply (change_formShape f f1 i).
Qed.

Lemma start_formMatch (f : GameSelection.Form) (random : Rand) (st : State) :
  formShape f -> currentPlayerIndex st = 0%nat ->
  formMatch (GameSelection.start f random st).
Proof.
  intros [(name0 & name1 & Hps) Hr] Hidx.
  unfold GameSelection.start, startGame. rewrite Hps, Hidx. cbn.
  unfold formMatch. cbn.
  eexists _, _. split; [reflexivity |]. split; [reflexivity |].
  cbn. repeat split; try lia.
  unfold selectGameForPlayer. cbn. destruct (gtHalf random); auto.
Qed.

Lemma complete_formMatch (st : State) (c : Completion) :
  formMatch st -> formMatch (complete st c).
Proof.
  intros (cur & oth & Hcur & Hoth & Hidx & Hr & Hl1 & Hl2 & Hl3 & Ho1 & Ho2 & Ho3
          & Hend & Htot & Hgame).
  pose proof (MatchFacts.complete_players st c cur Hcur) as Hps. cbv zeta in Hps.
  destruct (complete_turn st c) as (Hi & Hrounds & Hg & Hset).
  pose proof (lookup_lt_Some _ _ _ Hcur) as Hlt.
  set (cur' := mkPlayer (name cur) (age cur) (grade cur) (score cur + points c)
                 (if correct c
                     && ((level cur * 5 <=? match sched c with
                                            | Queued => correctAnswers cur
                                            | Eager => if correct c then correctAnswers cur + 1
                                                       else correctAnswers cur
                                            end) && (level cur <? 10))
                  then level cur + 1 else level cur)
                 (if correct c then correctAnswers cur + 1 else correctAnswers cur)) in *.
  assert (Hswap : currentPlayerIndex (complete st c) = (1 - currentPlayerIndex st)%nat
                  /\ (1 - currentPlayerIndex (complete st c))%nat = currentPlayerIndex st
                  /\ currentPlayerIndex (complete st c) <> currentPlayerIndex st).
  { rewrite Hi. destruct (currentPlayerIndex st) as [|[|n]]; cbn; lia. }
  destruct Hswap as (Hs1 & Hs2 & Hs3).
  exists oth, cur'.
  split. { rewrite Hps, Hs1, list_lookup_insert_ne by lia. exact Hoth. }
  split. { rewrite Hs2, Hps. now apply list_lookup_insert_eq. }
  split; [lia |]. rewrite Hrounds, Hset.
  split; [lia |].
  split; [exact Ho1 |]. split; [exact Ho2 |]. split; [lia |].
  assert (Hcur' : 1 <= level cur' /\ (level cur' - 1) * 5 <= correctAnswers cur'
                  /\ correctAnswers cur' * 2 <= roundsPlayed st + 1 + 1).
  { unfold cur'. cbn [level correctAnswers].
    destruct (correct c); cbn [andb]; [| lia].
    destruct (sched c).
    - destruct (Z.leb_spec (level cur * 5) (correctAnswers cur));
        destruct (Z.ltb_spec (level cur) 10); cbn [andb]; lia.
    - destruct (Z.leb_spec (level cur * 5) (correctAnswers cur + 1));
        destruct (Z.ltb_spec (level cur) 10); cbn [andb]; lia. }
  destruct Hcur' as (Hc1 & Hc2 & Hc3).
  split; [exact Hc1 |]. split; [exact Hc2 |]. split; [exact Hc3 |].
  rewrite Hg.
  destruct (Z.leb_spec (totalRounds (gameSettings st)) (roundsPlayed st + 1)).
  - repeat split; auto.
  - split; [right; lia |]. split; [exact Htot | exact Hgame].
Qed.

Lemma play_formMatch (cs : list Completion) :
  forall st, formMatch st -> formMatch (play st cs).
Proof.
  induction cs as [|c cs IH]; intros st Hst; [exact Hst |].
  rewrite MatchFacts.play_cons. apply IH. now apply complete_formMatch.
Qed.

Lemma form_started (initialSettings : GameSettings) (inputs : list GameSelection.Input)
  (f : GameSelection.Form) (random : Rand) (st : State) (cs : list Completion) :
  4 <= totalRounds initialSettings <= 20 ->
  Forall GameSelection.inRange inputs ->
  GameSelection.edit (GameSelection.initialForm initialSettings) inputs = Some f ->
  currentPlayerIndex st = 0%nat ->
  formMatch (play (GameSelection.start f random st) cs).
Proof.
  intros Hr Hin Hed Hidx. apply play_formMatch, start_formMatch; [| exact Hidx].
  apply (edit_formShape inputs _ f Hin Hed). now apply initialForm_formShape.
Qed.

(** A match that is started from the selection form never shows
    MultiplicationGame or WordMathGame.  The form fixes the ages 5 and 7,
    the selection screen is only shown with the player index 0, so
    [startGame] chooses the game for the five-year-old, and no turn changes
    it: the game state is opposites or animals until it is results. *)
Theorem form_match_never_reaches_maths (initialSettings : GameSettings)
  (inputs : list GameSelection.Input) (f : GameSelection.Form) (random : Rand)
  (st : State) (cs : list Completion) :
  4 <= totalRounds initialSettings <= 20 ->
  Forall GameSelection.inRange inputs ->
  GameSelection.edit (GameSelection.initialForm initialSettings) inputs = Some f ->
  currentPlayerIndex st = 0%nat ->
  let st' := play (GameSelection.start f random st) cs in
  gameState st' = opposites \/ gameState st' = animals \/ gameState st' = results.
Proof.
  intros Hr Hin Hed Hidx.
  destruct (form_started initialSettings inputs f random st cs Hr Hin Hed Hidx)
    as (cur & oth & H).
  cbv zeta. tauto.
Qed.

Lemma form_match_never_reaches_maths_witness :
  let f := GameSelection.mkForm
             [mkPlayer "Alex (Pre-K)" 5 "Pre-K" 0 1 0; mkPlayer "Sam" 7 "1st Grade" 0 1 0]
             (mkSettings 20 6 1) in
  let st' := play (GameSelection.start f randPlus (resetGame initialState))
               (correctRounds Queued 3) in
  gameState st' = opposites \/ gameState st' = animals \/ gameState st' = results.
Proof.
  apply (form_match_never_reaches_maths defaultSettings
           [GameSelection.NameField 1 "Sam"; GameSelection.RoundsSlider 6]).
  - cbn. lia.
  - repeat constructor; cbn; lia.
  - reflexivity.
  - reflexivity.
Defined.

(** In a match that is started from the selection form the games are
    only ever rendered with difficulty 1 or 2: the form starts both
    players at level 1 and allows 20 rounds at most, a player whose turn
    it is has answered at most 9 rounds, and the level is never above one
    per five correct answers. *)
Theorem form_match_difficulty_at_most_2 (initialSettings : GameSettings)
  (inputs : list GameSelection.Input) (f : GameSelection.Form) (random : Rand)
  (st : State) (cs : list Completion) (d : Z) :
  4 <= totalRounds initialSettings <= 20 ->
  Forall GameSelection.inRange inputs ->
  GameSelection.edit (GameSelection.initialForm initialSettings) inputs = Some f ->
  currentPlayerIndex st = 0%nat ->
  difficultyProp (play (GameSelection.start f random st) cs) = Some d ->
  d = 1 \/ d = 2.
Proof.
  intros Hr Hin Hed Hidx Hd.
  destruct (form_started initialSettings inputs f random st cs Hr Hin Hed Hidx)
    as (cur & oth & Hcur & _ & _ & Hrounds & Hl1 & Hl2 & Hl3 & _ & _ & _ & Hend & Htot & _).
  unfold difficultyProp in Hd. rewrite Hcur in Hd.
  destruct Hend as [Hres | Hlt]; [rewrite Hres in Hd; discriminate |].
  assert (d = level cur) as -> by (destruct (gameState _); congruence).
  lia.
Qed.

Lemma form_match_difficulty_at_most_2_witness :
  difficultyProp
    (play (GameSelection.start
             (GameSelection.mkForm
                (GameSelection.players (GameSelection.initialForm defaultSettings))
                (mkSettings 20 20 5))
             randPlus initialState)
       (correctRounds Eager 18)) = Some 2
  /\ (2 = 1 \/ 2 = 2).
Proof.
  split; [vm_compute; reflexivity |].
  apply (form_match_difficulty_at_most_2 defaultSettings
           [GameSelection.RoundsSlider 20; GameSelection.DifficultySlider 5]
           (GameSelection.mkForm
              (GameSelection.players (GameSelection.initialForm defaultSettings))
              (mkSettings 20 20 5))
           randPlus initialState (correctRounds Eager 18) 2).
  - cbn. lia.
  - repeat constructor; cbn; lia.
  - reflexivity.
  - reflexivity.
  - vm_compute. reflexivity.
Defined.

Lemma start_settings (f : GameSelection.Form) (random : Rand) (st : State) :
  formShape f -> currentPlayerIndex st = 0%nat ->
  gameSettings (GameSelection.start f random st) = GameSelection.settings f.
Proof.
  intros [(name0 & name1 & Hps) _] Hidx.
  unfold GameSelection.start, startGame. rewrite Hps, Hidx. reflexivity.
Qed.

Lemma formMatch_not_selection (st : State) : formMatch st -> gameState st <> selection.
Proof.
  intros (cur & oth & H). decompose [and] H. intuition congruence.
Qed.

Lemma ui_step (st : State) (e : Ui.Event) :
  Ui.inRange e -> uiReachable st -> uiReachable (Ui.step st e).
Proof.
  intros He [Hr Hst]. unfold uiReachable.
  destruct e as [inputs random | c |]; cbn [Ui.step Ui.inRange] in *.
  - destruct Hst as [[Hsel Hidx] | Hmatch].
    + rewrite Hsel.
      destruct (GameSelection.edit _ inputs) as [f|] eqn:Hed; [| split; [exact Hr | now left]].
      assert (Hf : formShape f).
      { apply (edit_formShape inputs _ f He Hed). now apply initialForm_formShape. }
      split; [| right; now apply start_formMatch].
      rewrite (start_settings f random st Hf Hidx). exact (proj2 Hf).
    + pose proof (formMatch_not_selection st Hmatch) as Hns.
      destruct (gameState st); try contradiction; (split; [exact Hr | now right]).
  - destruct Hst as [[Hsel Hidx] | Hmatch].
    + rewrite Hsel. split; [exact Hr | now left].
    + assert (Hc : 4 <= totalRounds (gameSettings (complete st c)) <= 20
                   /\ formMatch (complete st c)).
      { split; [| now apply complete_formMatch].
        now destruct (complete_turn st c) as (_ & _ & _ & ->). }
      destruct (gameState st); try exact Hc; (split; [exact Hr | now right]).
  - split; [exact Hr | left; split; reflexivity].
Qed.

Lemma ui_run_reachable (es : list Ui.Event) :
  Forall Ui.inRange es -> uiReachable (Ui.run es).
Proof.
  intros Hes. unfold Ui.run.
  assert (Hinit : uiReachable initialState)
    by (split; [cbn; lia | left; split; reflexivity]).
  revert Hinit. generalize initialState.
  induction Hes as [|e es He Hes IH]; intros st Hst; [exact Hst |].
  cbn [fold_left]. apply IH. now apply (ui_step st e He).
Qed.

Lemma uiReachable_difficulty (st : State) (d : Z) :
  uiReachable st -> difficultyProp st = Some d -> d = 1 \/ d = 2.
Proof.
  intros [_ [[Hsel _] | Hmatch]] Hd; unfold difficultyProp in Hd.
  - rewrite Hsel in Hd. discriminate.
  - destruct Hmatch as (cur & oth & Hcur & _ & _ & Hrounds & Hl1 & Hl2 & Hl3 & _ & _ & _
                        & Hend & Htot & _).
    rewrite Hcur in Hd.
    destruct Hend as [Hres | Hlt]; [rewrite Hres in Hd; discriminate |].
    assert (d = level cur) as -> by (destruct (gameState _); congruence).
    lia.
Qed.

(** C9.  In every state that the application reaches from its initial
    state through its interface (the form edited within the ranges of its
    inputs and started, rounds completed, "Play Again" or "Try Again"
    pressed), the difficulty that GamesContainer passes to the game
    component, and the component to its generators, is an integer between
    1 and 5. *)
Theorem difficulty_within_generator_domain (es : list Ui.Event) (d : Z) :
  Forall Ui.inRange es ->
  difficultyProp (Ui.run es) = Some d ->
  1 <= d <= 5.
Proof.
  intros Hes Hd.
  destruct (uiReachable_difficulty _ d (ui_run_reachable es Hes) Hd) as [-> | ->]; lia.
Qed.

Lemma difficulty_within_generator_domain_witness :
  difficultyProp
    (Ui.run (Ui.StartPressed [GameSelection.RoundsSlider 20] randPlus
             :: map Ui.RoundCompleted (correctRounds Eager 18))) = Some 2
  /\ 1 <= 2 <= 5.
Proof.
  split; [vm_compute; reflexivity |].
  apply (difficulty_within_generator_domain
           (Ui.StartPressed [GameSelection.RoundsSlider 20] randPlus
            :: map Ui.RoundCompleted (correctRounds Eager 18)) 2).
  - repeat constructor; cbn; lia.
  - vm_compute. reflexivity.
Defined.

(** Whatever the user does in the interface (edit the form and start,
    play rounds, press "Play Again" or "Try Again"), the application
    never shows MultiplicationGame or WordMathGame, never renders a game
    with a difficulty other than 1 or 2, and shows the selection form only
    with the player index 0. *)
Theorem ui_never_shows_maths_games (es : list Ui.Event) :
  Forall Ui.inRange es ->
  let st := Ui.run es in
  gameState st <> multiplication
  /\ gameState st <> wordmath
  /\ (forall d, difficultyProp st = Some d -> d = 1 \/ d = 2)
  /\ (gameState st = selection -> currentPlayerIndex st = 0%nat).
Proof.
  intros Hes.
  assert (Hreach : forall st, uiReachable st -> uiReachable (fold_left Ui.step es st)).
  { induction Hes as [|e es He Hes IH]; intros st Hst; [exact Hst |].
    cbn [fold_left]. apply IH. now apply (ui_step st e He). }
  destruct (Hreach initialState) as [_ Hst].
  { split; [cbn; lia | left; split; reflexivity]. }
  cbv zeta. fold (Ui.run es) in Hst.
  destruct Hst as [[Hsel Hidx] | Hmatch].
  - rewrite Hsel. repeat split; try discriminate; auto.
    intros d Hd. unfold difficultyProp in Hd. rewrite Hsel in Hd. discriminate.
  - pose proof (formMatch_not_selection _ Hmatch) as Hns.
    destruct Hmatch as (cur & oth & Hcur & _ & _ & Hrounds & Hl1 & Hl2 & Hl3 & _ & _ & _
                        & Hend & Htot & Hgame).
    split; [intuition congruence |]. split; [intuition congruence |].
    split; [| intros Hsel; contradiction].
    intros d Hd. unfold difficultyProp in Hd. rewrite Hcur in Hd.
    destruct Hend as [Hres | Hlt]; [rewrite Hres in Hd; discriminate |].
    assert (d = level cur) as -> by (destruct (gameState _); congruence).
    lia.
Qed.

Lemma ui_never_shows_maths_games_witness :
  let st := Ui.run [Ui.StartPressed [GameSelection.RoundsSlider 4] randPlus;
                    Ui.RoundCompleted (mkCompletion Queued 6 true);
                    Ui.RoundCompleted (mkCompletion Queued 0 false);
                    Ui.ResetPressed;
                    Ui.StartPressed [GameSelection.NameField 0 "Kim"] zeroRand;
                    Ui.RoundCompleted (mkCompletion Eager 3 true)] in
  gameState st <> multiplication
  /\ gameState st <> wordmath
  /\ (forall d, difficultyProp st = Some d -> d = 1 \/ d = 2)
  /\ (gameState st = selection -> currentPlayerIndex st = 0%nat).
Proof.
  apply ui_never_shows_maths_games.
  repeat constructor; cbn; lia.
Defined.

End FormFacts.

(* ===================================================================== *)
(** * Folder names *)
(* ===================================================================== *)

Module FolderFacts.

Lemma newdir_char (c : Ascii.ascii) :
  trDash (trLower (trDash (trLower c))) = trDash (trLower c)
  /\ trDash (trLower c) <> spaceChar
  /\ trLower (trDash (trLower c)) = trDash (trLower c).
Proof.
  destruct c as [[] [] [] [] [] [] [] []]; repeat split; try reflexivity; discriminate.
Qed.

Lemma newdir_cons (c : Ascii.ascii) (dir : string) :
  newdir (String.String c dir) = String.String (trDash (trLower c)) (newdir dir).
Proof. reflexivity. Qed.

Lemma length_newdir (dir : string) : String.length (newdir dir) = String.length dir.
Proof.
  induction dir as [|c dir IH]; [reflexivity |]. rewrite newdir_cons. cbn. now rewrite IH.
Qed.

Lemma newdir_newdir (dir : string) : newdir (newdir dir) = newdir dir.
Proof.
  induction dir as [|c dir IH]; [reflexivity |].
  rewrite !newdir_cons, IH. f_equal. apply newdir_char.
Qed.

(** The folder name normalisation of the structure script is idempotent:
    a normalised name has the length of the original, holds no space and
    no upper-case ASCII letter, and is not renamed again, so a second run
    of the loop renames nothing. *)
Theorem normalised_names_are_kept (dir : string) :
  newdir (newdir dir) = newdir dir
  /\ renames (newdir dir) = false
  /\ String.length (newdir dir) = String.length dir
  /\ tr trLower (newdir dir) = newdir dir
  /\ forall n, String.get n (newdir dir) <> Some spaceChar.
Proof.
  split; [apply newdir_newdir |]. split; [| split; [apply length_newdir | split]].
  - unfold renames. now rewrite newdir_newdir, String.eqb_refl.
  - induction dir as [|c dir IH]; [reflexivity |].
    rewrite newdir_cons. cbn [tr]. rewrite IH. f_equal. apply newdir_char.
  - induction dir as [|c dir IH]; intros n; [destruct n; discriminate |].
    rewrite newdir_cons. destruct n as [|n]; cbn [String.get]; [| apply IH].
    intros [= Hc]. now apply (newdir_char c).
Qed.

End FolderFacts.
